(** * Balancer V2 event pool and quote dispatch: a shallow embedding

    The development follows [src/dex/balancer-v2/balancer-v2.ts]:
    - [BalancerV2EventPool.processLog] with its two handlers,
    - [BalancerV2EventPool.getPricesPool],
    - the non-event pool state cache of [BalancerV2],
    - [BalancerV2.getPools], [getAdapters], [getPoolIdentifiers] and
      [getPricesVolume].

    JavaScript objects used as dictionaries are finite maps keyed by strings,
    [bigint] is [Z], arrays are lists, [null]/[undefined] is [None], and a
    thrown exception is the [Abrupt] completion. *)

From Stdlib Require Import ZArith Ascii String List Lia.
From stdpp Require Import base option list strings gmap fin_maps.

Open Scope Z_scope.

(** ** Strings *)

Module Str.

(** [String.prototype.toLowerCase] on the ASCII range, which covers the
    hexadecimal addresses and the pool type names the source applies it to. *)
Definition lower_ascii (c : ascii) : ascii :=
  let n := nat_of_ascii c in
  if ((65 <=? n)%nat && (n <=? 90)%nat)%bool then ascii_of_nat (n + 32) else c.

Fixpoint toLowerCase (s : string) : string :=
  match s with
  | EmptyString => EmptyString
  | String c s' => String (lower_ascii c) (toLowerCase s')
  end.

(** [s.slice(0, n)] for a non-negative [n]. *)
Definition slice0 (n : nat) (s : string) : string := String.substring 0 n s.

(** [s.split(sep)[0]] for a non-empty separator: the part of [s] before the
    first occurrence of [sep], all of [s] when there is none. *)
Fixpoint before (sep s : string) : string :=
  match s with
  | EmptyString => EmptyString
  | String c s' =>
      if String.prefix sep s then EmptyString else String c (before sep s')
  end.

(** [s.split(sep)[0]] in general.  With an empty separator [split] cuts [s]
    into its characters, and the first element of an empty array is
    [undefined]. *)
Definition split_head (sep s : string) : option string :=
  match sep with
  | EmptyString =>
      match s with
      | EmptyString => None
      | String c _ => Some (String c EmptyString)
      end
  | _ => Some (before sep s)
  end.

(** A value spliced into a template literal: [undefined] prints as the
    word. *)
Definition interpolate (o : option string) : string :=
  match o with Some s => s | None => "undefined"%string end.

End Str.

(** ** Completions and the object-mutating monad *)

(** The completion of a JavaScript evaluation: a value, or a thrown
    exception.  Every [catch] of the source discards the exception value, so
    [Abrupt] carries none. *)
Inductive completion (A : Type) : Type :=
| Normal (a : A)
| Abrupt.
Arguments Normal {A} a.
Arguments Abrupt {A}.

Definition completion_bind {A B} (f : A -> completion B) (c : completion A)
  : completion B :=
  match c with Normal a => f a | Abrupt => Abrupt end.

#[global] Instance completion_ret : MRet completion := fun _ a => Normal a.
#[global] Instance completion_mbind : MBind completion := fun _ _ f c => completion_bind f c.

(** Reading a property that the static type ([any]) does not guarantee:
    using an [undefined] one throws a [TypeError]. *)
Definition defined {A} (o : option A) : completion A :=
  match o with Some a => Normal a | None => Abrupt end.

(** A computation that runs against one mutable object of type [S]: it
    leaves the object in a final state whether it returns or throws. *)
Definition Mut (S A : Type) : Type := S -> S * completion A.

Definition mut_ret {S A} (a : A) : Mut S A := fun s => (s, Normal a).

Definition mut_bind {S A B} (f : A -> Mut S B) (m : Mut S A) : Mut S B :=
  fun s =>
    match m s with
    | (s', Normal a) => f a s'
    | (s', Abrupt) => (s', Abrupt)
    end.

(** An evaluation that does not touch the object. *)
Definition lift {S A} (c : completion A) : Mut S A := fun s => (s, c).

Declare Scope mut_scope.
Delimit Scope mut_scope with mut.
Notation "'let!' x ':=' m 'in' k" := (mut_bind (fun x => k) m)
  (at level 10, x name, m at level 100, k at level 200) : mut_scope.
Notation "m ';;;' k" := (mut_bind (fun _ => k) m)
  (at level 100, k at level 200, right associativity) : mut_scope.

(** ** Data model *)

(** Modelled from the spec: the record types of [./types], which is not part
    of the sources at hand.  A pool state maps token addresses to balance
    records and carries category-specific scalars that events never
    change. *)
Record TokenState : Type := mkTokenState {
  balance : Z;
  scalingFactor : option Z;
  weight : option Z
}.

(** Modelled from the spec: [PoolState] of [./types]: the token records and
    the scalars set when the state is fetched. *)
Record PoolState : Type := mkPoolState {
  tokens : gmap string TokenState;
  swapFee : Z;
  amp : option Z
}.

Abbreviation PoolStateMap := (gmap string PoolState).

(** Modelled from the spec: [PoolStateCache] of [./types], a block number
    and the pool states held for it; generic in what is stored per address so
    that entries can be instrumented with the height they were stored at. *)
Record PoolStateCache (V : Type) : Type := mkPoolStateCache {
  blockNumber : Z;
  poolState : gmap string V
}.
Arguments mkPoolStateCache {V} _ _.
Arguments blockNumber {V} _.
Arguments poolState {V} _.

(** Modelled from the spec: the arguments of a decoded vault event
    ([LogDescription] of the ABI library, decoded against the vault ABI, which
    is not part of the sources at hand).  The source types the event [any]:
    each argument may be missing. *)
Record EventArgs : Type := mkEventArgs {
  poolId : option string;
  tokenIn : option string;
  tokenOut : option string;
  amountIn : option Z;
  amountOut : option Z;
  tokensArg : option (list string);
  deltas : option (list Z);
  protocolFeeAmounts : option (list Z)
}.

(** A decoded event: the [name] discriminator and the nested arguments. *)
Record LogDescription : Type := mkLogDescription {
  name : string;
  args : EventArgs
}.

Definition noArgs : EventArgs :=
  mkEventArgs None None None None None None None None.

(** The two events the vault emits for reserve changes, as the decoder
    delivers them. *)
Definition SwapEvent (pid tin tout : string) (ain aout : Z) : LogDescription :=
  mkLogDescription "Swap"
    (mkEventArgs (Some pid) (Some tin) (Some tout) (Some ain) (Some aout)
       None None None).

Definition PoolBalanceChangedEvent (pid : string) (ts : list string)
    (ds fs : list Z) : LogDescription :=
  mkLogDescription "PoolBalanceChanged"
    (mkEventArgs (Some pid) None None None None (Some ts) (Some ds) (Some fs)).

(** ** Event handlers *)

Definition setBalance (b : Z) (t : TokenState) : TokenState :=
  mkTokenState b (scalingFactor t) (weight t).

Definition setTokens (m : gmap string TokenState) (p : PoolState) : PoolState :=
  mkPoolState m (swapFee p) (amp p).

(** [pool.tokens[t].balance = f(pool.tokens[t].balance)]: a [TypeError] when
    the pool has no record for [t]. *)
Definition modifyBalance (t : string) (f : Z -> Z) : Mut PoolState unit :=
  fun pool =>
    match tokens pool !! t with
    | Some ts => (setTokens (<[t := setBalance (f (balance ts)) ts]> (tokens pool)) pool,
                  Normal tt)
    | None => (pool, Abrupt)
    end.

Section Handlers.
Context {Log : Type}.
Local Open Scope mut_scope.

(** [handleSwap]: returns the pool object it was given, mutated. *)
Definition handleSwap (event : LogDescription) (log : Log) : Mut PoolState unit :=
  let! tokenIn := lift (defined (Str.toLowerCase <$> tokenIn (args event))) in
  let! amountIn := lift (defined (amountIn (args event))) in
  let! tokenOut := lift (defined (Str.toLowerCase <$> tokenOut (args event))) in
  let! amountOut := lift (defined (amountOut (args event))) in
  modifyBalance tokenIn (fun b => b + amountIn) ;;;
  modifyBalance tokenOut (fun b => b - amountOut).

(** The body of [tokens.forEach((t, i) => ...)], from index [i] on.
    [deltas[i] - fees[i]] throws when either is [undefined] and the other a
    [bigint]; when both are, the difference is [NaN] and adding it to a
    [bigint] balance throws. *)
Fixpoint forEachToken (i : nat) (ts : list string) (deltas fees : list Z)
  : Mut PoolState unit :=
  match ts with
  | [] => mut_ret tt
  | t :: ts' =>
      let! d := lift (defined (deltas !! i)) in
      let! f := lift (defined (fees !! i)) in
      let diff := d - f in
      modifyBalance t (fun b => b + diff) ;;;
      forEachToken (S i) ts' deltas fees
  end.

Definition handlePoolBalanceChanged (event : LogDescription) (log : Log)
  : Mut PoolState unit :=
  let! tokens := lift (defined (map Str.toLowerCase <$> tokensArg (args event))) in
  let! deltas := lift (defined (deltas (args event))) in
  let! fees := lift (defined (protocolFeeAmounts (args event))) in
  forEachToken 0 tokens deltas fees.

(** [this.handlers] as the constructor fills it.  ([event.name in
    this.handlers] also sees what an object inherits from its prototype;
    no event of the vault ABI is named like such a property.) *)
Definition handlers : gmap string (LogDescription -> Log -> Mut PoolState unit) :=
  <["PoolBalanceChanged"%string := handlePoolBalanceChanged]>
    (<["Swap"%string := handleSwap]> ∅).

End Handlers.

(** [_.cloneDeep] on a value is that value. *)
Definition typecastReadOnlyPoolState (pool : PoolState) : PoolState := pool.

Section ProcessLog.
Context {Log : Type}.
(** [this.vaultDecoder]: parsing of the raw log against the vault ABI, which
    throws on a log it cannot match. *)
Variable vaultDecoder : Log -> completion LogDescription.

(** The body of the [try] block, over the cloned [_state].  A pool id is
    the hexadecimal text of a [bytes32], so the address cut from it is no
    property an empty object inherits, and [poolAddress in _state] is
    membership in the map. *)
Definition applyLog (_state : PoolStateMap) (log : Log) : completion PoolStateMap :=
  event ← vaultDecoder log;
  match handlers !! name event with
  | Some handler =>
      pid ← defined (poolId (args event));
      let poolAddress := Str.toLowerCase (Str.slice0 42 pid) in
      match _state !! poolAddress with
      | Some pool =>
          match handler event log pool with
          | (pool', Normal _) => Normal (<[poolAddress := pool']> _state)
          | (_, Abrupt) => Abrupt
          end
      | None => Normal _state
      end
  | None => Normal _state
  end.

Definition processLog (state : PoolStateMap) (log : Log) : option PoolStateMap :=
  let _state := typecastReadOnlyPoolState <$> state in
  match applyLog _state log with
  | Normal s => Some s
  | Abrupt => None
  end.

End ProcessLog.

(** ** Pool descriptors and the pricing strategies *)

Inductive SwapSide : Type := SELL | BUY.

#[global] Instance SwapSide_eq_dec : EqDecision SwapSide.
Proof. solve_decision. Defined.

(** Modelled from the spec: [Token] of [../../types], which is not part of
    the sources at hand (address, decimals and an optional symbol). *)
Module Token.
Record t : Type := mk {
  address : string;
  decimals : nat;
  symbol : option string
}.
End Token.

(** Modelled from the spec: the descriptor types of [./types] and
    [./VirtualBoostedPool], which are not part of the sources at hand.  A
    descriptor has an identity (id, address), a category tag and its
    constituent tokens; a token of a virtual pool names the linear pool that
    holds it. *)
Module SubgraphToken.
Record t : Type := mk {
  address : string;
  decimals : nat;
  linearPoolAddr : option string
}.
End SubgraphToken.

Module SubgraphMainToken.
Record t : Type := mk {
  address : string;
  decimals : nat;
  linearPoolAddr : string
}.
End SubgraphMainToken.

Module SubgraphPoolBase.
Record t : Type := mk {
  id : string;
  address : string;
  poolType : string;
  tokens : list SubgraphToken.t;
  mainIndex : Z;
  wrappedIndex : Z
}.
End SubgraphPoolBase.

(** Modelled from the spec: an entry of [BoostedPools] (a Virtual Pool
    Group), of which the quoting code reads the list of main tokens, each
    with the address of its linear (spoke) pool. *)
Module BoostedPool.
Record t : Type := mk {
  mainTokens : list SubgraphMainToken.t;
  phantomStableAddr : string
}.
End BoostedPool.

Abbreviation BoostedPools := (gmap string BoostedPool.t).

(** The values of the enum [BalancerPoolTypes]. *)
Definition BalancerPoolTypes : list string :=
  [ "Weighted"; "Stable"; "MetaStable"; "LiquidityBootstrapping"; "Investment";
    "AaveLinear"; "StablePhantom"; "VirtualBoosted"; "ERC4626Linear" ]%string.

Definition isSupportedPool (poolType : string) : bool :=
  bool_decide (poolType ∈ BalancerPoolTypes).

(** Modelled from the spec: [getBigIntPow] of [../../utils], which is not part
    of the sources at hand: one token in its smallest-unit scale. *)
Definition getBigIntPow (decimals : nat) : Z := 10 ^ Z.of_nat decimals.

(** The contract of a pool-type strategy ([WeightedPool], [StablePool], ...,
    defined outside the sources at hand), as far as [getPricesPool] uses it.
    Each operation may throw. *)
Record BasePool (PoolPairData : Type) : Type := mkBasePool {
  parsePoolPairData :
    SubgraphPoolBase.t -> PoolStateMap -> string -> string -> BoostedPools ->
    completion PoolPairData;
  checkBalance : list Z -> Z -> SwapSide -> PoolPairData -> completion bool;
  onSell : list Z -> PoolPairData -> completion (list Z);
  pairGasCost : PoolPairData -> Z
}.
Arguments parsePoolPairData {_} _.
Arguments checkBalance {_} _.
Arguments onSell {_} _.
Arguments pairGasCost {_} _.

(** What [getPricesPool] returns when it does not return [null].  [unit] is
    [_prices[0]], which is [undefined] when the strategy returned no price. *)
Module PricesPool.
Record t : Type := mk {
  unit : option Z;
  prices : list Z;
  gasCost : Z
}.
End PricesPool.

Section GetPricesPool.
Context {PoolPairData : Type}.
(** [this.pools], keyed by pool type. *)
Variable pools : string -> BasePool PoolPairData.
Variable virtualBoostedPools : BoostedPools.

Definition getPricesPool (from to : Token.t) (pool : SubgraphPoolBase.t)
    (poolStates : PoolStateMap) (amounts : list Z) (unitVolume : Z)
    (side : SwapSide) : completion (option PricesPool.t) :=
  if negb (isSupportedPool (SubgraphPoolBase.poolType pool)) then Normal None
  else
    let strategy := pools (SubgraphPoolBase.poolType pool) in
    let _amounts := unitVolume :: drop 1 amounts in
    poolPairData ← parsePoolPairData strategy pool poolStates
                      (Token.address from) (Token.address to) virtualBoostedPools;
    ok ← checkBalance strategy amounts unitVolume side poolPairData;
    if negb ok then Normal None
    else
      _prices ← onSell strategy _amounts poolPairData;
      Normal (Some (PricesPool.mk (_prices !! 0%nat) (0 :: drop 1 _prices)
                      (pairGasCost strategy poolPairData))).

End GetPricesPool.

(** ** The non-event pool state cache *)

Section NonEventCache.
Context {V : Type}.

(** Both accessors return the cache they leave behind together with the
    map they hand to the caller. *)
Definition getNonEventPoolStateCache (blockNumber' : Z) (c : PoolStateCache V)
  : PoolStateCache V * gmap string V :=
  let c' := if decide (blockNumber c ≠ blockNumber')
            then mkPoolStateCache (blockNumber c) ∅
            else c in
  (c', poolState c').

(** [{...old, ...new}]: on a shared key the new entry wins. *)
Definition updateNonEventPoolStateCache (poolState' : gmap string V)
    (blockNumber' : Z) (c : PoolStateCache V)
  : PoolStateCache V * gmap string V :=
  let c' := if decide (blockNumber c ≠ blockNumber')
            then mkPoolStateCache blockNumber' poolState'
            else mkPoolStateCache (blockNumber c) (poolState' ∪ poolState c) in
  (c', poolState c').

(** The cache as the constructor of [BalancerV2] leaves it. *)
Definition initialCache : PoolStateCache V := mkPoolStateCache 0 ∅.

Inductive CacheCall : Type :=
| CallGet (blockNumber' : Z)
| CallUpdate (poolState' : gmap string V) (blockNumber' : Z).

Definition runCall (c : PoolStateCache V) (call : CacheCall) : PoolStateCache V :=
  match call with
  | CallGet bn => fst (getNonEventPoolStateCache bn c)
  | CallUpdate ps bn => fst (updateNonEventPoolStateCache ps bn c)
  end.

Definition runCalls (calls : list CacheCall) (c : PoolStateCache V)
  : PoolStateCache V :=
  foldl runCall c calls.

End NonEventCache.
Arguments CacheCall V : clear implicits.

(** ** The quoting interface of [BalancerV2] *)

(** An element of the list [getPricesVolume] returns. *)
Module PoolPrices.
Record t : Type := mk {
  unit : option Z;
  prices : list Z;
  poolId : string;            (* [data.poolId] *)
  poolAddresses : list string;
  exchange : string;
  gasCost : Z;
  poolIdentifier : string
}.
End PoolPrices.

Module Adapter.
Record t : Type := mk { name : string; index : Z }.
End Adapter.

Section BalancerV2.
Context {PoolPairData : Type}.
Variable dexKey : string.
(** [this.dexHelper.config.wrapETH] *)
Variable wrapETH : Token.t -> Token.t.
(** [this.adapters], absent for a network without adapters. *)
Variable adapters : option (list Adapter.t).
(** The fields of [this.eventPools] the quoting code reads. *)
Variable allPools : list SubgraphPoolBase.t.
Variable virtualBoostedPools : BoostedPools.
Variable pools : string -> BasePool PoolPairData.
(** [this.eventPools.getState]: the event snapshot for a block number, or
    [null] when the subscriber holds none for it. *)
Variable getState : Z -> option PoolStateMap.
(** [this.eventPools.getOnChainState]: the multicall against the chain at a
    block number; it throws when a batch fails. *)
Variable getOnChainState : list SubgraphPoolBase.t -> Z -> completion PoolStateMap.
Variable eventDisabledPools : list string.

Definition hasToken (a : string) (p : SubgraphPoolBase.t) : bool :=
  existsb (fun token =>
             bool_decide (Str.toLowerCase (SubgraphToken.address token)
                          = Str.toLowerCase a))
          (SubgraphPoolBase.tokens p).

Definition getPools (from to : Token.t) : list SubgraphPoolBase.t :=
  take 10 (List.filter (fun p => hasToken (Token.address from) p
                                 && hasToken (Token.address to) p)
             allPools).

Definition getAdapters (side : SwapSide) : option (list Adapter.t) :=
  if decide (side = BUY) then None else adapters.

(** The identifiers one pool contributes in [getPoolIdentifiers]. *)
Definition poolIdentifiers (p : SubgraphPoolBase.t) : list string :=
  let simple := dexKey +:+ "_" +:+ Str.toLowerCase (SubgraphPoolBase.address p) in
  if decide (SubgraphPoolBase.poolType p = "VirtualBoosted"%string)
  then simple
         :: (dexKey +:+ "_" +:+ Str.toLowerCase (SubgraphPoolBase.address p)
               +:+ "virtualboosted")
         :: map (fun t => dexKey +:+ "_"
                          +:+ Str.interpolate
                                (Str.toLowerCase <$> SubgraphToken.linearPoolAddr t))
                (SubgraphPoolBase.tokens p)
  else [simple].

Definition getPoolIdentifiers (from to : Token.t) (side : SwapSide)
    (blockNumber' : Z) : list string :=
  if decide (side = BUY) then []
  else
    let _from := wrapETH from in
    let _to := wrapETH to in
    let pools := getPools _from _to in
    concat (map poolIdentifiers pools).

(** [virtualBoostedPools[pool.id.split(pool.poolType.toLowerCase())[0]]]:
    the virtual pool group a descriptor belongs to, if any. *)
Definition boostedGroup (pool : SubgraphPoolBase.t) : option BoostedPool.t :=
  let id := Str.split_head (Str.toLowerCase (SubgraphPoolBase.poolType pool))
              (SubgraphPoolBase.id pool) in
  virtualBoostedPools !! Str.interpolate id.

(** [limitPools.includes(s)] *)
Definition includes (l : list string) (s : string) : bool := bool_decide (s ∈ l).

(** The callback of [poolsWithTokens.filter] when [limitPools] is given. *)
Definition allowedByLimit (limitPools : list string) (pool : SubgraphPoolBase.t)
  : bool :=
  if negb (includes limitPools
             (dexKey +:+ "_" +:+ Str.toLowerCase (SubgraphPoolBase.address pool)))
  then false
  else
    match boostedGroup pool with
    | Some group =>
        if negb (includes limitPools
                   (dexKey +:+ "_" +:+ Str.toLowerCase (SubgraphPoolBase.address pool)
                      +:+ "virtualboosted"))
        then false
        else
          forallb (fun t => includes limitPools
                     (dexKey +:+ "_"
                        +:+ Str.toLowerCase (SubgraphMainToken.linearPoolAddr t)))
                  (BoostedPool.mainTokens group)
    | None => true
    end.

Definition allowedPools (from to : Token.t) (limitPools : option (list string))
  : list SubgraphPoolBase.t :=
  let poolsWithTokens := getPools (wrapETH from) (wrapETH to) in
  match limitPools with
  | Some l => List.filter (allowedByLimit l) poolsWithTokens
  | None => poolsWithTokens
  end.

(** The copy of the snapshot from which the disabled pools are deleted. *)
Definition dropDisabled (eventPoolStatesRO : option PoolStateMap) : PoolStateMap :=
  foldl (fun m addr => delete addr m) (default ∅ eventPoolStatesRO)
    eventDisabledPools.

(** The callback of [allowedPools.map], with the [null]s it returns. *)
Definition pricePool (_from _to : Token.t) (amounts : list Z) (unitVolume : Z)
    (side : SwapSide)
    (eventPoolStates nonEventPoolStates completePoolStates : PoolStateMap)
    (pool : SubgraphPoolBase.t) : option PoolPrices.t :=
  let poolAddress := Str.toLowerCase (SubgraphPoolBase.address pool) in
  match eventPoolStates !! poolAddress ∪ nonEventPoolStates !! poolAddress with
  | None => None
  | Some poolState =>
      match getPricesPool pools virtualBoostedPools _from _to pool
              completePoolStates amounts unitVolume side with
      | Abrupt => None
      | Normal None => None
      | Normal (Some res) =>
          let poolAddresses :=
            poolAddress ::
              match boostedGroup pool with
              | Some group =>
                  map (fun t => Str.toLowerCase (SubgraphMainToken.linearPoolAddr t))
                      (BoostedPool.mainTokens group)
              | None => []
              end in
          Some (PoolPrices.mk (PricesPool.unit res) (PricesPool.prices res)
                  (SubgraphPoolBase.id pool) poolAddresses dexKey
                  (PricesPool.gasCost res)
                  (dexKey +:+ "_" +:+ SubgraphPoolBase.id pool))
      end
  end.

(** The candidates for which neither the event view nor the cache has a
    state. *)
Definition missingPools (allowed : list SubgraphPoolBase.t)
    (eventPoolStates nonEventPoolStates : PoolStateMap)
  : list SubgraphPoolBase.t :=
  List.filter
    (fun pool =>
       let a := Str.toLowerCase (SubgraphPoolBase.address pool) in
       negb (bool_decide (is_Some (eventPoolStates !! a))
             || bool_decide (is_Some (nonEventPoolStates !! a))))
    allowed.

(** [getPricesVolume], threading [this.nonEventPoolStateCache].  The cache
    keeps what was written to it before an exception reached the outer
    [catch]. *)
Definition getPricesVolume (from to : Token.t) (amounts : list Z)
    (side : SwapSide) (blockNumber' : Z) (limitPools : option (list string))
    (cache : PoolStateCache PoolState)
  : PoolStateCache PoolState * option (list PoolPrices.t) :=
  if decide (side = BUY) then (cache, None)
  else
    let _from := wrapETH from in
    let _to := wrapETH to in
    let allowed := allowedPools from to limitPools in
    if decide (length allowed = 0%nat) then (cache, None)
    else
      let unitVolume :=
        getBigIntPow (Token.decimals (if decide (side = SELL) then _from else _to)) in
      let eventPoolStatesRO := getState blockNumber' in
      let eventPoolStates := dropDisabled eventPoolStatesRO in
      let '(cache1, nonEventPoolStates) :=
        getNonEventPoolStateCache blockNumber' cache in
      let missing := missingPools allowed eventPoolStates nonEventPoolStates in
      let fetched :=
        if decide (0 < length missing)%nat
        then missingPoolsStateMap ← getOnChainState missing blockNumber';
             Normal (updateNonEventPoolStateCache missingPoolsStateMap
                       blockNumber' cache1)
        else Normal (cache1, nonEventPoolStates) in
      match fetched with
      | Abrupt => (cache1, None)
      | Normal (cache2, nonEventPoolStates) =>
          let completePoolStates :=
            nonEventPoolStates ∪ default ∅ eventPoolStatesRO in
          (cache2,
           Some (omap (pricePool _from _to amounts unitVolume side
                         eventPoolStates nonEventPoolStates completePoolStates)
                   allowed))
      end.

End BalancerV2.

(** ** [processLog] over a store of pool objects

    [processLog] receives a reference to the snapshot and works on a deep
    clone of it; its handlers write into the pool object they are given.  To
    state what happens to the caller's snapshot, pool objects are placed in a
    store and a snapshot maps addresses to references.  A pool object is stored
    together with everything reachable from it (its token dictionary and the
    token records): that is the unit [_.cloneDeep] copies and the extent of a
    handler's writes. *)
Module Heap.

Abbreviation loc := nat.
Abbreviation store := (list PoolState).
Abbreviation PoolStateMapRef := (gmap string loc).

(** The value of a snapshot in a store. *)
Definition denote (σ : store) (state : PoolStateMapRef) : PoolStateMap :=
  omap (fun l => σ !! l) state.

(** Every reference of the snapshot points into the store. *)
Definition wf (σ : store) (state : PoolStateMapRef) : Prop :=
  ∀ k l, state !! k = Some l → (l < length σ)%nat.

Definition alloc (v : PoolState) (σ : store) : store * loc :=
  (σ ++ [v], length σ).

(** [for (const [address, pool] of Object.entries(state))
      _state[address] = typecastReadOnlyPoolState(pool)] *)
Fixpoint cloneEntries (entries : list (string * loc)) (σ : store)
    (_state : PoolStateMapRef) : store * PoolStateMapRef :=
  match entries with
  | [] => (σ, _state)
  | (address, pool) :: rest =>
      match σ !! pool with
      | Some v =>
          let '(σ', l) := alloc (typecastReadOnlyPoolState v) σ in
          cloneEntries rest σ' (<[address := l]> _state)
      | None => cloneEntries rest σ _state
      end
  end.

Section ProcessLog.
Context {Log : Type}.
Variable vaultDecoder : Log -> completion LogDescription.

(** The body of the [try] block.  The handler is run on the object at the
    reference; what it leaves there stays, also when it throws. *)
Definition applyLog (σ : store) (_state : PoolStateMapRef) (log : Log)
  : store * completion PoolStateMapRef :=
  match vaultDecoder log with
  | Abrupt => (σ, Abrupt)
  | Normal event =>
      match handlers !! name event with
      | Some handler =>
          match poolId (args event) with
          | None => (σ, Abrupt)
          | Some pid =>
              let poolAddress := Str.toLowerCase (Str.slice0 42 pid) in
              match _state !! poolAddress with
              | Some l =>
                  match σ !! l with
                  | Some pool =>
                      let '(pool', c) := handler event log pool in
                      (<[l := pool']> σ,
                       match c with
                       | Normal _ => Normal (<[poolAddress := l]> _state)
                       | Abrupt => Abrupt
                       end)
                  | None => (σ, Abrupt)
                  end
              | None => (σ, Normal _state)
              end
          end
      | None => (σ, Normal _state)
      end
  end.

Definition processLog (σ : store) (state : PoolStateMapRef) (log : Log)
  : store * option PoolStateMapRef :=
  let '(σ1, _state) := cloneEntries (map_to_list state) σ ∅ in
  match applyLog σ1 _state log with
  | (σ2, Normal s) => (σ2, Some s)
  | (σ2, Abrupt) => (σ2, None)
  end.

End ProcessLog.

End Heap.

(** ** Specification vocabulary *)

(** The pool address an event is addressed to: [poolId.slice(0, 42).toLowerCase()]. *)
Definition poolAddressOf (pid : string) : string :=
  Str.toLowerCase (Str.slice0 42 pid).

(** A token record whose balance moved by [d], everything else as before. *)
Definition credit (d : Z) (ts : TokenState) : TokenState :=
  setBalance (balance ts + d) ts.

(** What a Swap moves on token [t]. *)
Definition swapDelta (tin tout : string) (ain aout : Z) (t : string) : Z :=
  (if decide (t = tin) then ain else 0) - (if decide (t = tout) then aout else 0).

(** What a PoolBalanceChanged moves on token [t]: delta minus fee, summed over
    the positions from [i] on at which [t] is listed. *)
Fixpoint listedDelta (t : string) (i : nat) (ts : list string) (ds fs : list Z) : Z :=
  match ts with
  | [] => 0
  | t' :: ts' =>
      (if decide (t = t') then default 0 (ds !! i) - default 0 (fs !! i) else 0)
      + listedDelta t (S i) ts' ds fs
  end.

Definition balanceOf (pool : PoolState) (t : string) : option Z :=
  balance <$> tokens pool !! t.

(** The entries the non-event cache holds for a block number. *)
Definition cachedAt (bn : Z) (cache : PoolStateCache PoolState) : PoolStateMap :=
  if decide (blockNumber cache = bn) then poolState cache else ∅.

(** The element of the price list made for a pool from what its strategy
    returned. *)
Definition entryOf (dexKey : string) (virtualBoostedPools : BoostedPools)
    (pool : SubgraphPoolBase.t) (r : PricesPool.t) : PoolPrices.t :=
  PoolPrices.mk (PricesPool.unit r) (PricesPool.prices r)
    (SubgraphPoolBase.id pool)
    (Str.toLowerCase (SubgraphPoolBase.address pool)
       :: match boostedGroup virtualBoostedPools pool with
          | Some group =>
              map (fun t => Str.toLowerCase (SubgraphMainToken.linearPoolAddr t))
                  (BoostedPool.mainTokens group)
          | None => []
          end)
    dexKey (PricesPool.gasCost r)
    (dexKey +:+ "_" +:+ SubgraphPoolBase.id pool).

(** For a request the subscriber has no snapshot for, no state can be had at
    the block for any candidate: some candidate has no state in the cache for
    the block, and the read from the chain at the block either throws, or
    returns and neither its answer nor the cache for the block holds a state
    for a candidate. *)
Definition CannotReconstruct
    (getOnChainState : list SubgraphPoolBase.t -> Z -> completion PoolStateMap)
    (allowed : list SubgraphPoolBase.t) (bn : Z)
    (cache : PoolStateCache PoolState) : Prop :=
  let missing := missingPools allowed ∅ (cachedAt bn cache) in
  missing ≠ []
  ∧ match getOnChainState missing bn with
    | Abrupt => True
    | Normal fetched =>
        ∀ pool, pool ∈ allowed →
          (fetched ∪ cachedAt bn cache)
            !! Str.toLowerCase (SubgraphPoolBase.address pool) = None
    end.

Section Claims.
Context {Log : Type}.
Variable vaultDecoder : Log -> completion LogDescription.

(** The Swap rule read for every decoded Swap event addressed to a tracked
    pool, without a condition on its tokens. *)
Definition SwapRule (state : PoolStateMap) (log : Log)
    (pid tin tout : string) (ain aout : Z) : Prop :=
  ∃ pool state' pool',
    state !! poolAddressOf pid = Some pool
    ∧ processLog vaultDecoder state log = Some state'
    ∧ state' !! poolAddressOf pid = Some pool'
    ∧ balanceOf pool' (Str.toLowerCase tin)
      = (fun b => b + ain) <$> balanceOf pool (Str.toLowerCase tin)
    ∧ balanceOf pool' (Str.toLowerCase tout)
      = (fun b => b - aout) <$> balanceOf pool (Str.toLowerCase tout)
    ∧ (∀ t, t ≠ Str.toLowerCase tin → t ≠ Str.toLowerCase tout →
            tokens pool' !! t = tokens pool !! t)
    ∧ (∀ a, a ≠ poolAddressOf pid → state' !! a = state !! a).

(** The BalanceChanged rule read for every decoded event addressed to a
    tracked pool, without a condition on the listed tokens. *)
Definition BalanceChangedRule (state : PoolStateMap) (log : Log)
    (pid : string) (ts : list string) (ds fs : list Z) : Prop :=
  ∃ pool state' pool',
    state !! poolAddressOf pid = Some pool
    ∧ processLog vaultDecoder state log = Some state'
    ∧ state' !! poolAddressOf pid = Some pool'
    ∧ (∀ i t d f, ts !! i = Some t → ds !! i = Some d → fs !! i = Some f →
          balanceOf pool' (Str.toLowerCase t)
          = (fun b => b + (d - f)) <$> balanceOf pool (Str.toLowerCase t))
    ∧ (∀ t, t ∉ map Str.toLowerCase ts → tokens pool' !! t = tokens pool !! t)
    ∧ (∀ a, a ≠ poolAddressOf pid → state' !! a = state !! a).

(** A log that cannot be parsed, or whose application throws. *)
Inductive CannotApply (state : PoolStateMap) (log : Log) : Prop :=
| DecodeFails :
    vaultDecoder log = Abrupt → CannotApply state log
| NoPoolId event :
    vaultDecoder log = Normal event →
    is_Some (handlers (Log := Log) !! name event) →
    poolId (args event) = None →
    CannotApply state log
| HandlerThrows event handler pid pool :
    vaultDecoder log = Normal event →
    handlers !! name event = Some handler →
    poolId (args event) = Some pid →
    state !! poolAddressOf pid = Some pool →
    snd (handler event log pool) = Abrupt →
    CannotApply state log.

End Claims.

(** The height-instrumented run of the cache: an update tags what it stores
    with the block number it is called with. *)
Section TaggedCache.
Context {V : Type}.

Definition tag (bn : Z) (ps : gmap string V) : gmap string (V * Z) :=
  (fun v => (v, bn)) <$> ps.

Definition runCallTagged (c : PoolStateCache (V * Z)) (call : CacheCall V)
  : PoolStateCache (V * Z) :=
  match call with
  | CallGet bn => fst (getNonEventPoolStateCache bn c)
  | CallUpdate ps bn => fst (updateNonEventPoolStateCache (tag bn ps) bn c)
  end.

Definition runCallsTagged (calls : list (CacheCall V)) (c : PoolStateCache (V * Z))
  : PoolStateCache (V * Z) :=
  foldl runCallTagged c calls.

Definition erase (c : PoolStateCache (V * Z)) : PoolStateCache V :=
  mkPoolStateCache (blockNumber c) (fst <$> poolState c).

(** Every entry was stored at the block number the cache records. *)
Definition singleHeight (c : PoolStateCache (V * Z)) : Prop :=
  ∀ k v h, poolState c !! k = Some (v, h) → h = blockNumber c.

End TaggedCache.

(** ** A concrete deployment, for the scenarios *)

Module Scenario.

Definition tok (b : Z) : TokenState := mkTokenState b None None.

Definition P1 : string := "0x1111111111111111111111111111111111111111".
Definition P2 : string := "0x2222222222222222222222222222222222222222".
Definition P1id : string :=
  "0x1111111111111111111111111111111111111111000200000000000000000001".
Definition P2id : string :=
  "0x2222222222222222222222222222222222222222000000000000000000000002".
Definition tA : string := "0xaaaaaaaaaaaaaaaaaaaaaaaaaaaaaaaaaaaaaaaa".
Definition tB : string := "0xbbbbbbbbbbbbbbbbbbbbbbbbbbbbbbbbbbbbbbbb".
Definition tC : string := "0xcccccccccccccccccccccccccccccccccccccccc".

Definition pool1 : PoolState :=
  mkPoolState (<[tA := tok 1000]> (<[tB := tok 2000]> ∅)) 3 None.
Definition pool2 : PoolState :=
  mkPoolState (<[tA := tok 5000]> (<[tB := tok 5000]> ∅)) 1 (Some 100).

(** P1 (Weighted, A/B, 1000/2000) and P2 (Stable, A/B, 5000/5000). *)
Definition snapshot : PoolStateMap := <[P1 := pool1]> (<[P2 := pool2]> ∅).

(** Logs that are already decoded. *)
Definition decoder (log : LogDescription) : completion LogDescription := Normal log.

Definition descriptor (id address poolType : string) : SubgraphPoolBase.t :=
  SubgraphPoolBase.mk id address poolType
    [SubgraphToken.mk tA 2 None; SubgraphToken.mk tB 2 None] 0 0.

Definition allPools : list SubgraphPoolBase.t :=
  [descriptor P1id P1 "Weighted"; descriptor P2id P2 "Stable"].

Definition tokenA : Token.t := Token.mk tA 2 (Some "A"%string).
Definition tokenB : Token.t := Token.mk tB 2 (Some "B"%string).

(** A stand-in strategy: pair data are the two balances, an amount is
    accepted up to the balance of the token sold, and the price follows the
    constant product. *)
Definition productPool : BasePool (Z * Z) :=
  mkBasePool (Z * Z)
    (fun pool poolStates from to _ =>
       ps ← defined (poolStates !! Str.toLowerCase (SubgraphPoolBase.address pool));
       a ← defined (tokens ps !! Str.toLowerCase from);
       b ← defined (tokens ps !! Str.toLowerCase to);
       Normal (balance a, balance b))
    (fun amounts unitVolume side pd =>
       Normal (forallb (fun a => a <=? fst pd) amounts))
    (fun amounts pd => Normal (map (fun a => snd pd * a / (fst pd + a)) amounts))
    (fun _ => 100000).

(** The chain holds the reserves of the snapshot at every height. *)
Definition getOnChainState (ps : list SubgraphPoolBase.t) (bn : Z)
  : completion PoolStateMap :=
  Normal (list_to_map
            (omap (fun p =>
                     let a := Str.toLowerCase (SubgraphPoolBase.address p) in
                     (fun s => (a, s)) <$> snapshot !! a) ps)).

Definition quote (getState : Z -> option PoolStateMap)
    (eventDisabledPools : list string) (amounts : list Z) :=
  getPricesVolume "BalancerV2" (fun t => t) allPools ∅ (fun _ => productPool)
    getState getOnChainState eventDisabledPools
    tokenA tokenB amounts SELL 100 None initialCache.

(** A virtual boosted group over two linear pools L1 (main token A) and L2
    (main token B), and the synthetic descriptor that stands for it. *)
Definition P3 : string := "0x3333333333333333333333333333333333333333".
Definition P3id : string :=
  "0x3333333333333333333333333333333333333333000000000000000000000003".
Definition L1 : string := "0x4444444444444444444444444444444444444444".
Definition L2 : string := "0x5555555555555555555555555555555555555555".

Definition virtualPools : BoostedPools :=
  <[P3id := BoostedPool.mk [SubgraphMainToken.mk tA 2 L1; SubgraphMainToken.mk tB 2 L2]
              P3]> ∅.

Definition virtualDescriptor : SubgraphPoolBase.t :=
  SubgraphPoolBase.mk (P3id +:+ "virtualboosted") P3 "VirtualBoosted"
    [SubgraphToken.mk tA 2 (Some L1); SubgraphToken.mk tB 2 (Some L2)] 0 0.


(** The store that holds the two pools, and a snapshot pointing into it. *)
Definition store0 : Heap.store := [pool1; pool2].
Definition refs : Heap.PoolStateMapRef := <[P1 := 0%nat]> (<[P2 := 1%nat]> ∅).

(** Two updates at height 5, a read at 5, a read at 6, an update at 7. *)
Definition calls : list (CacheCall PoolState) :=
  [ CallUpdate (<[P1 := pool1]> ∅) 5; CallGet 5; CallUpdate (<[P2 := pool2]> ∅) 5;
    CallGet 6; CallUpdate (<[P2 := pool2]> ∅) 7 ].

(** The quote for A to B over [1; 100; 500] at block 100 from a fresh
    cache, with P1 in the disabled set although the snapshot holds it. *)
Definition quoteDisabled :=
  quote (fun _ => Some snapshot) [P1] [1; 100; 500].

(** The same quote when the subscriber has no snapshot for the block. *)
Definition quoteNoSnapshot :=
  quote (fun _ => None) [] [1; 100; 500].

(** The quote for A to B over [1; 100; 5000] with P1 disabled: 5000 is more
    than P1 holds of A. *)
Definition quoteDisabledBeyond :=
  quote (fun _ => Some snapshot) [P1] [1; 100; 5000].

(** The quote without a snapshot over a chain of one's choice. *)
Definition quoteWithChain
    (chain : list SubgraphPoolBase.t -> Z -> completion PoolStateMap) :=
  getPricesVolume "BalancerV2" (fun t => t) allPools ∅ (fun _ => productPool)
    (fun _ => None) chain [] tokenA tokenB [1; 100; 500] SELL 100 None initialCache.

(** A chain that cannot be read, and one that answers without a state. *)
Definition deadChain (ps : list SubgraphPoolBase.t) (bn : Z)
  : completion PoolStateMap := Abrupt.
Definition emptyChain (ps : list SubgraphPoolBase.t) (bn : Z)
  : completion PoolStateMap := Normal ∅.

End Scenario.

(** * Further operations of the exchange *)

(** ** Building the swap parameters *)

(** [s.includes(sub)] *)
Fixpoint includesSubstring (sub s : string) : bool :=
  if String.prefix sub s then true
  else match s with
       | EmptyString => false
       | String _ s' => includesSubstring sub s'
       end.

(** A JavaScript array of strings in which a slot may hold [undefined]
    ([None]), as [push] of an [undefined] value leaves it. *)
Abbreviation Assets := (list (option string)).

(** [arr[i]] for a number [i] that is an integer: [undefined] outside the
    array. *)
Definition at_index (arr : Assets) (i : Z) : option string :=
  if decide (0 ≤ i)
  then match arr !! Z.to_nat i with Some x => x | None => None end
  else None.

(** The position of the first element strictly equal to [x]. *)
Fixpoint firstIndex (x : option string) (l : Assets) : option nat :=
  match l with
  | [] => None
  | y :: l' => if decide (y = x) then Some 0%nat else S <$> firstIndex x l'
  end.

(** [arr.indexOf(x)]: -1 when there is none. *)
Definition indexOf (x : option string) (l : Assets) : Z :=
  match firstIndex x l with
  | Some n => Z.of_nat n
  | None => -1
  end.

(** [updateSwapAsset]: the array [currentAssets] as the call leaves it, and
    the index returned. *)
Definition updateSwapAsset (tokenIndex : Z) (swapAssets currentAssets : Assets)
  : Assets * Z :=
  let token := at_index swapAssets tokenIndex in
  let currentIndex := indexOf token currentAssets in
  if decide (currentIndex = -1)
  then let currentAssets' := currentAssets ++ [token] in
       (currentAssets', Z.of_nat (length currentAssets') - 1)
  else (currentAssets, currentIndex).

(** An element of the [swaps] array of a batch swap (the object literal of
    [getBalancerParam] and the ABI struct of [getAdapterParam]). *)
Module BalancerSwap.
Record t : Type := mk {
  poolId : string;
  assetInIndex : Z;
  assetOutIndex : Z;
  amount : string;
  userData : string
}.
End BalancerSwap.

(** Modelled from the spec: [SwapData] of [./VirtualBoostedPool], which is
    not part of the sources at hand: the hops of a path through a virtual
    pool and the asset list their indices refer to. *)
Module SwapData.
Record t : Type := mk {
  swaps : list BalancerSwap.t;
  assets : Assets
}.
End SwapData.

(** The callback of [swapData.swaps.forEach] in [updateSwapAssets]. *)
Definition updateSwap (swapAssets currentAssets : Assets) (swap : BalancerSwap.t)
  : Assets * BalancerSwap.t :=
  let '(currentAssets1, assetInIndex) :=
    updateSwapAsset (BalancerSwap.assetInIndex swap) swapAssets currentAssets in
  let '(currentAssets2, assetOutIndex) :=
    updateSwapAsset (BalancerSwap.assetOutIndex swap) swapAssets currentAssets1 in
  (currentAssets2,
   BalancerSwap.mk (BalancerSwap.poolId swap) assetInIndex assetOutIndex
     (BalancerSwap.amount swap) (BalancerSwap.userData swap)).

Fixpoint updateSwaps (swapAssets currentAssets : Assets) (swaps : list BalancerSwap.t)
  : Assets * list BalancerSwap.t :=
  match swaps with
  | [] => (currentAssets, [])
  | swap :: rest =>
      let '(currentAssets1, swap') := updateSwap swapAssets currentAssets swap in
      let '(currentAssets2, rest') := updateSwaps swapAssets currentAssets1 rest in
      (currentAssets2, swap' :: rest')
  end.

(** [updateSwapAssets]: [currentAssets] as the call leaves it and the swap
    data it returns (the object it was given, with the indices rewritten). *)
Definition updateSwapAssets (swapData : SwapData.t) (currentAssets : Assets)
  : Assets * SwapData.t :=
  let '(currentAssets', swaps') :=
    updateSwaps (SwapData.assets swapData) currentAssets (SwapData.swaps swapData) in
  (currentAssets', SwapData.mk swaps' (SwapData.assets swapData)).

(** Modelled from the spec: [SwapTypes] of [./types], the kind of a batch
    swap. *)
Inductive SwapTypes : Type := SwapExactIn | SwapExactOut.

(** An element of [data.swaps] ([OptimizedBalancerV2Data], of [./types]): the
    two fields [getBalancerParam] reads. *)
Module OptimizedSwap.
Record t : Type := mk {
  poolId : string;
  amount : string
}.
End OptimizedSwap.

Module OptimizedBalancerV2Data.
Record t : Type := mk { swaps : list OptimizedSwap.t }.
End OptimizedBalancerV2Data.

Module Funds.
Record t : Type := mk {
  sender : string;
  recipient : string;
  fromInternalBalance : bool;
  toInternalBalance : bool
}.
End Funds.

(** The tuple [BalancerParam], by position. *)
Module BalancerParam.
Record t : Type := mk {
  kind : SwapTypes;
  swaps : list BalancerSwap.t;
  assets : list string;
  funds : Funds.t;
  limits : list string;
  deadline : string
}.
End BalancerParam.

(** What [getAdapterParam] returns. *)
Module AdapterExchangeParam.
Record t : Type := mk {
  targetExchange : string;
  payload : string;
  networkFee : string
}.
End AdapterExchangeParam.

(** Modelled from the spec: the static [VirtualBoostedPool.poolType] of
    [./VirtualBoostedPool], which is not part of the sources at hand: the
    category tag of a virtual pool. *)
Definition VirtualBoostedPool_poolType : string := "VirtualBoosted".

Section SwapParams.
(** The constants of [../../constants], which is not part of the sources at
    hand. *)
Variables ETHER_ADDRESS NULL_ADDRESS MAX_INT MAX_UINT : string.
(** [this.augustusAddress] and [this.vaultAddress]. *)
Variables augustusAddress vaultAddress : string.
Variable virtualBoostedPools : BoostedPools.
(** [VirtualBoostedPool.getSwapData], defined outside the sources at hand; it
    may throw. *)
Variable getSwapData :
  string -> string -> string -> string -> BoostedPools -> completion SwapData.t.
(** [this.abiCoder.encodeParameter] at the struct type of [getAdapterParam],
    applied to the five fields it is given. *)
Variable encodeParameter :
  list BalancerSwap.t -> list string -> Funds.t -> list string -> string -> string.

(** The callback of [data.swaps.forEach], on the local arrays [assets] and
    [swaps]. *)
Definition addSwap (srcToken destToken : string)
    (acc : Assets * list BalancerSwap.t) (swap : OptimizedSwap.t)
  : completion (Assets * list BalancerSwap.t) :=
  let '(assets, swaps) := acc in
  if includesSubstring (Str.toLowerCase VirtualBoostedPool_poolType)
       (OptimizedSwap.poolId swap)
  then
    swapData ← getSwapData srcToken destToken (OptimizedSwap.poolId swap)
                 (OptimizedSwap.amount swap) virtualBoostedPools;
    let '(assets', updatedSwaps) := updateSwapAssets swapData assets in
    Normal (assets', swaps ++ SwapData.swaps updatedSwaps)
  else
    Normal (assets,
            swaps ++ [BalancerSwap.mk (OptimizedSwap.poolId swap) 0 1
                        (OptimizedSwap.amount swap) "0x"]).

Fixpoint addSwaps (srcToken destToken : string)
    (acc : Assets * list BalancerSwap.t) (swaps : list OptimizedSwap.t)
  : completion (Assets * list BalancerSwap.t) :=
  match swaps with
  | [] => Normal acc
  | swap :: rest =>
      acc' ← addSwap srcToken destToken acc swap;
      addSwaps srcToken destToken acc' rest
  end.

(** The callback of [assets.map]: [toLowerCase] of [undefined] throws. *)
Definition etherToNull (t : option string) : completion string :=
  t ← defined t;
  Normal (if decide (Str.toLowerCase t = Str.toLowerCase ETHER_ADDRESS)
          then NULL_ADDRESS else t).

Fixpoint mapAssets (assets : Assets) : completion (list string) :=
  match assets with
  | [] => Normal []
  | t :: rest =>
      t' ← etherToNull t;
      rest' ← mapAssets rest;
      Normal (t' :: rest')
  end.

Definition getBalancerParam (srcToken destToken srcAmount destAmount : string)
    (data : OptimizedBalancerV2Data.t) (side : SwapSide)
  : completion BalancerParam.t :=
  '(assets, swaps) ← addSwaps srcToken destToken
                       ([Some srcToken; Some destToken], [])
                       (OptimizedBalancerV2Data.swaps data);
  assets ← mapAssets assets;
  let limits := replicate (length assets) MAX_INT in
  let funds := Funds.mk augustusAddress augustusAddress false false in
  Normal (BalancerParam.mk
            (if decide (side = SELL) then SwapExactIn else SwapExactOut)
            swaps assets funds limits MAX_UINT).

Definition getAdapterParam (srcToken destToken srcAmount destAmount : string)
    (data : OptimizedBalancerV2Data.t) (side : SwapSide)
  : completion AdapterExchangeParam.t :=
  params ← getBalancerParam srcToken destToken srcAmount destAmount data side;
  let payload :=
    encodeParameter (BalancerParam.swaps params) (BalancerParam.assets params)
      (BalancerParam.funds params) (BalancerParam.limits params)
      (BalancerParam.deadline params) in
  Normal (AdapterExchangeParam.mk vaultAddress payload "0").

End SwapParams.

(** ** Reading pool states from the chain *)

(** [_.chunk(l, size)] for a positive [size]: consecutive groups of [size]
    elements, the last one with what remains.  [fuel] bounds the number of
    groups. *)
Fixpoint chunkFuel {A} (fuel size : nat) (l : list A) : list (list A) :=
  match fuel with
  | O => []
  | S fuel' =>
      match l with
      | [] => []
      | _ => take size l :: chunkFuel fuel' size (drop size l)
      end
  end.

Definition chunk {A} (size : nat) (l : list A) : list (list A) :=
  chunkFuel (length l) size l.

(** [Array.prototype.map] with a callback that may throw, and [Promise.all]
    over calls that may reject: the results in order, or the first failure. *)
Fixpoint mapCompletion {A B} (f : A -> completion B) (l : list A)
  : completion (list B) :=
  match l with
  | [] => Normal []
  | x :: rest =>
      y ← f x;
      ys ← mapCompletion f rest;
      Normal (y :: ys)
  end.

(** The part of a pool-type strategy that [getOnChainState] uses: the read
    calls for a pool, and the decoding of their results from a cursor on,
    which returns the state it decoded and the next cursor.  Both are defined
    outside the sources at hand and may throw. *)
Record OnChainPool (Call Result : Type) : Type := mkOnChainPool {
  getOnChainCalls : SubgraphPoolBase.t -> BoostedPools -> completion (list Call);
  decodeOnChainCalls :
    SubgraphPoolBase.t -> list Result -> Z -> BoostedPools ->
    completion (PoolStateMap * Z)
}.
Arguments getOnChainCalls {_ _} _.
Arguments decodeOnChainCalls {_ _} _.

Section OnChainState.
Context {Call Result : Type}.
(** [this.pools], keyed by pool type. *)
Variable onChainPools : string -> OnChainPool Call Result.
Variable virtualBoostedPools : BoostedPools.
(** [this.dexHelper.multiContract.methods.tryAggregate(false, calls)
    .call({}, blockNumber)] *)
Variable tryAggregate : list Call -> Z -> completion (list Result).

(** The callback of [subgraphPoolBase.map]. *)
Definition poolCalls (pool : SubgraphPoolBase.t) : completion (list Call) :=
  if negb (isSupportedPool (SubgraphPoolBase.poolType pool)) then Normal []
  else getOnChainCalls (onChainPools (SubgraphPoolBase.poolType pool)) pool
         virtualBoostedPools.

(** The callback of [subgraphPoolBase.reduce], on the accumulator and the
    cursor [i]. *)
Definition decodePool (returnData : list Result) (st : PoolStateMap * Z)
    (pool : SubgraphPoolBase.t) : completion (PoolStateMap * Z) :=
  let '(acc, i) := st in
  if negb (isSupportedPool (SubgraphPoolBase.poolType pool)) then Normal (acc, i)
  else
    '(decoded, newIndex) ←
      decodeOnChainCalls (onChainPools (SubgraphPoolBase.poolType pool)) pool
        returnData i virtualBoostedPools;
    Normal (decoded ∪ acc, newIndex).

Fixpoint decodePools (returnData : list Result) (st : PoolStateMap * Z)
    (pools : list SubgraphPoolBase.t) : completion (PoolStateMap * Z) :=
  match pools with
  | [] => Normal st
  | pool :: rest =>
      st' ← decodePool returnData st pool;
      decodePools returnData st' rest
  end.

Definition getOnChainState (subgraphPoolBase : list SubgraphPoolBase.t)
    (blockNumber' : Z) : completion PoolStateMap :=
  calls ← mapCompletion poolCalls subgraphPoolBase;
  let multiCallData := concat calls in
  let slicedMultiCallData := chunk 500 multiCallData in
  results ← mapCompletion (fun _multiCallData => tryAggregate _multiCallData blockNumber')
              slicedMultiCallData;
  let returnData := concat results in
  '(onChainStateMap, _) ← decodePools returnData (∅, 0) subgraphPoolBase;
  Normal onChainStateMap.

End OnChainState.

(** ** Generating the first snapshot *)

Definition eventSupportedPoolTypes : list string :=
  [ "Stable"; "Weighted"; "LiquidityBootstrapping"; "Investment" ]%string.

(** The list literal holds commented-out entries only. *)
Definition eventRemovedPools : list string := map Str.toLowerCase [].

(** The two fields of the event pool that [generateState] assigns. *)
Module EventPoolFields.
Record t : Type := mk {
  allPools : list SubgraphPoolBase.t;
  virtualBoostedPools : BoostedPools
}.
End EventPoolFields.

Section GenerateState.
Context {Call Result : Type}.
Variable onChainPools : string -> OnChainPool Call Result.
Variable tryAggregate : list Call -> Z -> completion (list Result).
(** [this.fetchAllSubgraphPools()]: the pool list from the cache or the
    subgraph; it throws when the subgraph gives none. *)
Variable fetchAllSubgraphPools : completion (list SubgraphPoolBase.t).
(** [VirtualBoostedPool.createPools], defined outside the sources at hand:
    the [dictionary] and the [subgraph] descriptors of the virtual pools. *)
Variable createPools :
  list SubgraphPoolBase.t -> completion (BoostedPools * list SubgraphPoolBase.t).

Definition isEventSupported (pool : SubgraphPoolBase.t) : bool :=
  bool_decide (SubgraphPoolBase.poolType pool ∈ eventSupportedPoolTypes)
  && negb (bool_decide (Str.toLowerCase (SubgraphPoolBase.address pool)
                        ∈ eventRemovedPools)).

(** [generateState]: the fields as the call leaves them (they keep what was
    assigned before an exception), and [{blockNumber, state}]. *)
Definition generateState (this : EventPoolFields.t) (blockNumber' : Z)
  : EventPoolFields.t * completion (Z * PoolStateMap) :=
  match fetchAllSubgraphPools with
  | Abrupt => (this, Abrupt)
  | Normal subgraphPools =>
      match createPools subgraphPools with
      | Abrupt => (this, Abrupt)
      | Normal (dictionary, subgraph) =>
          let allPools := subgraph ++ subgraphPools in
          let this' := EventPoolFields.mk allPools dictionary in
          let eventSupportedPools := List.filter isEventSupported allPools in
          (this',
           allPoolsLatestState ←
             getOnChainState onChainPools dictionary tryAggregate
               eventSupportedPools blockNumber';
           Normal (blockNumber', allPoolsLatestState))
      end
  end.

End GenerateState.

(** ** The pools with most liquidity for a token *)

Module ConnectorToken.
Record t : Type := mk { decimals : nat; address : string }.
End ConnectorToken.

(** What [getTopPoolsForToken] returns per pool.  [liquidityUSD] is a
    floating-point number, of a type [F] left open. *)
Module PoolLiquidity.
Record t (F : Type) : Type := mk {
  exchange : string;
  address : string;
  connectorTokens : list ConnectorToken.t;
  liquidityUSD : F
}.
Arguments mk {F} _ _ _ _.
Arguments exchange {F} _.
Arguments address {F} _.
Arguments connectorTokens {F} _.
Arguments liquidityUSD {F} _.
End PoolLiquidity.

(** [l.slice(0, count)] for an integer [count]: a negative [count] counts
    from the end. *)
Definition sliceTo {A} (count : Z) (l : list A) : list A :=
  if decide (0 ≤ count) then take (Z.to_nat count) l
  else take (length l - Z.to_nat (- count)) l.

Section TopPools.
Context {F : Type}.
Variable dexKey : string.
(** [parseFloat(pool.totalLiquidity)] *)
Variable liquidityOf : SubgraphPoolBase.t -> F.
(** [this.updatePoolState()]: the pool list it assigns to [this.allPools], or
    the exception it throws when the subgraph gives none. *)
Variable updatePoolState : completion (list SubgraphPoolBase.t).

(** The callback of [pool.tokens.reduce]. *)
Definition connectorTokensOf (tokenAddress : string) (pool : SubgraphPoolBase.t)
  : list ConnectorToken.t :=
  foldl (fun acc token =>
           if decide (Str.toLowerCase (SubgraphToken.address token)
                      ≠ Str.toLowerCase tokenAddress)
           then acc ++ [ConnectorToken.mk (SubgraphToken.decimals token)
                          (Str.toLowerCase (SubgraphToken.address token))]
           else acc)
        [] (SubgraphPoolBase.tokens pool).

Definition poolLiquidity (tokenAddress : string) (pool : SubgraphPoolBase.t)
  : PoolLiquidity.t F :=
  PoolLiquidity.mk dexKey (Str.toLowerCase (SubgraphPoolBase.address pool))
    (connectorTokensOf tokenAddress pool) (liquidityOf pool).

(** [getTopPoolsForToken]: [this.allPools] as the call leaves it, and the
    list returned. *)
Definition getTopPoolsForToken (allPools : option (list SubgraphPoolBase.t))
    (tokenAddress : string) (count : Z)
  : option (list SubgraphPoolBase.t) * completion (list (PoolLiquidity.t F)) :=
  let loaded :=
    match allPools with
    | Some l => Normal l
    | None => updatePoolState
    end in
  match loaded with
  | Abrupt => (allPools, Abrupt)
  | Normal l =>
      let poolsWithToken := sliceTo count (List.filter (hasToken tokenAddress) l) in
      (Some l, Normal (map (poolLiquidity tokenAddress) poolsWithToken))
  end.

End TopPools.

(** ** Vocabulary for the further properties *)

(** The swap [s'] is [s] re-indexed into the asset list [assets']: the same
    pool, amount and user data, and indices that are valid in [assets'] and
    point there at the tokens the indices of [s] point at in [swapAssets]. *)
Definition reindexed (swapAssets assets' : Assets) (s s' : BalancerSwap.t) : Prop :=
  BalancerSwap.poolId s' = BalancerSwap.poolId s
  ∧ BalancerSwap.amount s' = BalancerSwap.amount s
  ∧ BalancerSwap.userData s' = BalancerSwap.userData s
  ∧ 0 ≤ BalancerSwap.assetInIndex s' < Z.of_nat (length assets')
  ∧ assets' !! Z.to_nat (BalancerSwap.assetInIndex s')
    = Some (at_index swapAssets (BalancerSwap.assetInIndex s))
  ∧ 0 ≤ BalancerSwap.assetOutIndex s' < Z.of_nat (length assets')
  ∧ assets' !! Z.to_nat (BalancerSwap.assetOutIndex s')
    = Some (at_index swapAssets (BalancerSwap.assetOutIndex s)).

(** The asset the vault is given for a token: the null address for the
    ether placeholder, compared without regard to case. *)
Definition nullForEther (ETHER_ADDRESS NULL_ADDRESS t : string) : string :=
  if decide (Str.toLowerCase t = Str.toLowerCase ETHER_ADDRESS)
  then NULL_ADDRESS else t.

(** The swap [getBalancerParam] makes of a swap through a pool that is not
    virtual. *)
Definition directSwap (swap : OptimizedSwap.t) : BalancerSwap.t :=
  BalancerSwap.mk (OptimizedSwap.poolId swap) 0 1 (OptimizedSwap.amount swap) "0x".

(** Both indices of a swap are positions of [assets]. *)
Definition indexesInto {A} (assets : list A) (s : BalancerSwap.t) : Prop :=
  0 ≤ BalancerSwap.assetInIndex s < Z.of_nat (length assets)
  ∧ 0 ≤ BalancerSwap.assetOutIndex s < Z.of_nat (length assets).

(** The hop [h'] of the parameters is the hop [h] of the swap data: the same
    pool, amount and user data, trading in [assets'] the tokens [h] trades in
    [swapAssets], the ether placeholder replaced. *)
Definition sameHop (ETHER_ADDRESS NULL_ADDRESS : string) (swapAssets : Assets)
    (assets' : list string) (h h' : BalancerSwap.t) : Prop :=
  BalancerSwap.poolId h' = BalancerSwap.poolId h
  ∧ BalancerSwap.amount h' = BalancerSwap.amount h
  ∧ BalancerSwap.userData h' = BalancerSwap.userData h
  ∧ ∃ tin tout,
      at_index swapAssets (BalancerSwap.assetInIndex h) = Some tin
      ∧ at_index swapAssets (BalancerSwap.assetOutIndex h) = Some tout
      ∧ assets' !! Z.to_nat (BalancerSwap.assetInIndex h')
        = Some (nullForEther ETHER_ADDRESS NULL_ADDRESS tin)
      ∧ assets' !! Z.to_nat (BalancerSwap.assetOutIndex h')
        = Some (nullForEther ETHER_ADDRESS NULL_ADDRESS tout).

(** ** What a log does to a snapshot *)

(** The balance movements a Swap event asks for, in the order the handler
    makes them; [Abrupt] when an argument is missing. *)
Definition swapMoves (event : LogDescription) : completion (list (string * Z)) :=
  tin ← defined (Str.toLowerCase <$> tokenIn (args event));
  ain ← defined (amountIn (args event));
  tout ← defined (Str.toLowerCase <$> tokenOut (args event));
  aout ← defined (amountOut (args event));
  Normal [(tin, ain); (tout, - aout)].

(** The movements of a PoolBalanceChanged event from position [i] on: delta
    minus fee for each listed token. *)
Fixpoint listedMoves (i : nat) (ts : list string) (ds fs : list Z)
  : completion (list (string * Z)) :=
  match ts with
  | [] => Normal []
  | t :: ts' =>
      d ← defined (ds !! i);
      f ← defined (fs !! i);
      rest ← listedMoves (S i) ts' ds fs;
      Normal ((t, d - f) :: rest)
  end.

Definition balanceChangedMoves (event : LogDescription)
  : completion (list (string * Z)) :=
  ts ← defined (map Str.toLowerCase <$> tokensArg (args event));
  ds ← defined (deltas (args event));
  fs ← defined (protocolFeeAmounts (args event));
  listedMoves 0 ts ds fs.

(** The movements of an event by its name; none for a name without a
    handler. *)
Definition eventMoves (event : LogDescription)
  : option (completion (list (string * Z))) :=
  if decide (name event = "PoolBalanceChanged"%string)
  then Some (balanceChangedMoves event)
  else if decide (name event = "Swap"%string)
       then Some (swapMoves event)
       else None.

(** Making the movements on a pool, one after the other: impossible when a
    token has no record. *)
Fixpoint creditMoves (moves : list (string * Z)) (pool : PoolState)
  : option PoolState :=
  match moves with
  | [] => Some pool
  | (t, d) :: rest =>
      ts ← tokens pool !! t;
      creditMoves rest (setTokens (<[t := credit d ts]> (tokens pool)) pool)
  end.

(** What the movements add up to on token [t]. *)
Fixpoint movesOn (t : string) (moves : list (string * Z)) : Z :=
  match moves with
  | [] => 0
  | (t', d) :: rest => (if decide (t = t') then d else 0) + movesOn t rest
  end.

(** What a log amounts to, whatever the snapshot: it is rejected, ignored,
    or credits the pool at an address. *)
Inductive LogEffect : Type :=
| Reject
| Ignore
| Credit (address : string) (moves : completion (list (string * Z))).

Definition logEffect {Log : Type} (vaultDecoder : Log -> completion LogDescription)
    (log : Log) : LogEffect :=
  match vaultDecoder log with
  | Abrupt => Reject
  | Normal event =>
      match eventMoves event with
      | None => Ignore
      | Some moves =>
          match poolId (args event) with
          | None => Reject
          | Some pid => Credit (poolAddressOf pid) moves
          end
      end
  end.

Definition runEffect (e : LogEffect) (state : PoolStateMap) : option PoolStateMap :=
  match e with
  | Reject => None
  | Ignore => Some state
  | Credit a moves =>
      match state !! a with
      | None => Some state
      | Some pool =>
          match moves with
          | Abrupt => None
          | Normal mv => (fun pool' => <[a := pool']> state) <$> creditMoves mv pool
          end
      end
  end.

(** The completion of a handler run, with the pool it leaves when it
    returns. *)
Definition returned {A} (r : PoolState * completion A) : option PoolState :=
  match r with
  | (pool', Normal _) => Some pool'
  | (_, Abrupt) => None
  end.

(** Two token records that differ in balance at most. *)
Definition sameToken (ts ts' : TokenState) : Prop :=
  scalingFactor ts' = scalingFactor ts ∧ weight ts' = weight ts.

(** Two pools with the same scalars and the same tokens, whose records
    differ in balance at most. *)
Definition samePool (p p' : PoolState) : Prop :=
  swapFee p' = swapFee p ∧ amp p' = amp p
  ∧ ∀ t, option_Forall2 sameToken (tokens p !! t) (tokens p' !! t).

(** Two snapshots of the same pools, pool by pool as [samePool]. *)
Definition sameShape (s s' : PoolStateMap) : Prop :=
  ∀ a, option_Forall2 samePool (s !! a) (s' !! a).

(** ** Further scenario

    The constants, a swap-data builder and pool-type strategies to run the
    further operations on the pools of [Scenario]. *)
Module Examples.

(** A strategy with one read per pool, the pool address; the chain answers
    a read with the length of the address, and a pool decodes the answers to
    its reads into a state with their sum as swap fee. *)
Definition readsOf (pool : SubgraphPoolBase.t) : list string :=
  [SubgraphPoolBase.address pool].

Definition answer (call : string) : Z := Z.of_nat (String.length call).

Definition decodeReads (pool : SubgraphPoolBase.t) (rs : list Z) : PoolStateMap :=
  {[ Str.toLowerCase (SubgraphPoolBase.address pool)
     := mkPoolState ∅ (foldr Z.add 0 rs) None ]}.

Definition strategy (_ : string) : OnChainPool string Z :=
  mkOnChainPool string Z
    (fun pool _ => Normal (readsOf pool))
    (fun pool rd i _ =>
       Normal (decodeReads pool (take (length (readsOf pool)) (drop (Z.to_nat i) rd)),
               i + Z.of_nat (length (readsOf pool)))).

Definition multicall (calls : list string) (bn : Z) : completion (list Z) :=
  Normal (map answer calls).

(** An executor that rejects an empty batch and one of more than 500 calls. *)
Definition boundedMulticall (calls : list string) (bn : Z) : completion (list Z) :=
  if decide (0 < length calls ≤ 500)%nat then Normal (map answer calls) else Abrupt.

(** An executor that always fails. *)
Definition deadMulticall (calls : list string) (bn : Z) : completion (list Z) :=
  Abrupt.

(** [getOnChainState] with these strategies and the virtual pools of
    [Scenario]. *)
Definition readChain (tryAggregate : list string -> Z -> completion (list Z))
    (pools : list SubgraphPoolBase.t) (bn : Z) : completion PoolStateMap :=
  getOnChainState strategy Scenario.virtualPools tryAggregate pools bn.

Import Scenario.

Definition ETHER : string := "0xEeeeeEeeeEeEeeEeEeEeeEEEeeeeEeeeeeeeEEeE".
Definition NULL : string := "0x0000000000000000000000000000000000000000".
Definition MAX_INT : string := "max_int".
Definition MAX_UINT : string := "max_uint".
Definition augustus : string := "0xdef171fe48cf0115b1d80b88dc8eab59176fee57".

(** The linear pool tokens of the virtual pool P3. *)
Definition bbA : string := "0x4444444444444444444444444444444444444444".
Definition bbB : string := "0x5555555555555555555555555555555555555555".

(** A swap-data builder for paths through P3: into the linear pool of the
    source token, across the pool of linear tokens, out of the linear pool of
    the destination token. *)
Definition swapDataOf (src dest pid amount : string) (_ : BoostedPools)
  : completion SwapData.t :=
  Normal (SwapData.mk
            [ BalancerSwap.mk L1 0 1 amount "0x";
              BalancerSwap.mk P3 1 2 "0" "0x";
              BalancerSwap.mk L2 2 3 "0" "0x" ]
            [ Some src; Some bbA; Some bbB; Some dest ]).

Definition virtualId : string := P3id +:+ "virtualboosted".

(** 100 through P1 and 50 through the virtual pool. *)
Definition mixedData : OptimizedBalancerV2Data.t :=
  OptimizedBalancerV2Data.mk
    [ OptimizedSwap.mk P1id "100"; OptimizedSwap.mk virtualId "50" ].

(** 100 through P1 and 50 through P2. *)
Definition directData : OptimizedBalancerV2Data.t :=
  OptimizedBalancerV2Data.mk
    [ OptimizedSwap.mk P1id "100"; OptimizedSwap.mk P2id "50" ].

(** The parameters for ether to B over [mixedData]. *)
Definition param (data : OptimizedBalancerV2Data.t) (side : SwapSide)
  : completion BalancerParam.t :=
  getBalancerParam ETHER NULL MAX_INT MAX_UINT augustus virtualPools swapDataOf
    ETHER tB "150" "0" data side.

Definition mixedParam : BalancerParam.t :=
  BalancerParam.mk SwapExactIn
    [ BalancerSwap.mk P1id 0 1 "100" "0x";
      BalancerSwap.mk L1 0 2 "50" "0x";
      BalancerSwap.mk P3 2 3 "0" "0x";
      BalancerSwap.mk L2 3 1 "0" "0x" ]
    [ NULL; tB; bbA; bbB ]
    (Funds.mk augustus augustus false false)
    [ MAX_INT; MAX_INT; MAX_INT; MAX_INT ] MAX_UINT.

(** A pool of a type without a strategy. *)
Definition oddPool : SubgraphPoolBase.t := descriptor P3id P3 "Element".

Definition createPools (_ : list SubgraphPoolBase.t)
  : completion (BoostedPools * list SubgraphPoolBase.t) :=
  Normal (virtualPools, [virtualDescriptor]).

(** The three pools over A and B: the virtual one and the two of the
    subgraph. *)
Definition threePools : list SubgraphPoolBase.t := virtualDescriptor :: allPools.

(** The quote of [Scenario] with the subscriber's snapshot, nothing disabled. *)
Definition quoteSnapshot :=
  quote (fun _ => Some snapshot) [] [1; 100; 500].

(** 10 of A for 20 of B through P1, and the swap back. *)
Definition swapThere : LogDescription := SwapEvent P1id tA tB 10 20.
Definition swapBack : LogDescription := SwapEvent P1id tB tA 20 10.

Definition afterSwap : PoolStateMap :=
  <[P1 := mkPoolState (<[tA := tok 1010]> (<[tB := tok 1980]> ∅)) 3 None]>
    (<[P2 := pool2]> ∅).

(** [processLog] of the swap on the store of [Scenario]. *)
Definition storeSwap := Heap.processLog decoder store0 refs swapThere.

End Examples.

(** * Properties *)

(** ** The handlers *)

Lemma credit_zero ts : credit 0 ts = ts.
Proof. destruct ts. unfold credit, setBalance. simpl. f_equal. lia. Qed.

Lemma credit_credit d e ts : credit e (credit d ts) = credit (d + e) ts.
Proof. unfold credit, setBalance. simpl. f_equal. lia. Qed.

Lemma modifyBalance_add t f d pool ts :
  (∀ b, f b = b + d) →
  tokens pool !! t = Some ts →
  modifyBalance t f pool
  = (setTokens (<[t := credit d ts]> (tokens pool)) pool, Normal tt).
Proof. intros Hf H. unfold modifyBalance, credit. by rewrite H, Hf. Qed.

Lemma modifyBalance_absent t f pool :
  tokens pool !! t = None → modifyBalance t f pool = (pool, Abrupt).
Proof. intros H. unfold modifyBalance. by rewrite H. Qed.

(** After a credit to [t0], the record of any token is the old one credited
    by what landed on it. *)
Lemma lookup_credited (m : gmap string TokenState) t0 d ts t :
  m !! t0 = Some ts →
  <[t0 := credit d ts]> m !! t = credit (if decide (t = t0) then d else 0) <$> m !! t.
Proof.
  intros H. destruct (decide (t = t0)) as [->|Hne].
  - by rewrite lookup_insert_eq, H.
  - rewrite lookup_insert_ne by done.
    destruct (m !! t); simpl; [by rewrite credit_zero | done].
Qed.

Lemma listedDelta_notin t ts : ∀ i ds fs, t ∉ ts → listedDelta t i ts ds fs = 0.
Proof.
  induction ts as [|t0 ts IH]; intros i ds fs Hn; [done|].
  apply not_elem_of_cons in Hn as [Hne Hn]. simpl.
  rewrite decide_False by done. by rewrite IH.
Qed.

Lemma listedDelta_NoDup t ts : ∀ i j ds fs d f,
  NoDup ts → ts !! j = Some t →
  ds !! (i + j)%nat = Some d → fs !! (i + j)%nat = Some f →
  listedDelta t i ts ds fs = d - f.
Proof.
  induction ts as [|t0 ts IH]; intros i j ds fs d f Hnd Hj Hd Hf; [done|].
  apply NoDup_cons in Hnd as [Hn0 Hnd]. destruct j as [|j]; simpl in *.
  - injection Hj as ->. rewrite decide_True by done.
    rewrite Nat.add_0_r in Hd, Hf. rewrite Hd, Hf. simpl.
    rewrite listedDelta_notin by done. lia.
  - rewrite decide_False.
    + rewrite (IH (S i) j ds fs d f); try done;
        by replace (S i + j)%nat with (i + S j)%nat by lia.
    + intros ->. apply Hn0. by eapply list_elem_of_lookup_2.
Qed.

Section HandlerFacts.
Context {Log : Type}.
Implicit Types (log : Log) (pool : PoolState).

Lemma handlers_lookup (n : string) (h : LogDescription -> Log -> Mut PoolState unit) :
  handlers !! n = Some h ↔
  (n = "Swap"%string ∧ h = handleSwap)
  ∨ (n = "PoolBalanceChanged"%string ∧ h = handlePoolBalanceChanged).
Proof.
  unfold handlers. rewrite lookup_insert. case_decide as H1.
  - subst. split; [intros [= <-]; by right | intros [[? _]|[_ ->]]; done].
  - rewrite lookup_insert. case_decide as H2.
    + subst. split; [intros [= <-]; by left | intros [[_ ->]|[? _]]; done].
    + rewrite lookup_empty. split; [done | intros [[? _]|[? _]]; congruence].
Qed.

Lemma handlers_unrecognized (n : string) :
  n ≠ "Swap"%string → n ≠ "PoolBalanceChanged"%string →
  handlers (Log := Log) !! n = None.
Proof.
  intros H1 H2. destruct (handlers !! n) as [h|] eqn:E; [|done].
  apply handlers_lookup in E as [[? _]|[? _]]; congruence.
Qed.

(** [handleSwap] on a pool that has both tokens. *)
Lemma handleSwap_returns log pool pid tin tout ain aout :
  is_Some (tokens pool !! Str.toLowerCase tin) →
  is_Some (tokens pool !! Str.toLowerCase tout) →
  ∃ pool',
    handleSwap (SwapEvent pid tin tout ain aout) log pool = (pool', Normal tt)
    ∧ swapFee pool' = swapFee pool ∧ amp pool' = amp pool
    ∧ ∀ t, tokens pool' !! t
           = credit (swapDelta (Str.toLowerCase tin) (Str.toLowerCase tout) ain aout t)
               <$> tokens pool !! t.
Proof.
  intros [ti Hi] [to Ho].
  unfold handleSwap, SwapEvent, mut_bind, lift, defined. simpl.
  rewrite (modifyBalance_add _ _ ain _ _ (fun _ => eq_refl) Hi).
  set (pool1 := setTokens _ pool).
  assert (H1 : ∀ t, tokens pool1 !! t
                    = credit (if decide (t = Str.toLowerCase tin) then ain else 0)
                        <$> tokens pool !! t).
  { intros t. unfold pool1. simpl. by apply lookup_credited. }
  pose proof (H1 (Str.toLowerCase tout)) as Ho1. rewrite Ho in Ho1.
  cbn [fmap option_fmap option_map] in Ho1.
  rewrite (modifyBalance_add _ _ (- aout) _ _ (fun b => eq_sym (Z.add_opp_r b aout)) Ho1).
  eexists. split; [reflexivity|]. split; [done|]. split; [done|].
  intros t. simpl. rewrite (lookup_credited _ _ _ _ t Ho1), H1.
  destruct (tokens pool !! t) as [ts|]; simpl; [|done].
  rewrite credit_credit. unfold swapDelta.
  repeat case_decide; solve [done | by rewrite Z.add_opp_r | by rewrite Z.add_0_r, Z.sub_0_r
                            | by rewrite Z.add_0_l | by rewrite Z.sub_0_r].
Qed.

(** [handleSwap] on a pool that lacks one of the tokens. *)
Lemma handleSwap_throws log pool pid tin tout ain aout :
  tokens pool !! Str.toLowerCase tin = None
  ∨ tokens pool !! Str.toLowerCase tout = None →
  snd (handleSwap (SwapEvent pid tin tout ain aout) log pool) = Abrupt.
Proof.
  intros H.
  unfold handleSwap, SwapEvent, mut_bind, lift, defined. simpl.
  destruct (tokens pool !! Str.toLowerCase tin) as [ti|] eqn:Hi.
  - destruct H as [?|Ho]; [done|].
    rewrite (modifyBalance_add _ _ ain _ _ (fun _ => eq_refl) Hi).
    rewrite modifyBalance_absent; [done|].
    simpl. rewrite lookup_insert_ne; [done|]. intros E. rewrite E in Hi. congruence.
  - by rewrite modifyBalance_absent.
Qed.

(** The loop of [handlePoolBalanceChanged] on a pool that has every listed
    token, with a delta and a fee for each position. *)
Lemma forEachToken_returns ts : ∀ i ds fs pool,
  (∀ t, t ∈ ts → is_Some (tokens pool !! t)) →
  (i + length ts ≤ length ds)%nat →
  (i + length ts ≤ length fs)%nat →
  ∃ pool',
    forEachToken i ts ds fs pool = (pool', Normal tt)
    ∧ swapFee pool' = swapFee pool ∧ amp pool' = amp pool
    ∧ ∀ t, tokens pool' !! t = credit (listedDelta t i ts ds fs) <$> tokens pool !! t.
Proof.
  induction ts as [|t0 ts IH]; intros i ds fs pool Hin Hd Hf.
  - exists pool. repeat split; try done.
    intros t. simpl. destruct (tokens pool !! t); simpl; [by rewrite credit_zero|done].
  - simpl in Hd, Hf.
    destruct (lookup_lt_is_Some_2 ds i) as [d Hdi]; [lia|].
    destruct (lookup_lt_is_Some_2 fs i) as [f Hfi]; [lia|].
    destruct (Hin t0) as [ts0 H0]; [by left|].
    simpl. unfold mut_bind at 1, lift, defined. rewrite Hdi.
    unfold mut_bind at 1. rewrite Hfi.
    unfold mut_bind at 1.
    rewrite (modifyBalance_add _ _ (d - f) _ _ (fun _ => eq_refl) H0).
    set (pool1 := setTokens _ pool).
    assert (H1 : ∀ t, tokens pool1 !! t
                      = credit (if decide (t = t0) then d - f else 0)
                          <$> tokens pool !! t).
    { intros t. unfold pool1. simpl. by apply lookup_credited. }
    destruct (IH (S i) ds fs pool1) as (pool' & E & Hs & Ha & Ht); [|lia|lia|].
    { intros t Ht. rewrite H1, fmap_is_Some. apply Hin. by right. }
    exists pool'. rewrite E. repeat split; try done.
    intros t. rewrite Ht, H1. simpl.
    destruct (tokens pool !! t) as [x|]; simpl; [|done].
    by rewrite credit_credit.
Qed.

(** The loop throws when a listed token has no record in the pool or a
    position has no delta or no fee. *)
Lemma forEachToken_throws ts : ∀ i ds fs pool,
  (∃ t, t ∈ ts ∧ tokens pool !! t = None)
  ∨ (ts ≠ [] ∧ ((length ds < i + length ts)%nat ∨ (length fs < i + length ts)%nat)) →
  snd (forEachToken i ts ds fs pool) = Abrupt.
Proof.
  induction ts as [|t0 ts IH]; intros i ds fs pool H.
  - destruct H as [(t & Ht & _)|[H _]]; [by apply elem_of_nil in Ht | done].
  - simpl. unfold mut_bind at 1, lift, defined.
    destruct (ds !! i) as [d|] eqn:Hdi; [|done].
    unfold mut_bind at 1.
    destruct (fs !! i) as [f|] eqn:Hfi; [|done].
    unfold mut_bind at 1.
    apply lookup_lt_Some in Hdi, Hfi.
    destruct (tokens pool !! t0) as [ts0|] eqn:H0.
    + rewrite (modifyBalance_add _ _ (d - f) _ _ (fun _ => eq_refl) H0).
      apply IH. destruct H as [(t & Ht & Hn)|[_ H]].
      * left. exists t. apply elem_of_cons in Ht as [->|Ht]; [congruence|].
        split; [done|]. simpl.
        rewrite (lookup_credited _ _ _ _ t H0), Hn. done.
      * right. simpl in H. destruct ts as [|t1 ts]; [simpl in H; lia|].
        split; [done|]. simpl in *. lia.
    + by rewrite modifyBalance_absent.
Qed.

Lemma handlePoolBalanceChanged_eq log pool pid ts ds fs :
  handlePoolBalanceChanged (PoolBalanceChangedEvent pid ts ds fs) log pool
  = forEachToken 0 (map Str.toLowerCase ts) ds fs pool.
Proof. reflexivity. Qed.

End HandlerFacts.

(** ** [processLog] *)

Section ProcessLogFacts.
Context {Log : Type}.
Variable vaultDecoder : Log -> completion LogDescription.
Implicit Types (log : Log) (state : PoolStateMap).

Lemma clone_state state : typecastReadOnlyPoolState <$> state = state.
Proof. apply map_fmap_id. Qed.

(** A recognized event addressed to a tracked pool: the outcome is that of
    the handler on the pool. *)
Lemma processLog_handled state log event handler pid pool :
  vaultDecoder log = Normal event →
  handlers !! name event = Some handler →
  poolId (args event) = Some pid →
  state !! poolAddressOf pid = Some pool →
  processLog vaultDecoder state log
  = match handler event log pool with
    | (pool', Normal _) => Some (<[poolAddressOf pid := pool']> state)
    | (_, Abrupt) => None
    end.
Proof.
  intros Hd Hh Hp Hs. unfold processLog, applyLog, Mut in *. rewrite clone_state, Hd. cbn [mbind completion_mbind completion_bind].
  rewrite Hh, Hp. cbn [defined mbind completion_mbind completion_bind]. cbv zeta.
  fold (poolAddressOf pid). rewrite Hs.
  by destruct (handler event log pool) as [pool' [[]|]].
Qed.

Lemma processLog_decode_fails state log :
  vaultDecoder log = Abrupt → processLog vaultDecoder state log = None.
Proof. intros Hd. unfold processLog, applyLog. by rewrite Hd. Qed.

Lemma processLog_unrecognized state log event :
  vaultDecoder log = Normal event →
  handlers (Log := Log) !! name event = None →
  processLog vaultDecoder state log = Some state.
Proof.
  intros Hd Hh. unfold processLog, applyLog, Mut in *. rewrite clone_state, Hd. cbn [mbind completion_mbind completion_bind].
  by rewrite Hh.
Qed.

Lemma processLog_untracked state log event pid :
  vaultDecoder log = Normal event →
  poolId (args event) = Some pid →
  state !! poolAddressOf pid = None →
  processLog vaultDecoder state log = Some state.
Proof.
  intros Hd Hp Hs. unfold processLog, applyLog, Mut in *. rewrite clone_state, Hd. cbn [mbind completion_mbind completion_bind].
  match goal with
  | |- context [@lookup ?K ?A ?M ?I (name event) ?h] =>
      destruct (@lookup K A M I (name event) h); [|done]
  end.
  rewrite Hp. cbn [defined mbind completion_mbind completion_bind]. cbv zeta.
  fold (poolAddressOf pid). by rewrite Hs.
Qed.

Lemma processLog_no_pool_id state log event :
  vaultDecoder log = Normal event →
  is_Some (handlers (Log := Log) !! name event) →
  poolId (args event) = None →
  processLog vaultDecoder state log = None.
Proof.
  intros Hd [h Hh] Hp. unfold processLog, applyLog, Mut in *. rewrite clone_state, Hd. cbn [mbind completion_mbind completion_bind].
  by rewrite Hh, Hp.
Qed.

(** C1 (amended).  A decoded Swap event addressed to a tracked pool that has
    a record for both its token-in and its token-out replaces that pool, and
    no other, by one in which every token record is the old one with
    amount-in added if it is the token-in and amount-out subtracted if it
    is the token-out, the scalars of the pool being kept; when the pool
    lacks a record for either token, [processLog] returns [null]. *)
Theorem processLog_swap state log pid tin tout ain aout pool :
  vaultDecoder log = Normal (SwapEvent pid tin tout ain aout) →
  state !! poolAddressOf pid = Some pool →
  (is_Some (tokens pool !! Str.toLowerCase tin) →
   is_Some (tokens pool !! Str.toLowerCase tout) →
   ∃ pool',
     processLog vaultDecoder state log = Some (<[poolAddressOf pid := pool']> state)
     ∧ swapFee pool' = swapFee pool ∧ amp pool' = amp pool
     ∧ ∀ t, tokens pool' !! t
            = credit (swapDelta (Str.toLowerCase tin) (Str.toLowerCase tout) ain aout t)
                <$> tokens pool !! t)
  ∧ (tokens pool !! Str.toLowerCase tin = None
     ∨ tokens pool !! Str.toLowerCase tout = None →
     processLog vaultDecoder state log = None).
Proof.
  intros Hd Hs.
  assert (Hh : handlers (Log := Log) !! name (SwapEvent pid tin tout ain aout)
               = Some handleSwap) by (apply handlers_lookup; by left).
  rewrite (processLog_handled state log _ handleSwap pid pool Hd Hh eq_refl Hs).
  split.
  - intros Hi Ho.
    destruct (handleSwap_returns log pool pid tin tout ain aout Hi Ho)
      as (pool' & E & Hrest).
    exists pool'. by rewrite E.
  - intros H. pose proof (handleSwap_throws log pool pid tin tout ain aout H) as E.
    destruct (handleSwap _ log pool) as [pool' c]. simpl in E. by subst c.
Qed.

(** C2 (amended).  A decoded PoolBalanceChanged event addressed to a tracked
    pool that has a record for every listed token, with a delta and a fee
    for each, replaces that pool, and no other, in one step by the pool in
    which every token record is the old one credited with delta minus fee
    for each position at which the token is listed (exactly delta minus fee
    for a token listed once), unlisted records and the scalars being kept;
    when a listed token has no record, or a position has no delta or fee,
    [processLog] returns [null] and nothing is applied. *)
Theorem processLog_poolBalanceChanged state log pid ts ds fs pool :
  vaultDecoder log = Normal (PoolBalanceChangedEvent pid ts ds fs) →
  state !! poolAddressOf pid = Some pool →
  ((∀ t, t ∈ ts → is_Some (tokens pool !! Str.toLowerCase t)) →
   (length ts ≤ length ds)%nat → (length ts ≤ length fs)%nat →
   ∃ pool',
     processLog vaultDecoder state log = Some (<[poolAddressOf pid := pool']> state)
     ∧ swapFee pool' = swapFee pool ∧ amp pool' = amp pool
     ∧ (∀ t, tokens pool' !! t
             = credit (listedDelta t 0 (map Str.toLowerCase ts) ds fs)
                 <$> tokens pool !! t)
     ∧ (NoDup (map Str.toLowerCase ts) →
        ∀ i t d f, ts !! i = Some t → ds !! i = Some d → fs !! i = Some f →
          balanceOf pool' (Str.toLowerCase t)
          = (fun b => b + (d - f)) <$> balanceOf pool (Str.toLowerCase t))
     ∧ (∀ t, t ∉ map Str.toLowerCase ts → tokens pool' !! t = tokens pool !! t))
  ∧ ((∃ t, t ∈ ts ∧ tokens pool !! Str.toLowerCase t = None)
     ∨ (ts ≠ [] ∧ ((length ds < length ts)%nat ∨ (length fs < length ts)%nat)) →
     processLog vaultDecoder state log = None).
Proof.
  intros Hd Hs.
  assert (Hh : handlers (Log := Log) !! name (PoolBalanceChangedEvent pid ts ds fs)
               = Some handlePoolBalanceChanged) by (apply handlers_lookup; by right).
  rewrite (processLog_handled state log _ _ pid pool Hd Hh eq_refl Hs).
  rewrite handlePoolBalanceChanged_eq. split.
  - intros Hin Hld Hlf.
    destruct (forEachToken_returns (map Str.toLowerCase ts) 0 ds fs pool)
      as (pool' & E & Hfee & Hamp & Ht).
    { intros t (t0 & -> & H0)%list_elem_of_fmap. by apply Hin. }
    { rewrite length_map. lia. }
    { rewrite length_map. lia. }
    exists pool'. rewrite E. repeat split; try done.
    + intros Hnd i t d f Hi Hdi Hfi. unfold balanceOf. rewrite Ht.
      rewrite (listedDelta_NoDup _ _ 0 i ds fs d f Hnd); try done.
      * destruct (tokens pool !! Str.toLowerCase t); done.
      * by rewrite list_lookup_fmap, Hi.
    + intros t Hn. rewrite Ht, listedDelta_notin by done.
      destruct (tokens pool !! t); simpl; [by rewrite credit_zero|done].
  - intros H.
    pose proof (forEachToken_throws (map Str.toLowerCase ts) 0 ds fs pool)
      as E.
    destruct (forEachToken 0 _ ds fs pool) as [pool' c]. simpl in E.
    rewrite E; [done|]. destruct H as [(t & Ht & Hn)|[Hne H]].
    + left. exists (Str.toLowerCase t). split; [|done].
      apply list_elem_of_fmap. eauto.
    + right. split; [by destruct ts|]. rewrite length_map. simpl. lia.
Qed.

(** [processLog] returns [null] exactly on the logs that cannot be applied. *)
Lemma processLog_null_iff state log :
  processLog vaultDecoder state log = None ↔ CannotApply vaultDecoder state log.
Proof.
  split.
  - intros H. destruct (vaultDecoder log) as [event|] eqn:Hd; [|by constructor 1].
    destruct (handlers (Log := Log) !! name event) as [h|] eqn:Hh.
    2: { rewrite (processLog_unrecognized state log event Hd Hh) in H. done. }
    destruct (poolId (args event)) as [pid|] eqn:Hp.
    2: { by apply (NoPoolId _ state log event). }
    destruct (state !! poolAddressOf pid) as [pool|] eqn:Hs.
    2: { rewrite (processLog_untracked state log event pid Hd Hp Hs) in H. done. }
    apply (HandlerThrows _ state log event h pid pool); try done.
    rewrite (processLog_handled state log event h pid pool Hd Hh Hp Hs) in H.
    by destruct (h event log pool) as [pool' [[]|]].
  - intros [Hd|event Hd Hh Hp|event h pid pool Hd Hh Hp Hs Ht].
    + by apply processLog_decode_fails.
    + by apply (processLog_no_pool_id state log event).
    + rewrite (processLog_handled state log event h pid pool Hd Hh Hp Hs).
      destruct (h event log pool) as [pool' c]. simpl in Ht. by subst c.
Qed.

(** C5.  A successfully decoded event whose name is neither Swap nor
    PoolBalanceChanged, or whose pool address is not a key of the snapshot,
    makes [processLog] return a snapshot equal to its input, not [null]. *)
Theorem processLog_ignores state log event :
  vaultDecoder log = Normal event →
  (name event ≠ "Swap"%string ∧ name event ≠ "PoolBalanceChanged"%string)
  ∨ (∃ pid, poolId (args event) = Some pid ∧ state !! poolAddressOf pid = None) →
  processLog vaultDecoder state log = Some state.
Proof.
  intros Hd [[H1 H2]|(pid & Hp & Hs)].
  - apply (processLog_unrecognized state log event Hd).
    by apply handlers_unrecognized.
  - by apply (processLog_untracked state log event pid).
Qed.

End ProcessLogFacts.

(** ** [processLog] over the store *)

Module HeapFacts.

(** The cloning loop only extends the store; each cloned entry gets a
    fresh reference holding the value of the original, and distinct
    addresses get distinct references. *)
Lemma cloneEntries_spec entries : ∀ (σ : Heap.store) (acc : Heap.PoolStateMapRef),
  NoDup entries.*1 →
  (∀ k l, (k, l) ∈ entries → (l < length σ)%nat) →
  ∃ ext m',
    Heap.cloneEntries entries σ acc = (σ ++ ext, m')
    ∧ (∀ k, k ∉ entries.*1 → m' !! k = acc !! k)
    ∧ (∀ k l, (k, l) ∈ entries →
         ∃ l', m' !! k = Some l'
               ∧ (length σ ≤ l' < length (σ ++ ext))%nat
               ∧ (σ ++ ext) !! l' = σ !! l)
    ∧ (∀ k1 k2 l', k1 ∈ entries.*1 → k2 ∈ entries.*1 →
         m' !! k1 = Some l' → m' !! k2 = Some l' → k1 = k2).
Proof.
  induction entries as [|[k0 l0] rest IH]; intros σ acc Hnd Hwf.
  - exists [], acc. rewrite app_nil_r. repeat split; try done.
    + intros k l Hin. by apply elem_of_nil in Hin.
    + intros k1 k2 l' Hin. by apply elem_of_nil in Hin.
  - simpl in Hnd. apply NoDup_cons in Hnd as [Hk0 Hnd].
    destruct (lookup_lt_is_Some_2 σ l0) as [v Hv]; [apply (Hwf k0); by left|].
    simpl. rewrite Hv. unfold typecastReadOnlyPoolState.
    destruct (IH (σ ++ [v]) (<[k0 := length σ]> acc) Hnd)
      as (ext & m' & E & Hout & Hin & Hinj).
    { intros k l Hkl. rewrite length_app. simpl.
      assert (l < length σ)%nat by (apply (Hwf k); by right). lia. }
    exists ([v] ++ ext), m'. rewrite app_assoc. split; [done|].
    assert (Hm0 : m' !! k0 = Some (length σ)).
    { rewrite Hout by done. apply lookup_insert_eq. }
    split; [|split].
    + intros k Hk. simpl in Hk. apply not_elem_of_cons in Hk as [Hne Hk].
      rewrite Hout by done. by rewrite lookup_insert_ne.
    + intros k l Hkl. apply elem_of_cons in Hkl as [[= -> ->]|Hkl].
      * exists (length σ). split; [done|]. split.
        { rewrite !length_app. simpl. lia. }
        rewrite Hv, <- app_assoc. rewrite lookup_app_r by lia.
        by rewrite Nat.sub_diag.
      * destruct (Hin k l Hkl) as (l' & Hl' & Hrange & Hval).
        exists l'. split; [done|]. rewrite length_app in Hrange. simpl in Hrange.
        split; [lia|]. rewrite Hval. apply lookup_app_l.
        apply (Hwf k). by right.
    + intros k1 k2 l' H1 H2 E1 E2. simpl in H1, H2.
      apply elem_of_cons in H1 as [->|H1]; apply elem_of_cons in H2 as [->|H2].
      * done.
      * exfalso. apply list_elem_of_fmap in H2 as ([k l] & -> & Hkl).
        destruct (Hin k l Hkl) as (l2 & Hl2 & Hrange & _). simpl in E2.
        rewrite length_app in Hrange. simpl in Hrange.
        rewrite Hm0 in E1. rewrite Hl2 in E2. simplify_eq. lia.
      * exfalso. apply list_elem_of_fmap in H1 as ([k l] & -> & Hkl).
        destruct (Hin k l Hkl) as (l2 & Hl2 & Hrange & _). simpl in E1.
        rewrite length_app in Hrange. simpl in Hrange.
        rewrite Hm0 in E2. rewrite Hl2 in E1. simplify_eq. lia.
      * by apply (Hinj k1 k2 l').
Qed.

(** The clone of a well-formed snapshot: a store extension and a snapshot
    of fresh, pairwise distinct references with the value of the original. *)
Lemma clone_spec (σ : Heap.store) (state : Heap.PoolStateMapRef) :
  Heap.wf σ state →
  ∃ ext _state,
    Heap.cloneEntries (map_to_list state) σ ∅ = (σ ++ ext, _state)
    ∧ Heap.denote (σ ++ ext) _state = Heap.denote σ state
    ∧ (∀ k l, _state !! k = Some l → (length σ ≤ l < length (σ ++ ext))%nat)
    ∧ (∀ k1 k2 l, _state !! k1 = Some l → _state !! k2 = Some l → k1 = k2).
Proof.
  intros Hwf.
  destruct (cloneEntries_spec (map_to_list state) σ ∅)
    as (ext & m' & E & Hout & Hin & Hinj).
  { apply NoDup_fst_map_to_list. }
  { intros k l Hkl. apply elem_of_map_to_list in Hkl. by apply (Hwf k). }
  assert (Hdom : ∀ k, k ∈ (map_to_list state).*1 ↔ is_Some (state !! k)).
  { intros k. rewrite list_elem_of_fmap. split.
    - intros ([k' l] & -> & Hkl). apply elem_of_map_to_list in Hkl. by exists l.
    - intros [l Hl]. exists (k, l). split; [done|]. by apply elem_of_map_to_list. }
  assert (Hnone : ∀ k, state !! k = None → m' !! k = None).
  { intros k Hk. rewrite Hout; [done|]. rewrite Hdom, Hk. by intros [? ?]. }
  exists ext, m'. split; [done|]. split; [|split].
  - apply map_eq. intros k. unfold Heap.denote. rewrite !lookup_omap.
    destruct (state !! k) as [l|] eqn:Hl.
    + apply elem_of_map_to_list in Hl.
      destruct (Hin k l Hl) as (l' & -> & _ & Hval). done.
    + by rewrite (Hnone k Hl).
  - intros k l' Hl'. destruct (state !! k) as [l|] eqn:Hl.
    + apply elem_of_map_to_list in Hl.
      destruct (Hin k l Hl) as (l2 & Hl2 & Hrange & _). by simplify_eq.
    + rewrite (Hnone k Hl) in Hl'. done.
  - intros k1 k2 l H1 H2. apply (Hinj k1 k2 l); try done; apply Hdom.
    + destruct (state !! k1) eqn:E1; [done|]. by rewrite (Hnone k1 E1) in H1.
    + destruct (state !! k2) eqn:E2; [done|]. by rewrite (Hnone k2 E2) in H2.
Qed.

Lemma denote_frame (σ σ' : Heap.store) (state : Heap.PoolStateMapRef) :
  Heap.wf σ state →
  (∀ l, (l < length σ)%nat → σ' !! l = σ !! l) →
  Heap.denote σ' state = Heap.denote σ state.
Proof.
  intros Hwf Hframe. apply map_eq. intros k. unfold Heap.denote. rewrite !lookup_omap.
  destruct (state !! k) as [l|] eqn:Hl; [|done]. simpl.
  apply Hframe. by apply (Hwf k).
Qed.

Section Refinement.
Context {Log : Type}.
Variable vaultDecoder : Log -> completion LogDescription.

(** The [try] block on a snapshot of distinct references beyond the first
    [n] cells: it writes beyond them only, and completes as the block
    over values does, with the snapshot of that value. *)
Lemma applyLog_refines (n : nat) (σ : Heap.store) (_state : Heap.PoolStateMapRef) (log : Log) :
  (∀ k l, _state !! k = Some l → (n ≤ l < length σ)%nat) →
  (∀ k1 k2 l, _state !! k1 = Some l → _state !! k2 = Some l → k1 = k2) →
  ∃ σ' c,
    Heap.applyLog vaultDecoder σ _state log = (σ', c)
    ∧ length σ' = length σ
    ∧ (∀ l, (l < n)%nat → σ' !! l = σ !! l)
    ∧ match c with
      | Normal s =>
          applyLog vaultDecoder (Heap.denote σ _state) log = Normal (Heap.denote σ' s)
          ∧ Heap.wf σ' s
      | Abrupt => applyLog vaultDecoder (Heap.denote σ _state) log = Abrupt
      end.
Proof.
  intros Hfresh Hinj.
  assert (Hwf : Heap.wf σ _state).
  { intros k l Hl. destruct (Hfresh k l Hl). lia. }
  unfold Heap.applyLog, applyLog, Mut in *.
  destruct (vaultDecoder log) as [event|]; cbn [mbind completion_mbind completion_bind].
  2: { exists σ, Abrupt. repeat split; done. }
  match goal with
  | |- context [@lookup ?K ?A ?M ?I (name event) ?h] =>
      destruct (@lookup K A M I (name event) h) as [handler|]
  end.
  2: { exists σ, (Normal _state). repeat split; done. }
  destruct (poolId (args event)) as [pid|];
    cbn [defined mbind completion_mbind completion_bind].
  2: { exists σ, Abrupt. repeat split; done. }
  cbv zeta. fold (poolAddressOf pid).
  assert (Hlook : Heap.denote σ _state !! poolAddressOf pid
                  = _state !! poolAddressOf pid ≫= fun l => σ !! l)
    by apply lookup_omap.
  rewrite Hlook.
  destruct (_state !! poolAddressOf pid) as [l|] eqn:Hl; cbn [mbind option_bind].
  2: { exists σ, (Normal _state). repeat split; done. }
  destruct (lookup_lt_is_Some_2 σ l) as [pool Hpool]; [by apply (Hwf _ _ Hl)|].
  rewrite Hpool. destruct (handler event log pool) as [pool' c].
  assert (Hden : Heap.denote (<[l := pool']> σ) _state
                 = <[poolAddressOf pid := pool']> (Heap.denote σ _state)).
  { apply map_eq. intros k. unfold Heap.denote.
    destruct (decide (k = poolAddressOf pid)) as [->|Hne].
    - rewrite lookup_insert_eq, lookup_omap, Hl. simpl.
      apply list_lookup_insert_eq. by apply (Hwf _ _ Hl).
    - rewrite lookup_insert_ne by done. rewrite !lookup_omap.
      destruct (_state !! k) as [l2|] eqn:Hl2; [|done]. simpl.
      apply list_lookup_insert_ne. intros <-. apply Hne.
      by apply (Hinj k (poolAddressOf pid) l). }
  eexists _, _. split; [reflexivity|]. split; [by rewrite length_insert|].
  split.
  { intros l0 Hl0. apply list_lookup_insert_ne.
    destruct (Hfresh _ _ Hl). lia. }
  destruct c as [[]|]; [|done].
  rewrite (insert_id _state) by done. split; [by rewrite Hden|].
  intros k l2 Hl2. rewrite length_insert. by apply (Hwf k).
Qed.

(** [processLog] over the store leaves every cell of the store it was
    called in as it was, and returns what [processLog] over values
    returns. *)
Lemma processLog_refines (σ : Heap.store) (state : Heap.PoolStateMapRef) (log : Log) :
  Heap.wf σ state →
  ∃ σ' r,
    Heap.processLog vaultDecoder σ state log = (σ', r)
    ∧ (∀ l, (l < length σ)%nat → σ' !! l = σ !! l)
    ∧ Heap.denote σ' <$> r = processLog vaultDecoder (Heap.denote σ state) log
    ∧ (∀ s, r = Some s → Heap.wf σ' s).
Proof.
  intros Hwf.
  destruct (clone_spec σ state Hwf) as (ext & _state & E & Hden & Hfresh & Hinj).
  destruct (applyLog_refines (length σ) (σ ++ ext) _state log Hfresh Hinj)
    as (σ' & c & E' & Hlen & Hframe & Hc).
  unfold Heap.processLog, processLog. rewrite E, E'.
  rewrite map_fmap_id. rewrite <- Hden.
  assert (Hold : ∀ l, (l < length σ)%nat → σ' !! l = σ !! l).
  { intros l Hl. rewrite Hframe by done. by apply lookup_app_l. }
  destruct c as [s|].
  - destruct Hc as [-> Hs]. exists σ', (Some s). repeat split; try done.
    by intros s' [= <-].
  - rewrite Hc. exists σ', None. repeat split; done.
Qed.

(** C4.  When the log cannot be parsed or its application throws (against
    the value the snapshot has in the store), [processLog] returns [null],
    every cell of the store it was called in is as before, and so the
    snapshot passed to it has the value it had. *)
Theorem processLog_null (σ : Heap.store) (state : Heap.PoolStateMapRef) (log : Log) :
  Heap.wf σ state →
  CannotApply vaultDecoder (Heap.denote σ state) log →
  ∃ σ',
    Heap.processLog vaultDecoder σ state log = (σ', None)
    ∧ (∀ l, (l < length σ)%nat → σ' !! l = σ !! l)
    ∧ Heap.denote σ' state = Heap.denote σ state.
Proof.
  intros Hwf Hcannot.
  destruct (processLog_refines σ state log Hwf) as (σ' & r & E & Hframe & Href & _).
  apply processLog_null_iff in Hcannot. rewrite Hcannot in Href.
  destruct r as [s|]; [done|].
  exists σ'. split; [done|]. split; [done|]. by apply denote_frame.
Qed.

End Refinement.

End HeapFacts.

(** ** The non-event cache *)

Section CacheFacts.
Context {V : Type}.
Implicit Types (c : PoolStateCache V) (ps : gmap string V).

Lemma getNonEventPoolStateCache_stale c bn :
  blockNumber c ≠ bn →
  getNonEventPoolStateCache bn c = (mkPoolStateCache (blockNumber c) ∅, ∅).
Proof. intros H. unfold getNonEventPoolStateCache. by rewrite decide_True. Qed.

Lemma getNonEventPoolStateCache_fresh c :
  getNonEventPoolStateCache (blockNumber c) c = (c, poolState c).
Proof. unfold getNonEventPoolStateCache. rewrite decide_False; [done|]. by intros []. Qed.

Lemma updateNonEventPoolStateCache_stale c ps bn :
  blockNumber c ≠ bn →
  updateNonEventPoolStateCache ps bn c = (mkPoolStateCache bn ps, ps).
Proof. intros H. unfold updateNonEventPoolStateCache. by rewrite decide_True. Qed.

Lemma updateNonEventPoolStateCache_fresh c ps :
  updateNonEventPoolStateCache ps (blockNumber c) c
  = (mkPoolStateCache (blockNumber c) (ps ∪ poolState c), ps ∪ poolState c).
Proof. unfold updateNonEventPoolStateCache. rewrite decide_False; [done|]. by intros []. Qed.

Lemma fst_tag bn ps : fst <$> tag bn ps = ps.
Proof.
  unfold tag. rewrite <- map_fmap_compose. apply map_eq. intros k.
  rewrite lookup_fmap. by destruct (ps !! k).
Qed.

Lemma lookup_tag bn ps k v h : tag bn ps !! k = Some (v, h) → h = bn.
Proof.
  unfold tag. rewrite lookup_fmap. destruct (ps !! k); simpl; congruence.
Qed.

Lemma runCallTagged_singleHeight (c : PoolStateCache (V * Z)) call :
  singleHeight c → singleHeight (runCallTagged c call).
Proof.
  intros Hc. destruct call as [bn|ps bn]; simpl.
  - unfold getNonEventPoolStateCache. case_decide; simpl; [|done].
    intros k v h. simpl. by rewrite lookup_empty.
  - unfold updateNonEventPoolStateCache. case_decide as Hbn; simpl.
    + intros k v h. simpl. apply lookup_tag.
    + intros k v h. simpl. intros [Hl|[_ Hl]]%lookup_union_Some_raw.
      * apply lookup_tag in Hl. subst h.
        destruct (decide (blockNumber c = bn)) as [E|E]; [done | by destruct Hbn].
      * by apply (Hc k v h).
Qed.

Lemma erase_runCallTagged (c : PoolStateCache (V * Z)) call :
  erase (runCallTagged c call) = runCall (erase c) call.
Proof.
  destruct call as [bn|ps bn]; simpl.
  - unfold getNonEventPoolStateCache, erase. simpl.
    case_decide; simpl; [by rewrite fmap_empty | done].
  - unfold updateNonEventPoolStateCache, erase. simpl.
    case_decide; simpl; [by rewrite fst_tag|].
    by rewrite map_fmap_union, fst_tag.
Qed.

(** C6.  Along every sequence of calls of the two cache accessors, run
    from a cache whose entries were all stored at its recorded block number,
    each entry of the cache was stored at the block number the cache
    records, and the instrumentation does not change what the cache holds.
    A read at another height empties the entries; an update at another
    height replaces them by the new ones; an update at the recorded height
    merges the new entries into the old ones. *)
Theorem cache_single_height (calls : list (CacheCall V)) (c : PoolStateCache (V * Z)) :
  singleHeight c →
  singleHeight (runCallsTagged calls c)
  ∧ erase (runCallsTagged calls c) = runCalls calls (erase c)
  ∧ (∀ (c0 : PoolStateCache V) (H2 : Z), blockNumber c0 ≠ H2 →
       getNonEventPoolStateCache H2 c0 = (mkPoolStateCache (blockNumber c0) ∅, ∅))
  ∧ (∀ (c0 : PoolStateCache V) ps (H2 : Z), blockNumber c0 ≠ H2 →
       updateNonEventPoolStateCache ps H2 c0 = (mkPoolStateCache H2 ps, ps))
  ∧ (∀ (c0 : PoolStateCache V) ps,
       updateNonEventPoolStateCache ps (blockNumber c0) c0
       = (mkPoolStateCache (blockNumber c0) (ps ∪ poolState c0), ps ∪ poolState c0)).
Proof.
  intros Hc. split; [|split; [|split; [|split]]].
  - revert c Hc. induction calls as [|call calls IH]; intros c Hc; [done|].
    simpl. apply IH. by apply runCallTagged_singleHeight.
  - clear Hc. revert c. induction calls as [|call calls IH]; intros c; [done|].
    unfold runCallsTagged, runCalls in *. simpl. rewrite IH.
    by rewrite erase_runCallTagged.
  - apply getNonEventPoolStateCache_stale.
  - intros c0 ps H2. by apply updateNonEventPoolStateCache_stale.
  - apply updateNonEventPoolStateCache_fresh.
Qed.

End CacheFacts.

(** ** [getPricesPool] *)

Section GetPricesPoolFacts.
Context {PoolPairData : Type}.
Variable pools : string -> BasePool PoolPairData.
Variable virtualBoostedPools : BoostedPools.

(** C7 (amended).  For a supported pool whose pair data parse and a
    non-empty amount vector: when the strategy's balance check accepts,
    [getPricesPool] evaluates the strategy's sell function on the vector
    with the first amount replaced by the unit volume and the others
    unchanged, returns its first output as [unit] and 0 followed by its
    remaining outputs as [prices]; when the balance check rejects, it
    returns [null]. *)
Theorem getPricesPool_prices (from to : Token.t) (pool : SubgraphPoolBase.t)
    (poolStates : PoolStateMap) (a0 : Z) (rest : list Z) (unitVolume : Z)
    (side : SwapSide) (pd : PoolPairData) :
  let strategy := pools (SubgraphPoolBase.poolType pool) in
  isSupportedPool (SubgraphPoolBase.poolType pool) = true →
  parsePoolPairData strategy pool poolStates (Token.address from)
    (Token.address to) virtualBoostedPools = Normal pd →
  (checkBalance strategy (a0 :: rest) unitVolume side pd = Normal true →
   ∀ _prices, onSell strategy (unitVolume :: rest) pd = Normal _prices →
     getPricesPool pools virtualBoostedPools from to pool poolStates
       (a0 :: rest) unitVolume side
     = Normal (Some (PricesPool.mk (_prices !! 0%nat) (0 :: drop 1 _prices)
                       (pairGasCost strategy pd))))
  ∧ (checkBalance strategy (a0 :: rest) unitVolume side pd = Normal false →
     getPricesPool pools virtualBoostedPools from to pool poolStates
       (a0 :: rest) unitVolume side = Normal None).
Proof.
  intros strategy Hsup Hparse. subst strategy. unfold getPricesPool.
  rewrite Hsup, Hparse. simpl.
  split.
  - intros -> _prices Hsell. simpl. rewrite drop_0. by rewrite Hsell.
  - by intros ->.
Qed.

End GetPricesPoolFacts.

(** ** The quoting interface *)

Lemma lookup_foldl_delete {A} (l : list string) : ∀ (m : gmap string A) k,
  foldl (fun m addr => delete addr m) m l !! k
  = if decide (k ∈ l) then None else m !! k.
Proof.
  induction l as [|a l IH]; intros m k.
  - destruct (decide (k ∈ [])) as [Hin|_]; [by apply elem_of_nil in Hin | done].
  - cbn [foldl]. rewrite IH.
    destruct (decide (k ∈ l)) as [Hin|Hnin], (decide (k ∈ a :: l)) as [Hin'|Hnin'];
      try done.
    + exfalso. apply Hnin'. by right.
    + apply elem_of_cons in Hin' as [->|?]; [apply lookup_delete_eq | done].
    + apply lookup_delete_ne. intros ->. apply Hnin'. by left.
Qed.

Section QuoteFacts.
Context {PoolPairData : Type}.
Variable dexKey : string.
Variable wrapETH : Token.t -> Token.t.
Variable adapters : option (list Adapter.t).
Variable allPools : list SubgraphPoolBase.t.
Variable virtualBoostedPools : BoostedPools.
Variable pools : string -> BasePool PoolPairData.
Variable getState : Z -> option PoolStateMap.
Variable getOnChainState : list SubgraphPoolBase.t -> Z -> completion PoolStateMap.
Variable eventDisabledPools : list string.

Local Abbreviation quote :=
  (getPricesVolume dexKey wrapETH allPools virtualBoostedPools pools getState
     getOnChainState eventDisabledPools).
Local Abbreviation allowed := (allowedPools dexKey wrapETH allPools virtualBoostedPools).
Local Abbreviation price :=
  (pricePool dexKey virtualBoostedPools pools).

Lemma dropDisabled_disabled ro addr :
  addr ∈ eventDisabledPools → dropDisabled eventDisabledPools ro !! addr = None.
Proof.
  intros H. unfold dropDisabled. rewrite lookup_foldl_delete. by rewrite decide_True.
Qed.

Lemma dropDisabled_None : dropDisabled eventDisabledPools None = ∅.
Proof.
  apply map_eq. intros k. unfold dropDisabled. rewrite lookup_foldl_delete.
  simpl. rewrite lookup_empty. by case_decide.
Qed.

(** What a quote that returns a list went through. *)
Lemma getPricesVolume_Some from to amounts side bn limitPools cache cache' res :
  quote from to amounts side bn limitPools cache = (cache', Some res) →
  let eventPoolStates := dropDisabled eventDisabledPools (getState bn) in
  let missing := missingPools (allowed from to limitPools) eventPoolStates
                   (cachedAt bn cache) in
  side = SELL
  ∧ allowed from to limitPools ≠ []
  ∧ (∃ fetched,
       ((missing = [] ∧ fetched = ∅ ∧ blockNumber cache' = blockNumber cache)
        ∨ (missing ≠ [] ∧ getOnChainState missing bn = Normal fetched
           ∧ blockNumber cache' = bn))
       ∧ poolState cache' = fetched ∪ cachedAt bn cache)
  ∧ res = omap (price (wrapETH from) (wrapETH to) amounts
                  (getBigIntPow (Token.decimals (wrapETH from))) SELL
                  eventPoolStates (poolState cache')
                  (poolState cache' ∪ default ∅ (getState bn)))
            (allowed from to limitPools).
Proof.
  intros H eventPoolStates missing. unfold getPricesVolume in H.
  destruct (decide (side = BUY)) as [|Hside]; [done|].
  assert (side = SELL) as -> by (by destruct side).
  destruct (decide (length (allowed from to limitPools) = 0%nat)) as [|Hlen]; [done|].
  split; [done|]. split; [by destruct (allowed from to limitPools)|].
  rewrite decide_True in H by done.
  assert (Hget : getNonEventPoolStateCache bn cache
                 = (mkPoolStateCache (blockNumber cache) (cachedAt bn cache),
                    cachedAt bn cache)).
  { unfold getNonEventPoolStateCache, cachedAt.
    destruct (decide (blockNumber cache = bn)) as [E|E].
    - rewrite decide_False by (by intros ?). by destruct cache.
    - by rewrite decide_True. }
  rewrite Hget in H. fold eventPoolStates in H. fold missing in H.
  destruct (decide (0 < length missing)%nat) as [Hm|Hm].
  - destruct (getOnChainState missing bn) as [fetched|] eqn:Hfetch; [|done].
    cbn [mbind completion_mbind completion_bind] in H.
    unfold updateNonEventPoolStateCache in H. simpl in H.
    assert (Hne : missing ≠ []) by (destruct missing; [simpl in Hm; lia | done]).
    unfold cachedAt in *.
    destruct (decide (blockNumber cache ≠ bn)) as [E|E]; simpl in H.
    + injection H as <- <-. simpl. split; [|done].
      exists fetched. rewrite decide_False by done.
      split; [right; done|]. by rewrite (right_id_L ∅ (∪)).
    + assert (E' : blockNumber cache = bn)
        by (destruct (decide (blockNumber cache = bn)); [done | by destruct E]).
      rewrite !decide_True in H by done.
      injection H as <- <-. simpl. split; [|done].
      exists fetched. rewrite decide_True by done. split; [right; done|done].
  - injection H as <- <-. simpl. split; [|done].
    exists ∅. split; [|by rewrite (left_id_L ∅ (∪))].
    left. split; [|done]. destruct missing; [done | simpl in Hm; lia].
Qed.

Lemma allowedByLimit_true limitPools pool :
  allowedByLimit dexKey virtualBoostedPools limitPools pool = true ↔
  dexKey +:+ "_" +:+ Str.toLowerCase (SubgraphPoolBase.address pool) ∈ limitPools
  ∧ ∀ group, boostedGroup virtualBoostedPools pool = Some group →
      dexKey +:+ "_" +:+ Str.toLowerCase (SubgraphPoolBase.address pool)
        +:+ "virtualboosted" ∈ limitPools
      ∧ ∀ t, t ∈ BoostedPool.mainTokens group →
          dexKey +:+ "_" +:+ Str.toLowerCase (SubgraphMainToken.linearPoolAddr t)
            ∈ limitPools.
Proof.
  unfold allowedByLimit, includes.
  destruct (bool_decide_reflect
              (dexKey +:+ "_" +:+ Str.toLowerCase (SubgraphPoolBase.address pool)
                 ∈ limitPools)) as [H1|H1]; cbn [negb].
  2: { split; [done | by intros [? _]]. }
  destruct (boostedGroup virtualBoostedPools pool) as [group|].
  2: { split; [|done]. intros _. split; [done|]. by intros group. }
  destruct (bool_decide_reflect
              (dexKey +:+ "_" +:+ Str.toLowerCase (SubgraphPoolBase.address pool)
                 +:+ "virtualboosted" ∈ limitPools)) as [H2|H2]; cbn [negb].
  2: { split; [done|]. intros [_ H]. by destruct (H group eq_refl). }
  rewrite forallb_forall. split.
  - intros H. split; [done|]. intros g [= <-]. split; [done|].
    intros t Ht. apply list_elem_of_In, H in Ht. by apply bool_decide_eq_true in Ht.
  - intros [_ H] t Ht. destruct (H group eq_refl) as [_ H3].
    apply bool_decide_eq_true, H3. by apply list_elem_of_In.
Qed.

(** The identifiers [getPoolIdentifiers] reports for a pool are enough for
    the filter, when the group of a virtual pool lists the linear pools its
    descriptor lists. *)
Lemma poolIdentifiers_pass limitPools pool :
  (∀ i, i ∈ poolIdentifiers dexKey pool → i ∈ limitPools) →
  (∀ group, boostedGroup virtualBoostedPools pool = Some group →
     SubgraphPoolBase.poolType pool = "VirtualBoosted"%string
     ∧ map (fun t => Some (SubgraphMainToken.linearPoolAddr t))
           (BoostedPool.mainTokens group)
       = map SubgraphToken.linearPoolAddr (SubgraphPoolBase.tokens pool)) →
  allowedByLimit dexKey virtualBoostedPools limitPools pool = true.
Proof.
  intros Hids Hgroup. apply allowedByLimit_true. split.
  - apply Hids. unfold poolIdentifiers. case_decide; apply list_elem_of_here.
  - intros group Hg. destruct (Hgroup group Hg) as [Htype Hspokes].
    unfold poolIdentifiers in Hids. rewrite decide_True in Hids by done. split.
    + apply Hids. apply list_elem_of_further, list_elem_of_here.
    + intros t Ht. apply Hids. do 2 apply list_elem_of_further.
      assert (Hin : Some (SubgraphMainToken.linearPoolAddr t)
                    ∈ map SubgraphToken.linearPoolAddr (SubgraphPoolBase.tokens pool)).
      { rewrite <- Hspokes. apply list_elem_of_fmap. by exists t. }
      apply list_elem_of_fmap in Hin as (tok & Htok & Hin).
      apply list_elem_of_fmap. exists tok. split; [|done]. by rewrite <- Htok.
Qed.



(** The element made for a pool, when one is made. *)
Lemma pricePool_entryOf _from _to amounts unitVolume side ev nonEv complete pool entry :
  price _from _to amounts unitVolume side ev nonEv complete pool = Some entry
  ↔ ∃ st r,
      ev !! Str.toLowerCase (SubgraphPoolBase.address pool)
        ∪ nonEv !! Str.toLowerCase (SubgraphPoolBase.address pool) = Some st
      ∧ getPricesPool pools virtualBoostedPools _from _to pool complete
          amounts unitVolume side = Normal (Some r)
      ∧ entry = entryOf dexKey virtualBoostedPools pool r.
Proof.
  unfold pricePool, entryOf. split.
  - intros H. destruct (ev !! _ ∪ nonEv !! _) as [st|]; [|done].
    destruct (getPricesPool _ _ _ _ _ _ _ _ _) as [[r|]|]; try done.
    injection H as <-. by exists st, r.
  - intros (st & r & -> & -> & ->). done.
Qed.

Lemma omap_all_None {A B} (f : A → option B) (l : list A) :
  (∀ x, x ∈ l → f x = None) → omap f l = [].
Proof.
  induction l as [|x l IH]; intros H; [done|].
  cbn [omap list_omap]. rewrite (H x (list_elem_of_here _ _)).
  apply IH. intros y Hy. apply H. by right.
Qed.

(** C3 (amended).  For an address in the disabled set, the view of the
    snapshot from which a candidate's state is selected has no state.  A
    candidate at that address is among the pools read from the chain exactly
    when the cache holds no state for it at the requested block number, and
    the cache the quote leaves holds what the chain returned for the pools
    read, merged over what it held for the block.  The price list has an
    element whose first pool address is the disabled address exactly when a
    candidate has that address, the cache the quote leaves, recorded at the
    requested block number, holds a state for it, and the strategy of the
    pool returns prices on the state map in which the address has that
    cached state; the element is the one made from what the strategy
    returned. *)
Theorem disabled_pool_priced_from_cache (from to : Token.t) (amounts : list Z)
    (side : SwapSide) (bn : Z) (limitPools : option (list string))
    (cache cache' : PoolStateCache PoolState) (res : list PoolPrices.t)
    (addr : string) :
  addr ∈ eventDisabledPools →
  quote from to amounts side bn limitPools cache = (cache', Some res) →
  let view := dropDisabled eventDisabledPools (getState bn) in
  let missing := missingPools (allowed from to limitPools) view (cachedAt bn cache) in
  let complete := poolState cache' ∪ default ∅ (getState bn) in
  view !! addr = None
  ∧ (∀ pool, pool ∈ allowed from to limitPools →
       Str.toLowerCase (SubgraphPoolBase.address pool) = addr →
       (pool ∈ missing ↔ cachedAt bn cache !! addr = None))
  ∧ (∃ fetched,
       ((missing = [] ∧ fetched = ∅)
        ∨ (missing ≠ [] ∧ getOnChainState missing bn = Normal fetched
           ∧ blockNumber cache' = bn))
       ∧ poolState cache' = fetched ∪ cachedAt bn cache)
  ∧ (∀ entry,
       entry ∈ res ∧ head (PoolPrices.poolAddresses entry) = Some addr
       ↔ ∃ pool st r,
           pool ∈ allowed from to limitPools
           ∧ Str.toLowerCase (SubgraphPoolBase.address pool) = addr
           ∧ poolState cache' !! addr = Some st
           ∧ blockNumber cache' = bn
           ∧ complete !! addr = Some st
           ∧ getPricesPool pools virtualBoostedPools (wrapETH from) (wrapETH to)
               pool complete amounts
               (getBigIntPow (Token.decimals (wrapETH from))) SELL
             = Normal (Some r)
           ∧ entry = entryOf dexKey virtualBoostedPools pool r).
Proof.
  intros Hdis Hq view missing complete.
  pose proof (dropDisabled_disabled (getState bn) addr Hdis) as Hdrop.
  pose proof (getPricesVolume_Some _ _ _ _ _ _ _ _ _ Hq)
    as (_ & _ & (fetched & Hfetch & Hps) & Hres).
  fold view in Hdrop, Hfetch, Hres. fold missing in Hfetch. fold complete in Hres.
  assert (Hbn : ∀ st, poolState cache' !! addr = Some st → blockNumber cache' = bn).
  { intros st Hst. destruct Hfetch as [(_ & -> & Hbn)|(_ & _ & Hbn)]; [|done].
    rewrite Hbn. rewrite Hps, (left_id_L ∅ (∪)) in Hst. unfold cachedAt in Hst.
    by destruct (decide (blockNumber cache = bn)). }
  split; [done|]. split; [|split].
  - intros pool Hpool Haddr. unfold missing, missingPools.
    rewrite list_elem_of_In, filter_In, <- list_elem_of_In. cbv zeta.
    rewrite Haddr, Hdrop.
    rewrite (bool_decide_eq_false_2 (is_Some None)) by (by intros [? ?]).
    cbn [orb]. rewrite negb_true_iff, bool_decide_eq_false.
    rewrite <- eq_None_not_Some. tauto.
  - exists fetched. split; [|done].
    destruct Hfetch as [(Hm & -> & _)|Hfetch]; [by left | by right].
  - intros entry. split.
    + intros [Hin Hhead]. rewrite Hres in Hin.
      apply list_elem_of_omap in Hin as (pool & Hpool & Hprice).
      apply pricePool_entryOf in Hprice as (st & r & Hst & Hr & ->).
      injection Hhead as Haddr. rewrite Haddr in Hst. rewrite Hdrop in Hst.
      destruct (poolState cache' !! addr) as [st'|] eqn:Hst'; [|done].
      injection Hst as ->.
      exists pool, st, r. split; [done|]. split; [done|]. split; [done|].
      split; [by apply (Hbn st)|]. split; [by apply lookup_union_Some_l|].
      by split.
    + intros (pool & st & r & Hpool & Haddr & Hst & _ & _ & Hr & ->).
      split; [|unfold entryOf; simpl; by rewrite Haddr].
      rewrite Hres. apply list_elem_of_omap. exists pool. split; [done|].
      apply pricePool_entryOf. exists st, r. split; [|by split].
      by rewrite Haddr, Hdrop, Hst.
Qed.

(** C9.  The subscriber has no snapshot for the requested block number.
    When the block cannot be reconstructed either (a candidate has no state
    in the cache for the block and the read from the chain at the block
    throws, or returns while neither its answer nor the cache has a state for
    a candidate), the quote returns [null] or the empty list: [null] when
    the read throws.  In every case a list that is returned is priced from the
    cache alone, with no event state: the cache the quote leaves is recorded
    at the requested block number and holds what the chain returned at that
    block number for the candidates without a state, when there were any,
    merged over what the cache held for that block number; and every element
    is for a candidate with a state in that cache. *)
Theorem quote_without_snapshot (from to : Token.t) (amounts : list Z)
    (side : SwapSide) (bn : Z) (limitPools : option (list string))
    (cache cache' : PoolStateCache PoolState) (r : option (list PoolPrices.t)) :
  getState bn = None →
  quote from to amounts side bn limitPools cache = (cache', r) →
  let missing := missingPools (allowed from to limitPools) ∅ (cachedAt bn cache) in
  (CannotReconstruct getOnChainState (allowed from to limitPools) bn cache →
   r = None ∨ r = Some [])
  ∧ (missing ≠ [] → getOnChainState missing bn = Abrupt → r = None)
  ∧ (∀ res, r = Some res →
       blockNumber cache' = bn
       ∧ (∃ fetched,
            ((missing = [] ∧ fetched = ∅)
             ∨ (missing ≠ [] ∧ getOnChainState missing bn = Normal fetched))
            ∧ poolState cache' = fetched ∪ cachedAt bn cache)
       ∧ res = omap (price (wrapETH from) (wrapETH to) amounts
                       (getBigIntPow (Token.decimals (wrapETH from))) SELL
                       ∅ (poolState cache') (poolState cache'))
                 (allowed from to limitPools)
       ∧ ∀ entry, entry ∈ res →
           ∃ pool st,
             pool ∈ allowed from to limitPools
             ∧ head (PoolPrices.poolAddresses entry)
               = Some (Str.toLowerCase (SubgraphPoolBase.address pool))
             ∧ poolState cache' !! Str.toLowerCase (SubgraphPoolBase.address pool)
               = Some st)
  ∧ (r = None ↔
       side = BUY ∨ allowed from to limitPools = []
       ∨ (missing ≠ [] ∧ getOnChainState missing bn = Abrupt)).
Proof.
  intros Hnone Hq missing.
  assert (Hsome : ∀ res, r = Some res →
            allowed from to limitPools ≠ []
            ∧ (∃ fetched,
                 ((missing = [] ∧ fetched = ∅ ∧ blockNumber cache' = blockNumber cache)
                  ∨ (missing ≠ [] ∧ getOnChainState missing bn = Normal fetched
                     ∧ blockNumber cache' = bn))
                 ∧ poolState cache' = fetched ∪ cachedAt bn cache)
            ∧ res = omap (price (wrapETH from) (wrapETH to) amounts
                            (getBigIntPow (Token.decimals (wrapETH from))) SELL
                            ∅ (poolState cache') (poolState cache'))
                      (allowed from to limitPools)).
  { intros res ->.
    apply getPricesVolume_Some in Hq as (_ & Hne & Hfetch & ->).
    rewrite Hnone, dropDisabled_None in *. fold missing in Hfetch.
    simpl. rewrite (right_id_L ∅ (∪)). done. }
  split; [|split; [|split]].
  - intros [Hm Hread]. fold missing in Hm, Hread.
    destruct r as [res|]; [right | by left].
    destruct (Hsome res eq_refl) as (_ & (fetched & Hfetch & Hps) & ->).
    destruct Hfetch as [(Hm' & _)|(_ & Hf & _)]; [done|].
    rewrite Hf in Hread. f_equal. apply omap_all_None. intros pool Hpool.
    destruct (price _ _ _ _ _ _ _ _ pool) as [entry|] eqn:Hprice; [|done].
    apply pricePool_entryOf in Hprice as (st & _ & Hst & _).
    rewrite lookup_empty, Hps, (Hread pool Hpool) in Hst. done.
  - intros Hm Hthrow. destruct r as [res|]; [|done].
    destruct (Hsome res eq_refl) as (_ & (fetched & Hfetch & _) & _).
    destruct Hfetch as [(? & _)|(_ & Hf & _)]; [done|congruence].
  - intros res Hr. destruct (Hsome res Hr) as (Hne & (fetched & Hfetch & Hps) & Hres).
    split; [|split; [|split; [done|]]].
    + destruct Hfetch as [(Hm & -> & Hbn)|(_ & _ & Hbn)]; [|done].
      rewrite Hbn. destruct (allowed from to limitPools) as [|p l] eqn:Ea; [done|].
      unfold missing, missingPools in Hm. simpl in Hm.
      rewrite lookup_empty in Hm.
      destruct (bool_decide_reflect
                  (is_Some (cachedAt bn cache
                              !! Str.toLowerCase (SubgraphPoolBase.address p))))
        as [[st Hst]|Hn].
      * unfold cachedAt in Hst. by destruct (decide (blockNumber cache = bn)).
      * rewrite bool_decide_eq_false_2 in Hm; [done|]. by intros [? ?].
    + exists fetched. split; [|done].
      destruct Hfetch as [(Hm & -> & _)|(Hm & Hf & _)]; [by left | by right].
    + intros entry Hin. rewrite Hres in Hin.
      apply list_elem_of_omap in Hin as (pool & Hpool & Hprice).
      apply pricePool_entryOf in Hprice as (st & r' & Hst & _ & ->).
      rewrite lookup_empty in Hst.
      destruct (poolState cache' !! Str.toLowerCase (SubgraphPoolBase.address pool))
        as [st'|] eqn:Hst'; [|done].
      by exists pool, st'.
  - split.
    + intros ->. unfold getPricesVolume in Hq.
      destruct (decide (side = BUY)) as [|Hside]; [by left|]. right.
      destruct (decide (length (allowed from to limitPools) = 0%nat)) as [Hl|Hl].
      { left. by destruct (allowed from to limitPools). }
      right. rewrite Hnone, dropDisabled_None in Hq.
      assert (Hget : getNonEventPoolStateCache bn cache
                     = (mkPoolStateCache (blockNumber cache) (cachedAt bn cache),
                        cachedAt bn cache)).
      { unfold getNonEventPoolStateCache, cachedAt.
        destruct (decide (blockNumber cache = bn)) as [E|E].
        - rewrite decide_False by (by intros ?). by destruct cache.
        - by rewrite decide_True. }
      rewrite Hget in Hq. fold missing in Hq.
      destruct (decide (0 < length missing)%nat) as [Hm|Hm]; [|done].
      split; [destruct missing; [simpl in Hm; lia | done]|].
      destruct (getOnChainState missing bn) as [fetched|]; [|done].
      cbn [mbind completion_mbind completion_bind] in Hq.
      by destruct (updateNonEventPoolStateCache fetched bn _).
    + intros H. destruct r as [res|]; [exfalso|done].
      pose proof (getPricesVolume_Some _ _ _ _ _ _ _ _ _ Hq)
        as (Hside & Hne & (fetched & Hfetch & _) & _).
      rewrite Hnone, dropDisabled_None in Hfetch. fold missing in Hfetch.
      destruct H as [->|[Ha|(Hm & Hthrow)]]; [done|done|].
      destruct Hfetch as [(? & _)|(_ & Hf & _)]; [done|congruence].
Qed.

(** C10.  On the BUY side the quoting interface yields nothing:
    [getPricesVolume] returns [null] and leaves the cache alone,
    [getPoolIdentifiers] returns the empty list and [getAdapters] returns
    [null], whatever the other arguments and the state. *)
Theorem buy_side_yields_nothing (from to : Token.t) (amounts : list Z)
    (bn : Z) (limitPools : option (list string)) (cache : PoolStateCache PoolState) :
  quote from to amounts BUY bn limitPools cache = (cache, None)
  ∧ getPoolIdentifiers dexKey wrapETH allPools from to BUY bn = []
  ∧ getAdapters adapters BUY = None.
Proof. done. Qed.

End QuoteFacts.

(** ** Scenarios *)

Module ScenarioFacts.
Import Scenario.

(** A Swap on P1 with tokenIn=A, amountIn=50, tokenOut=B, amountOut=95 leaves
    P1 with A=1050 and B=1905, and P2 as it was. *)
Lemma swap_scenario :
  ∃ pool',
    processLog decoder snapshot (SwapEvent P1id tA tB 50 95)
    = Some (<[P1 := pool']> snapshot)
    ∧ balanceOf pool' tA = Some 1050
    ∧ balanceOf pool' tB = Some 1905
    ∧ <[P1 := pool']> snapshot !! P2 = Some pool2.
Proof.
  destruct (proj1 (processLog_swap decoder snapshot (SwapEvent P1id tA tB 50 95)
                     P1id tA tB 50 95 pool1 eq_refl eq_refl))
    as (pool' & E & _ & _ & Ht).
  - vm_compute. eauto.
  - vm_compute. eauto.
  - exists pool'. split; [exact E|]. unfold balanceOf. rewrite !Ht.
    split; [reflexivity|]. split; [reflexivity|].
    rewrite lookup_insert_ne by (intros [=]). reflexivity.
Defined.

(** A Swap on P1 whose token-in P1 does not hold: the event is decoded and
    addressed to a tracked pool, and no balance is updated. *)
Lemma swap_unknown_token :
  decoder (SwapEvent P1id tC tB 50 95) = Normal (SwapEvent P1id tC tB 50 95)
  ∧ snapshot !! poolAddressOf P1id = Some pool1
  ∧ ¬ SwapRule decoder snapshot (SwapEvent P1id tC tB 50 95) P1id tC tB 50 95.
Proof.
  split; [reflexivity|]. split; [reflexivity|].
  intros (pool & state' & pool' & _ & E & _).
  vm_compute in E. discriminate E.
Qed.

(** A join of P1 with deltas 100 and -50 and fees 1 and 0. *)
Lemma balance_changed_scenario :
  ∃ pool',
    processLog decoder snapshot
      (PoolBalanceChangedEvent P1id [tA; tB] [100; -50] [1; 0])
    = Some (<[P1 := pool']> snapshot)
    ∧ balanceOf pool' tA = Some 1099
    ∧ balanceOf pool' tB = Some 1950.
Proof.
  destruct (proj1 (processLog_poolBalanceChanged decoder snapshot
                     (PoolBalanceChangedEvent P1id [tA; tB] [100; -50] [1; 0])
                     P1id [tA; tB] [100; -50] [1; 0] pool1 eq_refl eq_refl))
    as (pool' & E & _ & _ & Ht & _).
  - intros t Ht. apply elem_of_cons in Ht as [->|Ht]; [vm_compute; eauto|].
    apply elem_of_cons in Ht as [->|Ht]; [vm_compute; eauto|].
    by apply elem_of_nil in Ht.
  - simpl. lia.
  - simpl. lia.
  - exists pool'. split; [exact E|]. unfold balanceOf. rewrite !Ht.
    split; reflexivity.
Defined.

(** A PoolBalanceChanged on P1 that lists a token P1 does not hold. *)
Lemma balance_changed_unknown_token :
  decoder (PoolBalanceChangedEvent P1id [tA; tC] [100; 7] [1; 0])
  = Normal (PoolBalanceChangedEvent P1id [tA; tC] [100; 7] [1; 0])
  ∧ snapshot !! poolAddressOf P1id = Some pool1
  ∧ ¬ BalanceChangedRule decoder snapshot
        (PoolBalanceChangedEvent P1id [tA; tC] [100; 7] [1; 0])
        P1id [tA; tC] [100; 7] [1; 0].
Proof.
  split; [reflexivity|]. split; [reflexivity|].
  intros (pool & state' & pool' & _ & E & _).
  vm_compute in E. discriminate E.
Qed.

(** An event the synchronizer has no handler for. *)
Lemma unrecognized_event_scenario :
  processLog decoder snapshot (mkLogDescription "PoolRegistered" noArgs)
  = Some snapshot.
Proof.
  apply (processLog_ignores decoder snapshot _ (mkLogDescription "PoolRegistered" noArgs)).
  - reflexivity.
  - left. split; intros [=].
Defined.

Lemma refs_wf : Heap.wf store0 refs.
Proof.
  intros k l H. unfold refs in H.
  apply lookup_insert_Some in H as [[_ <-]|[_ H]]; [simpl; lia|].
  apply lookup_insert_Some in H as [[_ <-]|[_ H]]; [simpl; lia|].
  by rewrite lookup_empty in H.
Defined.

(** The Swap with the unknown token-in, against the store: [null], and both
    pools of the caller's snapshot as they were. *)
Lemma failed_swap_scenario :
  ∃ σ', Heap.processLog decoder store0 refs (SwapEvent P1id tC tB 50 95) = (σ', None)
        ∧ σ' !! 0%nat = Some pool1 ∧ σ' !! 1%nat = Some pool2.
Proof.
  destruct (HeapFacts.processLog_null decoder store0 refs (SwapEvent P1id tC tB 50 95)
              refs_wf) as (σ' & E & Hframe & _).
  - apply (HandlerThrows decoder _ _ (SwapEvent P1id tC tB 50 95) handleSwap P1id pool1).
    + reflexivity.
    + apply handlers_lookup. left. split; reflexivity.
    + reflexivity.
    + vm_compute. reflexivity.
    + vm_compute. reflexivity.
  - exists σ'. split; [exact E|]. split.
    + rewrite Hframe by (simpl; lia). reflexivity.
    + rewrite Hframe by (simpl; lia). reflexivity.
Defined.

Lemma cache_scenario :
  singleHeight (runCallsTagged calls initialCache)
  ∧ erase (runCallsTagged calls initialCache) = runCalls calls (erase initialCache).
Proof.
  destruct (cache_single_height calls initialCache) as (H1 & H2 & _).
  - intros k v h H. simpl in H. by rewrite lookup_empty in H.
  - split; [exact H1 | exact H2].
Defined.

(** P1 quoted by the stand-in strategy for the amounts [1; 100; 500] at
    unit volume 100. *)
Lemma prices_scenario :
  getPricesPool (fun _ => productPool) ∅ tokenA tokenB
    (descriptor P1id P1 "Weighted") snapshot [1; 100; 500] 100 SELL
  = Normal (Some (PricesPool.mk (Some 181) [0; 181; 666] 100000)).
Proof.
  apply (proj1 (getPricesPool_prices (fun _ => productPool) ∅ tokenA tokenB
                  (descriptor P1id P1 "Weighted") snapshot 1 [100; 500] 100 SELL
                  (1000, 2000) eq_refl eq_refl) eq_refl [181; 181; 666] eq_refl).
Defined.

(** An amount beyond what the strategy accepts: no prices, [null]. *)
Lemma prices_rejected :
  isSupportedPool (SubgraphPoolBase.poolType (descriptor P1id P1 "Weighted")) = true
  ∧ parsePoolPairData productPool (descriptor P1id P1 "Weighted") snapshot
      (Token.address tokenA) (Token.address tokenB) ∅ = Normal (1000, 2000)
  ∧ getPricesPool (fun _ => productPool) ∅ tokenA tokenB
      (descriptor P1id P1 "Weighted") snapshot [1; 100; 5000] 100 SELL
    = Normal None.
Proof. split; [reflexivity|]. split; vm_compute; reflexivity. Qed.

(** P1 is disabled and in the snapshot, and the price list has an element
    for it. *)
Lemma disabled_pool_quoted :
  P1 ∈ [P1]
  ∧ snapshot !! P1 = Some pool1
  ∧ ∃ res entry,
      snd quoteDisabled = Some res ∧ entry ∈ res
      ∧ P1 ∈ PoolPrices.poolAddresses entry.
Proof.
  split; [apply list_elem_of_here|]. split; [reflexivity|].
  eexists _, _. split; [vm_compute; reflexivity|].
  split; apply list_elem_of_here.
Qed.

(** That element was priced against the state the quote fetched from the
    chain at block 100 and left in the cache. *)
Lemma disabled_pool_scenario :
  dropDisabled [P1] (Some snapshot) !! P1 = None
  ∧ poolState (fst quoteDisabled) !! P1 = Some pool1
  ∧ blockNumber (fst quoteDisabled) = 100
  ∧ ∃ entry r,
      entry ∈ default [] (snd quoteDisabled)
      ∧ getPricesPool (fun _ => productPool) ∅ tokenA tokenB
          (descriptor P1id P1 "Weighted")
          (poolState (fst quoteDisabled) ∪ snapshot) [1; 100; 500]
          (getBigIntPow 2) SELL = Normal (Some r)
      ∧ entry = entryOf "BalancerV2" ∅ (descriptor P1id P1 "Weighted") r.
Proof.
  assert (∃ cache' e1 e2,
             quoteDisabled = (cache', Some [e1; e2])
             ∧ head (PoolPrices.poolAddresses e1) = Some P1)
    as (cache' & e1 & e2 & E & Hhead)
    by (eexists _, _, _; split; vm_compute; reflexivity).
  destruct (disabled_pool_priced_from_cache "BalancerV2" (fun t => t) allPools ∅
              (fun _ => productPool) (fun _ => Some snapshot) getOnChainState [P1]
              tokenA tokenB [1; 100; 500] SELL 100 None initialCache cache'
              [e1; e2] P1 (list_elem_of_here _ _) E)
    as (Hdrop & _ & _ & Hiff).
  destruct (proj1 (Hiff e1) (conj (list_elem_of_here _ _) Hhead))
    as (pool & st & r & Hpool & Haddr & Hst & Hbn & _ & Hr & He).
  assert (Hp : pool = descriptor P1id P1 "Weighted").
  { apply elem_of_cons in Hpool as [->|Hpool]; [done|].
    apply elem_of_cons in Hpool as [->|Hpool]; [discriminate Haddr|].
    by apply elem_of_nil in Hpool. }
  subst pool.
  split; [exact Hdrop|]. rewrite E. simpl. split; [|split; [exact Hbn|]].
  - rewrite Hst. f_equal.
    assert (Hc : poolState (fst quoteDisabled) !! P1 = Some pool1)
      by (vm_compute; reflexivity).
    rewrite E in Hc. simpl in Hc. rewrite Hst in Hc. by injection Hc.
  - exists e1, r. split; [apply list_elem_of_here|]. split; [exact Hr|exact He].
Defined.

(** With an amount beyond what P1 holds, P1 is read from the chain and
    cached all the same, and the list has an element for P2 only. *)
Lemma disabled_pool_rejected :
  poolState (fst quoteDisabledBeyond) !! P1 = Some pool1
  ∧ ∃ e2, snd quoteDisabledBeyond = Some [e2]
          ∧ PoolPrices.poolAddresses e2 = [P2].
Proof.
  split; [vm_compute; reflexivity|].
  eexists. split; vm_compute; reflexivity.
Qed.

(** Without a snapshot for the block, and with a chain that can be read,
    the quote returns prices. *)
Lemma no_snapshot_quoted :
  (fun _ : Z => @None PoolStateMap) 100 = None
  ∧ ∃ e1 e2, snd quoteNoSnapshot = Some [e1; e2].
Proof. split; [reflexivity|]. eexists _, _. vm_compute. reflexivity. Qed.

(** Without a snapshot for block 100: [null] when the chain cannot be read,
    the empty list when it answers without a state, and when it answers with
    the states, prices from the cache the quote filled at block 100. *)
Lemma no_snapshot_scenario :
  snd (quoteWithChain deadChain) = None
  ∧ snd (quoteWithChain emptyChain) = Some []
  ∧ blockNumber (fst quoteNoSnapshot) = 100
  ∧ snd quoteNoSnapshot
    = Some (omap (pricePool "BalancerV2" ∅ (fun _ => productPool) tokenA tokenB
                    [1; 100; 500] (getBigIntPow 2) SELL ∅
                    (poolState (fst quoteNoSnapshot))
                    (poolState (fst quoteNoSnapshot)))
              allPools).
Proof.
  assert (Hmissing : missingPools
                       (allowedPools "BalancerV2" (fun t => t) allPools ∅
                          tokenA tokenB None)
                       ∅ (cachedAt 100 initialCache) ≠ []).
  { intros H. vm_compute in H. discriminate H. }
  split; [|split].
  - destruct (quoteWithChain deadChain) as [cache' r] eqn:E.
    destruct (quote_without_snapshot "BalancerV2" (fun t => t) allPools ∅
                (fun _ => productPool) (fun _ => None) deadChain []
                tokenA tokenB [1; 100; 500] SELL 100 None initialCache cache' r
                eq_refl E) as (_ & H & _).
    exact (H Hmissing eq_refl).
  - destruct (quoteWithChain emptyChain) as [cache' r] eqn:E.
    destruct (quote_without_snapshot "BalancerV2" (fun t => t) allPools ∅
                (fun _ => productPool) (fun _ => None) emptyChain []
                tokenA tokenB [1; 100; 500] SELL 100 None initialCache cache' r
                eq_refl E) as (H & _ & _ & Hnull).
    assert (Hc : CannotReconstruct emptyChain
                   (allowedPools "BalancerV2" (fun t => t) allPools ∅
                      tokenA tokenB None) 100 initialCache).
    { split; [exact Hmissing|]. unfold emptyChain. intros pool _.
      change (cachedAt 100 initialCache) with (∅ : PoolStateMap).
      rewrite (left_id_L ∅ (∪)). apply lookup_empty. }
    destruct (H Hc) as [Hr|Hr]; [|exact Hr].
    exfalso. destruct (proj1 Hnull Hr) as [Hs|[Ha|[_ Hd]]];
      [discriminate Hs | vm_compute in Ha; discriminate Ha | discriminate Hd].
  - destruct quoteNoSnapshot as [cache' r] eqn:E.
    destruct (quote_without_snapshot "BalancerV2" (fun t => t) allPools ∅
                (fun _ => productPool) (fun _ => None) getOnChainState []
                tokenA tokenB [1; 100; 500] SELL 100 None initialCache cache' r
                eq_refl E) as (_ & _ & H & _).
    assert (∃ res, r = Some res) as [res ->].
    { vm_compute in E. injection E as _ <-. eauto. }
    destruct (H res eq_refl) as (Hbn & _ & Hres & _).
    split; [exact Hbn|]. simpl. f_equal. exact Hres.
Defined.



End ScenarioFacts.

(** * Further properties *)

(** ** The shared asset list *)

Lemma firstIndex_None x (l : Assets) : firstIndex x l = None ↔ x ∉ l.
Proof.
  induction l as [|y l IH]; simpl.
  - split; [intros _; apply not_elem_of_nil | done].
  - destruct (decide (y = x)) as [->|Hne].
    + split; [done|]. intros H. destruct H. by left.
    + rewrite fmap_None, IH, not_elem_of_cons.
      split; [intros H; split; [congruence | done] | by intros [_ H]].
Qed.

Lemma firstIndex_Some x (l : Assets) n :
  firstIndex x l = Some n →
  l !! n = Some x ∧ ∀ m, (m < n)%nat → l !! m ≠ Some x.
Proof.
  revert n. induction l as [|y l IH]; intros n; simpl; [done|].
  destruct (decide (y = x)) as [->|Hne].
  - intros [= <-]. split; [done|]. intros m Hm. lia.
  - intros (n' & Hn' & ->)%fmap_Some. destruct (IH n' Hn') as [Hl Hmin].
    split; [done|]. intros [|m] Hm; simpl; [congruence|]. apply Hmin. lia.
Qed.

Lemma firstIndex_app_l x (l l' : Assets) n :
  firstIndex x l = Some n → firstIndex x (l ++ l') = Some n.
Proof.
  revert n. induction l as [|y l IH]; intros n; simpl; [done|].
  destruct (decide (y = x)); [done|].
  intros (n' & Hn' & ->)%fmap_Some. by rewrite (IH n' Hn').
Qed.

Lemma firstIndex_app_new x (l : Assets) :
  x ∉ l → firstIndex x (l ++ [x]) = Some (length l).
Proof.
  induction l as [|y l IH]; simpl; intros Hn.
  - by rewrite decide_True.
  - apply not_elem_of_cons in Hn as [Hne Hn].
    rewrite decide_False by done. by rewrite IH.
Qed.

(** The two cases of [updateSwapAsset]. *)
Lemma updateSwapAsset_found k sa cur n :
  firstIndex (at_index sa k) cur = Some n →
  updateSwapAsset k sa cur = (cur, Z.of_nat n).
Proof.
  intros H. unfold updateSwapAsset, indexOf. rewrite H.
  rewrite decide_False by lia. done.
Qed.

Lemma updateSwapAsset_new k sa cur :
  firstIndex (at_index sa k) cur = None →
  updateSwapAsset k sa cur = (cur ++ [at_index sa k], Z.of_nat (length cur)).
Proof.
  intros H. unfold updateSwapAsset, indexOf. rewrite H.
  rewrite decide_True by done. f_equal. rewrite length_app. simpl. lia.
Qed.

(** X1.  [updateSwapAsset] returns a valid index of the asset list it
    leaves, the first one at which that list holds the token; the list is the
    old one, extended at the end by the token exactly when it did not hold
    it, and it has no duplicates if the old one had none. *)
Theorem updateSwapAsset_index (tokenIndex : Z) (swapAssets currentAssets : Assets) :
  let r := updateSwapAsset tokenIndex swapAssets currentAssets in
  let token := at_index swapAssets tokenIndex in
  0 ≤ r.2 < Z.of_nat (length r.1)
  ∧ r.1 !! Z.to_nat r.2 = Some token
  ∧ firstIndex token r.1 = Some (Z.to_nat r.2)
  ∧ r.1 = currentAssets ++ (if decide (token ∈ currentAssets) then [] else [token])
  ∧ (NoDup currentAssets → NoDup r.1).
Proof.
  intros r token. subst r.
  destruct (firstIndex token currentAssets) as [n|] eqn:Hf.
  - rewrite (updateSwapAsset_found _ _ _ n Hf). simpl.
    destruct (firstIndex_Some _ _ _ Hf) as [Hl _].
    pose proof (lookup_lt_Some _ _ _ Hl). rewrite Nat2Z.id.
    split; [lia|]. split; [done|]. split; [done|]. split; [|done].
    rewrite decide_True; [by rewrite app_nil_r|].
    by eapply list_elem_of_lookup_2.
  - rewrite (updateSwapAsset_new _ _ _ Hf). simpl.
    apply firstIndex_None in Hf. fold token. rewrite Nat2Z.id, length_app. simpl.
    split; [lia|]. split; [|split; [|split]].
    + rewrite lookup_app_r by lia. by rewrite Nat.sub_diag.
    + by apply firstIndex_app_new.
    + by rewrite decide_False.
    + intros Hnd. apply NoDup_app. split; [done|]. split; [|apply NoDup_singleton].
      intros x Hx ->%list_elem_of_singleton. done.
Qed.

(** X2.  Asking again for the same token changes nothing: the second call
    of [updateSwapAsset] leaves the asset list as the first left it and returns
    the same index. *)
Theorem updateSwapAsset_again (tokenIndex : Z) (swapAssets currentAssets : Assets) :
  let r := updateSwapAsset tokenIndex swapAssets currentAssets in
  updateSwapAsset tokenIndex swapAssets r.1 = r.
Proof.
  intros r.
  destruct (updateSwapAsset_index tokenIndex swapAssets currentAssets)
    as (Hrange & _ & Hfirst & _). fold r in Hrange, Hfirst.
  rewrite (updateSwapAsset_found _ _ _ _ Hfirst).
  rewrite Z2Nat.id by lia. by destruct r.
Qed.

Lemma reindexed_mono sa cur ext s s' :
  reindexed sa cur s s' → reindexed sa (cur ++ ext) s s'.
Proof.
  intros (Hp & Ha & Hu & Hi & Hil & Ho & Hol). unfold reindexed.
  rewrite length_app. repeat split; try done; try lia.
  - rewrite lookup_app_l by lia. done.
  - rewrite lookup_app_l by lia. done.
Qed.

Lemma updateSwap_spec sa cur s :
  let r := updateSwap sa cur s in
  ∃ ext, r.1 = cur ++ ext
         ∧ reindexed sa r.1 s r.2
         ∧ (∀ x, x ∈ ext →
              x = at_index sa (BalancerSwap.assetInIndex s)
              ∨ x = at_index sa (BalancerSwap.assetOutIndex s))
         ∧ (NoDup cur → NoDup r.1).
Proof.
  intros r. subst r. unfold updateSwap.
  pose proof (updateSwapAsset_index (BalancerSwap.assetInIndex s) sa cur) as H1.
  destruct (updateSwapAsset (BalancerSwap.assetInIndex s) sa cur) as [cur1 i].
  pose proof (updateSwapAsset_index (BalancerSwap.assetOutIndex s) sa cur1) as H2.
  destruct (updateSwapAsset (BalancerSwap.assetOutIndex s) sa cur1) as [cur2 o].
  simpl in *. destruct H1 as (Hi & Hil & _ & E1 & Hnd1).
  destruct H2 as (Ho & Hol & _ & E2 & Hnd2).
  exists ((if decide (at_index sa (BalancerSwap.assetInIndex s) ∈ cur)
           then [] else [at_index sa (BalancerSwap.assetInIndex s)])
          ++ (if decide (at_index sa (BalancerSwap.assetOutIndex s) ∈ cur1)
              then [] else [at_index sa (BalancerSwap.assetOutIndex s)])).
  split; [by rewrite app_assoc, <- E1|]. split; [|split].
  - unfold reindexed. simpl. repeat split; try done; try lia.
    + rewrite E2, length_app. lia.
    + rewrite E2. rewrite lookup_app_l by lia. done.
  - intros x [Hx|Hx]%elem_of_app.
    + left. case_decide; [by apply elem_of_nil in Hx|].
      by apply list_elem_of_singleton in Hx.
    + right. case_decide; [by apply elem_of_nil in Hx|].
      by apply list_elem_of_singleton in Hx.
  - intros Hnd. by apply Hnd2, Hnd1.
Qed.

Lemma updateSwaps_spec sa swaps : ∀ cur,
  let r := updateSwaps sa cur swaps in
  ∃ ext, r.1 = cur ++ ext
         ∧ Forall2 (reindexed sa r.1) swaps r.2
         ∧ (∀ x, x ∈ ext →
              ∃ s, s ∈ swaps
                   ∧ (x = at_index sa (BalancerSwap.assetInIndex s)
                      ∨ x = at_index sa (BalancerSwap.assetOutIndex s)))
         ∧ (NoDup cur → NoDup r.1).
Proof.
  induction swaps as [|s rest IH]; intros cur r; subst r.
  - exists []. simpl. rewrite app_nil_r. repeat split; try done.
    intros x Hx. by apply elem_of_nil in Hx.
  - simpl. pose proof (updateSwap_spec sa cur s) as H1.
    destruct (updateSwap sa cur s) as [cur1 s'].
    specialize (IH cur1).
    destruct (updateSwaps sa cur1 rest) as [cur2 rest']. simpl in *.
    destruct H1 as (ext1 & E1 & Hs & Hx1 & Hnd1).
    destruct IH as (ext2 & E2 & Hrest & Hx2 & Hnd2).
    exists (ext1 ++ ext2). split; [by rewrite app_assoc, <- E1|]. split; [|split].
    + constructor; [|done]. rewrite E2. by apply reindexed_mono.
    + intros x [Hx|Hx]%elem_of_app.
      * exists s. split; [by left | by apply Hx1].
      * destruct (Hx2 x Hx) as (s0 & Hs0 & Hor). exists s0. split; [by right | done].
    + intros Hnd. by apply Hnd2, Hnd1.
Qed.

(** X3.  [updateSwapAssets] keeps the swaps in number and order and rewrites
    only their indices: each new index is valid in the asset list the call
    leaves and points there at the token the old index pointed at in the
    asset list of the swap data.  The asset list is extended at the end, by
    tokens of these swaps only, and stays free of duplicates. *)
Theorem updateSwapAssets_reindex (swapData : SwapData.t) (currentAssets : Assets) :
  let r := updateSwapAssets swapData currentAssets in
  (∃ ext, r.1 = currentAssets ++ ext
          ∧ ∀ x, x ∈ ext →
              ∃ s, s ∈ SwapData.swaps swapData
                   ∧ (x = at_index (SwapData.assets swapData) (BalancerSwap.assetInIndex s)
                      ∨ x = at_index (SwapData.assets swapData)
                              (BalancerSwap.assetOutIndex s)))
  ∧ SwapData.assets r.2 = SwapData.assets swapData
  ∧ Forall2 (reindexed (SwapData.assets swapData) r.1)
      (SwapData.swaps swapData) (SwapData.swaps r.2)
  ∧ (NoDup currentAssets → NoDup r.1).
Proof.
  intros r. subst r. unfold updateSwapAssets.
  pose proof (updateSwaps_spec (SwapData.assets swapData) (SwapData.swaps swapData)
                currentAssets) as H.
  destruct (updateSwaps _ currentAssets _) as [cur' swaps']. simpl in *.
  destruct H as (ext & E & HF & Hx & Hnd).
  split; [by exists ext|]. done.
Qed.

(** ** The parameters of a batch swap *)

Section SwapParamFacts.
Variables ETHER_ADDRESS NULL_ADDRESS MAX_INT MAX_UINT : string.
Variables augustusAddress vaultAddress : string.
Variable virtualBoostedPools : BoostedPools.
Variable getSwapData :
  string -> string -> string -> string -> BoostedPools -> completion SwapData.t.

Local Abbreviation addSwap' := (addSwap virtualBoostedPools getSwapData).
Local Abbreviation addSwaps' := (addSwaps virtualBoostedPools getSwapData).
Local Abbreviation mapAssets' := (mapAssets ETHER_ADDRESS NULL_ADDRESS).
Local Abbreviation param :=
  (getBalancerParam ETHER_ADDRESS NULL_ADDRESS MAX_INT MAX_UINT augustusAddress
     virtualBoostedPools getSwapData).
Local Abbreviation eth := (nullForEther ETHER_ADDRESS NULL_ADDRESS).

(** The asset list maps when every slot holds a string, slot by slot. *)
Lemma mapAssets_Normal (assets : Assets) (l : list string) :
  mapAssets' assets = Normal l ↔ ∃ ts, assets = map Some ts ∧ l = map eth ts.
Proof.
  split.
  - revert l. induction assets as [|t rest IH]; intros l H.
    + injection H as <-. by exists [].
    + simpl in H. destruct t as [t|]; [|done]. simpl in H.
      destruct (mapAssets' rest) as [rest'|] eqn:E; [|done].
      injection H as <-. destruct (IH rest' eq_refl) as (ts & -> & ->).
      by exists (t :: ts).
  - intros (ts & -> & ->). induction ts as [|t ts IH]; [done|].
    simpl. by rewrite IH.
Qed.

(** One step of the loop over [data.swaps]: the asset list is extended, the
    swaps collected so far are kept and followed by the new ones, whose
    indices are valid. *)
Lemma addSwap_spec src dst assets swaps d assets' swaps' :
  (2 ≤ length assets)%nat →
  addSwap' src dst (assets, swaps) d = Normal (assets', swaps') →
  (∃ ext, assets' = assets ++ ext)
  ∧ ∃ new, swaps' = swaps ++ new
           ∧ Forall (indexesInto assets') new
           ∧ if includesSubstring (Str.toLowerCase VirtualBoostedPool_poolType)
                  (OptimizedSwap.poolId d)
             then ∃ sd, getSwapData src dst (OptimizedSwap.poolId d)
                          (OptimizedSwap.amount d) virtualBoostedPools = Normal sd
                        ∧ Forall2 (reindexed (SwapData.assets sd) assets')
                            (SwapData.swaps sd) new
             else assets' = assets ∧ new = [directSwap d].
Proof.
  intros Hlen H. unfold addSwap in H.
  destruct (includesSubstring _ _).
  - destruct (getSwapData _ _ _ _ _) as [sd|]; [|done]. simpl in H.
    pose proof (updateSwapAssets_reindex sd assets) as Hr.
    destruct (updateSwapAssets sd assets) as [a' sd']. simpl in Hr.
    injection H as <- <-. destruct Hr as ((ext & E & _) & _ & HF & _).
    split; [by exists ext|]. exists (SwapData.swaps sd'). split; [done|].
    split; [|by exists sd].
    clear -HF. induction HF as [|h h' hs hs' Hh _ IH]; constructor; [|done].
    destruct Hh as (_ & _ & _ & Hi & _ & Ho & _). by split.
  - injection H as <- <-. split; [by exists []; rewrite app_nil_r|].
    exists [directSwap d]. split; [done|]. split; [|done].
    constructor; [|done]. unfold indexesInto. simpl. lia.
Qed.

Lemma indexesInto_app {A} (assets ext : list A) s :
  indexesInto assets s → indexesInto (assets ++ ext) s.
Proof. unfold indexesInto. rewrite length_app. lia. Qed.

Lemma addSwaps_cons src dst acc d rest :
  addSwaps' src dst acc (d :: rest)
  = completion_bind (fun acc' => addSwaps' src dst acc' rest) (addSwap' src dst acc d).
Proof. reflexivity. Qed.

(** The whole loop. *)
Lemma addSwaps_spec src dst data : ∀ assets swaps assets' swaps',
  (2 ≤ length assets)%nat →
  addSwaps' src dst (assets, swaps) data = Normal (assets', swaps') →
  (∃ ext, assets' = assets ++ ext)
  ∧ ∃ new, swaps' = swaps ++ new ∧ Forall (indexesInto assets') new.
Proof.
  induction data as [|d rest IH]; intros assets swaps assets' swaps' Hlen H.
  - injection H as <- <-. split; [by exists []; rewrite app_nil_r|].
    exists []. by rewrite app_nil_r.
  - rewrite addSwaps_cons in H.
    destruct (addSwap' src dst (assets, swaps) d) as [[a1 s1]|] eqn:E1; [|done].
    simpl in H.
    destruct (addSwap_spec _ _ _ _ _ _ _ Hlen E1) as ((ext1 & ->) & new1 & -> & HF1 & _).
    destruct (IH (assets ++ ext1) (swaps ++ new1) assets' swaps')
      as ((ext2 & ->) & new2 & -> & HF2); [rewrite length_app; lia | exact H |].
    split; [exists (ext1 ++ ext2); by rewrite app_assoc|].
    exists (new1 ++ new2). split; [by rewrite app_assoc|].
    apply Forall_app. split; [|done].
    eapply Forall_impl; [exact HF1|]. intros s. apply indexesInto_app.
Qed.

(** The loop over a list that holds the swap [d] passes through the step
    for [d]. *)
Lemma addSwaps_split src dst pre d post : ∀ acc r,
  addSwaps' src dst acc (pre ++ d :: post) = Normal r →
  ∃ r1 r2, addSwaps' src dst acc pre = Normal r1
           ∧ addSwap' src dst r1 d = Normal r2
           ∧ addSwaps' src dst r2 post = Normal r.
Proof.
  induction pre as [|d0 pre IH]; intros acc r H.
  - change ([] ++ d :: post) with (d :: post) in H. rewrite addSwaps_cons in H.
    destruct (addSwap' src dst acc d) as [r2|] eqn:E; [|done].
    by exists acc, r2.
  - change ((d0 :: pre) ++ d :: post) with (d0 :: (pre ++ d :: post)) in H.
    rewrite addSwaps_cons in H.
    destruct (addSwap' src dst acc d0) as [acc0|] eqn:E0; [|done]. simpl in H.
    destruct (IH _ _ H) as (r1 & r2 & H1 & H2 & H3).
    exists r1, r2. rewrite addSwaps_cons, E0. done.
Qed.

(** What [getBalancerParam] returns comes from the loop and the mapping. *)
Lemma getBalancerParam_Normal src dst srcAmount destAmount data side p :
  param src dst srcAmount destAmount data side = Normal p →
  ∃ ts,
    addSwaps' src dst ([Some src; Some dst], []) (OptimizedBalancerV2Data.swaps data)
    = Normal (map Some ts, BalancerParam.swaps p)
    ∧ p = BalancerParam.mk (if decide (side = SELL) then SwapExactIn else SwapExactOut)
            (BalancerParam.swaps p) (map eth ts)
            (Funds.mk augustusAddress augustusAddress false false)
            (replicate (length (map eth ts)) MAX_INT) MAX_UINT.
Proof.
  unfold getBalancerParam. intros H.
  destruct (addSwaps' _ _ _ _) as [[assets swaps]|]; [|done]. simpl in H.
  destruct (mapAssets' assets) as [l|] eqn:E; [|done]. simpl in H.
  apply mapAssets_Normal in E as (ts & -> & ->).
  injection H as <-. by exists ts.
Qed.

(** X4.  The parameters [getBalancerParam] returns: the kind follows the
    side, sender and recipient are the augustus address without internal
    balances, there is one limit [MAX_INT] per asset and the deadline is
    [MAX_UINT]; the assets start with the source and the destination token,
    the ether placeholder replaced by the null address; and both indices of
    every swap are positions of the asset list. *)
Theorem getBalancerParam_shape (srcToken destToken srcAmount destAmount : string)
    (data : OptimizedBalancerV2Data.t) (side : SwapSide) (p : BalancerParam.t) :
  param srcToken destToken srcAmount destAmount data side = Normal p →
  BalancerParam.kind p = (if decide (side = SELL) then SwapExactIn else SwapExactOut)
  ∧ BalancerParam.funds p = Funds.mk augustusAddress augustusAddress false false
  ∧ BalancerParam.deadline p = MAX_UINT
  ∧ BalancerParam.limits p = replicate (length (BalancerParam.assets p)) MAX_INT
  ∧ (∃ rest, BalancerParam.assets p = eth srcToken :: eth destToken :: rest)
  ∧ Forall (indexesInto (BalancerParam.assets p)) (BalancerParam.swaps p).
Proof.
  intros H. apply getBalancerParam_Normal in H as (ts & Hloop & ->).
  simpl. repeat split; try done.
  - apply addSwaps_spec in Hloop as ((ext & E) & _); [|simpl; lia].
    destruct ts as [|t1 [|t2 ts]]; try done.
    injection E as -> -> _. by exists (map eth ts).
  - apply addSwaps_spec in Hloop as (_ & new & -> & HF); [|simpl; lia].
    simpl. eapply Forall_impl; [exact HF|].
    intros s. unfold indexesInto. by rewrite !length_map.
Qed.

Lemma addSwaps_direct src dst data : ∀ assets swaps,
  Forall (fun d => includesSubstring (Str.toLowerCase VirtualBoostedPool_poolType)
                     (OptimizedSwap.poolId d) = false) data →
  addSwaps' src dst (assets, swaps) data
  = Normal (assets, swaps ++ map directSwap data).
Proof.
  induction data as [|d rest IH]; intros assets swaps HF.
  - simpl. by rewrite app_nil_r.
  - apply Forall_cons in HF as [Hd HF]. rewrite addSwaps_cons.
    unfold addSwap at 1. rewrite Hd. simpl. rewrite IH by done.
    by rewrite <- app_assoc.
Qed.

(** X5.  When no pool id of the data names a virtual pool, [getBalancerParam]
    returns, whatever the swap-data builder would do, one swap per swap of the
    data, in order, from asset 0 to asset 1 with empty user data, over the two
    assets source and destination. *)
Theorem getBalancerParam_direct (srcToken destToken srcAmount destAmount : string)
    (data : OptimizedBalancerV2Data.t) (side : SwapSide) :
  Forall (fun d => includesSubstring (Str.toLowerCase VirtualBoostedPool_poolType)
                     (OptimizedSwap.poolId d) = false)
    (OptimizedBalancerV2Data.swaps data) →
  param srcToken destToken srcAmount destAmount data side
  = Normal (BalancerParam.mk
              (if decide (side = SELL) then SwapExactIn else SwapExactOut)
              (map directSwap (OptimizedBalancerV2Data.swaps data))
              [eth srcToken; eth destToken]
              (Funds.mk augustusAddress augustusAddress false false)
              [MAX_INT; MAX_INT] MAX_UINT).
Proof.
  intros HF. unfold getBalancerParam. by rewrite addSwaps_direct.
Qed.

(** X6.  For a swap of the data through a virtual pool, the hops the
    swap-data builder returns appear in the parameters as a block, in order,
    each with its pool, amount and user data, and with indices at which the
    asset list of the parameters holds the tokens the hop trades in the asset
    list of the swap data (the ether placeholder replaced). *)
Theorem getBalancerParam_hops (srcToken destToken srcAmount destAmount : string)
    (data : OptimizedBalancerV2Data.t) (side : SwapSide) (p : BalancerParam.t)
    (pre post : list OptimizedSwap.t) (d : OptimizedSwap.t) (sd : SwapData.t) :
  OptimizedBalancerV2Data.swaps data = pre ++ d :: post →
  includesSubstring (Str.toLowerCase VirtualBoostedPool_poolType)
    (OptimizedSwap.poolId d) = true →
  getSwapData srcToken destToken (OptimizedSwap.poolId d) (OptimizedSwap.amount d)
    virtualBoostedPools = Normal sd →
  param srcToken destToken srcAmount destAmount data side = Normal p →
  ∃ before hops after,
    BalancerParam.swaps p = before ++ hops ++ after
    ∧ Forall2 (sameHop ETHER_ADDRESS NULL_ADDRESS (SwapData.assets sd)
                 (BalancerParam.assets p))
        (SwapData.swaps sd) hops.
Proof.
  intros Hdata Hv Hsd H.
  apply getBalancerParam_Normal in H as (ts & Hloop & ->). simpl.
  rewrite Hdata in Hloop.
  apply addSwaps_split in Hloop as ([a1 s1] & [a2 s2] & H1 & H2 & H3).
  apply addSwaps_spec in H1 as ((ext1 & ->) & new1 & -> & _); [|simpl; lia].
  apply addSwap_spec in H2 as ((ext2 & ->) & hops & -> & _ & Hhops);
    [|rewrite length_app; simpl; lia].
  rewrite Hv in Hhops. destruct Hhops as (sd' & Hsd' & Hhops).
  rewrite Hsd in Hsd'. injection Hsd' as <-.
  apply addSwaps_spec in H3 as ((ext3 & E3) & new3 & -> & _);
    [|rewrite !length_app; simpl; lia].
  exists ([] ++ new1), hops, new3. split; [by rewrite <- !app_assoc|].
  eapply Forall2_impl; [exact Hhops|].
  intros h h' (Hp & Ha & Hu & Hi & Hil & Ho & Hol).
  assert (Hat : ∀ i x, (0 ≤ i)%Z →
            (([Some srcToken; Some destToken] ++ ext1) ++ ext2) !! Z.to_nat i = Some x →
            ∃ t, x = Some t ∧ map eth ts !! Z.to_nat i = Some (eth t)).
  { intros i x Hi0 Hx.
    assert (map Some ts !! Z.to_nat i = Some x) as Hx'.
    { rewrite E3. apply lookup_app_l_Some. exact Hx. }
    rewrite list_lookup_fmap in Hx'. destruct (ts !! Z.to_nat i) as [t|] eqn:Et; [|done].
    injection Hx' as <-. exists t. split; [done|].
    by rewrite list_lookup_fmap, Et. }
  destruct (Hat _ _ (proj1 Hi) Hil) as (tin & Etin & Hin).
  destruct (Hat _ _ (proj1 Ho) Hol) as (tout & Etout & Hout).
  unfold sameHop. repeat split; try done. by exists tin, tout.
Qed.

(** X7.  No asset of the parameters is the ether placeholder, in any case of
    letters, provided the null address is not: the vault is never handed the
    placeholder. *)
Theorem getBalancerParam_no_ether (srcToken destToken srcAmount destAmount : string)
    (data : OptimizedBalancerV2Data.t) (side : SwapSide) (p : BalancerParam.t) :
  Str.toLowerCase NULL_ADDRESS ≠ Str.toLowerCase ETHER_ADDRESS →
  param srcToken destToken srcAmount destAmount data side = Normal p →
  Forall (fun a => Str.toLowerCase a ≠ Str.toLowerCase ETHER_ADDRESS)
    (BalancerParam.assets p).
Proof.
  intros Hnull H. apply getBalancerParam_Normal in H as (ts & _ & ->). simpl.
  apply Forall_fmap, Forall_forall. intros t _. simpl.
  unfold nullForEther. by case_decide.
Qed.


End SwapParamFacts.

(** ** Reading pool states from the chain *)

Lemma chunkFuel_concat {A} (n : nat) : ∀ fuel (l : list A),
  (length l ≤ fuel)%nat → concat (chunkFuel fuel (S n) l) = l.
Proof.
  induction fuel as [|fuel IH]; intros l Hl.
  - destruct l; [done | simpl in Hl; lia].
  - destruct l as [|x l]; [done|].
    change (chunkFuel (S fuel) (S n) (x :: l))
      with (take (S n) (x :: l) :: chunkFuel fuel (S n) (drop (S n) (x :: l))).
    rewrite concat_cons, IH; [apply take_drop|].
    rewrite length_drop. simpl in *. lia.
Qed.

Lemma chunk_concat {A} (n : nat) (l : list A) : concat (chunk (S n) l) = l.
Proof. by apply chunkFuel_concat. Qed.

Lemma chunk_nil {A} (n : nat) : chunk n (@nil A) = [].
Proof. done. Qed.

Lemma mapCompletion_Normal {A B} (f : A -> completion B) (g : A -> B) (l : list A) :
  (∀ x, x ∈ l → f x = Normal (g x)) → mapCompletion f l = Normal (map g l).
Proof.
  induction l as [|x l IH]; intros H; [done|]. simpl.
  rewrite (H x) by (by left). simpl. rewrite IH; [done|].
  intros y Hy. apply H. by right.
Qed.

Lemma mapCompletion_Abrupt {A B} (f : A -> completion B) (l : list A) x :
  x ∈ l → f x = Abrupt → mapCompletion f l = Abrupt.
Proof.
  induction l as [|y l IH]; intros Hin Hx; [by apply elem_of_nil in Hin|].
  simpl. apply elem_of_cons in Hin as [<-|Hin].
  - by rewrite Hx.
  - destruct (f y); [|done]. simpl. by rewrite IH.
Qed.

Lemma concat_map_map {A B} (f : A -> B) (ls : list (list A)) :
  concat (map (map f) ls) = map f (concat ls).
Proof.
  induction ls as [|l ls IH]; [done|]. simpl. by rewrite IH, map_app.
Qed.

Section OnChainFacts.
Context {Call Result : Type}.
Variable onChainPools : string -> OnChainPool Call Result.
Variable virtualBoostedPools : BoostedPools.
Variable tryAggregate : list Call -> Z -> completion (list Result).

Local Abbreviation fetch := (getOnChainState onChainPools virtualBoostedPools tryAggregate).
Local Abbreviation supported :=
  (fun pool => isSupportedPool (SubgraphPoolBase.poolType pool)).

Lemma decodePools_unsupported returnData st pools :
  (∀ pool, pool ∈ pools → supported pool = false) →
  decodePools onChainPools virtualBoostedPools returnData st pools = Normal st.
Proof.
  induction pools as [|pool rest IH]; intros H; [done|]. simpl.
  unfold decodePool at 1. destruct st as [acc i].
  rewrite (H pool) by (by left). simpl. apply IH.
  intros p Hp. apply H. by right.
Qed.

(** X8.  For a list without a pool of a supported type, the empty list
    included, [getOnChainState] returns the empty map without a call to the
    chain: also when every call would fail. *)
Theorem getOnChainState_nothing_to_read (pools : list SubgraphPoolBase.t) (bn : Z) :
  (∀ pool, pool ∈ pools → supported pool = false) →
  fetch pools bn = Normal ∅.
Proof.
  intros H. unfold getOnChainState.
  rewrite (mapCompletion_Normal _ (fun _ => [])).
  2: { intros pool Hp. unfold poolCalls. by rewrite (H pool Hp). }
  simpl. assert (concat (map (fun _ : SubgraphPoolBase.t => @nil Call) pools) = []) as ->.
  { clear. induction pools; [done|]. done. }
  rewrite chunk_nil. simpl. by rewrite decodePools_unsupported.
Qed.

(** X9.  When the executor answers each call on its own, and the strategy of
    each supported pool of the list returns its calls and decodes, from any
    cursor, exactly as many results as it has calls, then [getOnChainState]
    decodes every supported pool from the answers to that pool's own calls,
    however the calls were batched, and merges the states in list order, a
    later pool overriding an earlier one on a shared address. *)
Theorem getOnChainState_parity (calls : SubgraphPoolBase.t -> list Call)
    (exec : Call -> Result) (decode : SubgraphPoolBase.t -> list Result -> PoolStateMap)
    (pools : list SubgraphPoolBase.t) (bn : Z) :
  (∀ cs, tryAggregate cs bn = Normal (map exec cs)) →
  (∀ pool, pool ∈ pools → supported pool = true →
     getOnChainCalls (onChainPools (SubgraphPoolBase.poolType pool)) pool
       virtualBoostedPools = Normal (calls pool)) →
  (∀ pool, pool ∈ pools → supported pool = true → ∀ rd i, 0 ≤ i →
     decodeOnChainCalls (onChainPools (SubgraphPoolBase.poolType pool)) pool rd i
       virtualBoostedPools
     = Normal (decode pool (take (length (calls pool)) (drop (Z.to_nat i) rd)),
               i + Z.of_nat (length (calls pool)))) →
  fetch pools bn
  = Normal (foldl (fun acc pool => decode pool (map exec (calls pool)) ∪ acc) ∅
              (List.filter supported pools)).
Proof.
  intros Hexec Hcalls Hdecode. unfold getOnChainState.
  set (cis := fun pool => if supported pool then calls pool else []).
  rewrite (mapCompletion_Normal _ cis).
  2: { intros pool Hp. unfold poolCalls, cis.
       destruct (supported pool) eqn:Hs; simpl; [by apply Hcalls | done]. }
  cbn [mbind completion_mbind completion_bind].
  rewrite (mapCompletion_Normal _ (map exec)) by (intros cs _; apply Hexec).
  cbn [mbind completion_mbind completion_bind].
  rewrite concat_map_map, chunk_concat.
  assert (Hloop : ∀ ps pre acc,
            (∀ pool, pool ∈ ps → pool ∈ pools) →
            decodePools onChainPools virtualBoostedPools
              (map exec (pre ++ concat (map cis ps)))
              (acc, Z.of_nat (length pre)) ps
            = Normal (foldl (fun acc pool => decode pool (map exec (calls pool)) ∪ acc)
                         acc (List.filter supported ps),
                      Z.of_nat (length (pre ++ concat (map cis ps))))).
  { induction ps as [|pool rest IH]; intros pre acc Hsub.
    - simpl. by rewrite app_nil_r.
    - cbn [decodePools map concat List.filter].
      unfold decodePool at 1. unfold cis at 1 3 5.
      destruct (supported pool) eqn:Hs; cbn [negb].
      + rewrite (Hdecode pool) by (try lia; try done; apply Hsub; by left).
        cbn [mbind completion_mbind completion_bind].
        rewrite Nat2Z.id, map_app, drop_app_length'
          by (by rewrite length_map).
        rewrite map_app, take_app_length' by (by rewrite length_map).
        replace (Z.of_nat (length pre) + Z.of_nat (length (calls pool)))
          with (Z.of_nat (length (pre ++ calls pool)))
          by (rewrite length_app; lia).
        replace (map exec pre ++
                 map exec (calls pool) ++ map exec (concat (map cis rest)))
          with (map exec ((pre ++ calls pool) ++ concat (map cis rest)))
          by (by rewrite <- app_assoc, !map_app).
        rewrite IH by (intros p Hp; apply Hsub; by right).
        by rewrite <- app_assoc.
      + cbn [mbind completion_mbind completion_bind app].
        rewrite IH by (intros p Hp; apply Hsub; by right). done. }
  specialize (Hloop pools [] ∅ (fun _ H => H)).
  change (Z.of_nat (length (@nil Call))) with 0 in Hloop.
  change ([] ++ concat (map cis pools)) with (concat (map cis pools)) in Hloop.
  rewrite Hloop. done.
Qed.

Lemma chunkFuel_sizes {A} (n : nat) : ∀ fuel (l : list A),
  Forall (fun c => (0 < length c ≤ S n)%nat) (chunkFuel fuel (S n) l).
Proof.
  induction fuel as [|fuel IH]; intros l; [constructor|].
  destruct l as [|x l]; [constructor|].
  change (chunkFuel (S fuel) (S n) (x :: l))
    with (take (S n) (x :: l) :: chunkFuel fuel (S n) (drop (S n) (x :: l))).
  constructor; [|apply IH]. rewrite length_take. simpl. lia.
Qed.

Lemma mapCompletion_ext {A B} (f g : A -> completion B) (l : list A) :
  (∀ x, x ∈ l → f x = g x) → mapCompletion f l = mapCompletion g l.
Proof.
  induction l as [|x l IH]; intros H; [done|]. simpl.
  rewrite (H x) by (by left). rewrite IH; [done|].
  intros y Hy. apply H. by right.
Qed.

End OnChainFacts.

(** X10.  [getOnChainState] uses the executor only on batches of 1 to 500
    calls at the requested block number: two executors that agree on these
    give the same result, a failure included. *)
Theorem getOnChainState_batches {Call Result : Type}
    (onChainPools : string -> OnChainPool Call Result)
    (virtualBoostedPools : BoostedPools)
    (tryAggregate tryAggregate' : list Call -> Z -> completion (list Result))
    (pools : list SubgraphPoolBase.t) (bn : Z) :
  (∀ cs, (0 < length cs ≤ 500)%nat → tryAggregate cs bn = tryAggregate' cs bn) →
  getOnChainState onChainPools virtualBoostedPools tryAggregate pools bn
  = getOnChainState onChainPools virtualBoostedPools tryAggregate' pools bn.
Proof.
  intros H. unfold getOnChainState.
  destruct (mapCompletion _ pools) as [calls|]; [|done].
  cbn [mbind completion_mbind completion_bind].
  rewrite (mapCompletion_ext _ (fun cs => tryAggregate' cs bn)); [done|].
  intros cs Hcs. apply H.
  pose proof (chunkFuel_sizes 499 (length (concat calls)) (concat calls)) as HF.
  rewrite Forall_forall in HF. by apply HF.
Qed.

(** ** Generating the first snapshot *)

Lemma eventSupported_supported pool :
  SubgraphPoolBase.poolType pool ∈ eventSupportedPoolTypes →
  isSupportedPool (SubgraphPoolBase.poolType pool) = true.
Proof.
  intros H. apply bool_decide_eq_true. unfold eventSupportedPoolTypes in H.
  unfold BalancerPoolTypes.
  repeat (apply elem_of_cons in H as [->|H]; [set_solver|]).
  by apply elem_of_nil in H.
Qed.

Lemma isEventSupported_true pool :
  isEventSupported pool = true ↔
  SubgraphPoolBase.poolType pool ∈ eventSupportedPoolTypes.
Proof.
  unfold isEventSupported, eventRemovedPools.
  rewrite andb_true_iff, bool_decide_eq_true. split; [by intros [? _]|].
  intros H. split; [done|]. apply negb_true_iff, bool_decide_eq_false.
  apply not_elem_of_nil.
Qed.

Lemma filter_filter_implied {A} (f g : A -> bool) (l : list A) :
  (∀ x, g x = true → f x = true) →
  List.filter f (List.filter g l) = List.filter g l.
Proof.
  intros H. induction l as [|x l IH]; [done|]. simpl.
  destruct (g x) eqn:Hg; [|done]. simpl. by rewrite (H x Hg), IH.
Qed.

Lemma list_filter_elem_of {A} (f : A -> bool) (l : list A) x :
  x ∈ List.filter f l ↔ x ∈ l ∧ f x = true.
Proof. by rewrite !list_elem_of_In, filter_In. Qed.

(** X11.  When the pool list and the virtual pools are obtained, the executor
    answers each call on its own and the strategies keep their decoding
    contract, [generateState] records the virtual pools followed by the
    subgraph pools, and returns, stamped with the requested block number, the
    states decoded for exactly the pools of the four event types (Stable,
    Weighted, LiquidityBootstrapping, Investment) among them, none skipped. *)
Theorem generateState_snapshot {Call Result : Type}
    (onChainPools : string -> OnChainPool Call Result)
    (tryAggregate : list Call -> Z -> completion (list Result))
    (fetchAllSubgraphPools : completion (list SubgraphPoolBase.t))
    (createPools :
       list SubgraphPoolBase.t -> completion (BoostedPools * list SubgraphPoolBase.t))
    (calls : SubgraphPoolBase.t -> list Call) (exec : Call -> Result)
    (decode : SubgraphPoolBase.t -> list Result -> PoolStateMap)
    (this : EventPoolFields.t) (bn : Z)
    (subgraphPools virtualPools : list SubgraphPoolBase.t) (dictionary : BoostedPools) :
  fetchAllSubgraphPools = Normal subgraphPools →
  createPools subgraphPools = Normal (dictionary, virtualPools) →
  (∀ cs, tryAggregate cs bn = Normal (map exec cs)) →
  (∀ pool, SubgraphPoolBase.poolType pool ∈ eventSupportedPoolTypes →
     getOnChainCalls (onChainPools (SubgraphPoolBase.poolType pool)) pool dictionary
     = Normal (calls pool)
     ∧ ∀ rd i, 0 ≤ i →
         decodeOnChainCalls (onChainPools (SubgraphPoolBase.poolType pool)) pool rd i
           dictionary
         = Normal (decode pool (take (length (calls pool)) (drop (Z.to_nat i) rd)),
                   i + Z.of_nat (length (calls pool)))) →
  generateState onChainPools tryAggregate fetchAllSubgraphPools createPools this bn
  = (EventPoolFields.mk (virtualPools ++ subgraphPools) dictionary,
     Normal (bn,
             foldl (fun acc pool => decode pool (map exec (calls pool)) ∪ acc) ∅
               (List.filter
                  (fun pool => bool_decide (SubgraphPoolBase.poolType pool
                                            ∈ eventSupportedPoolTypes))
                  (virtualPools ++ subgraphPools)))).
Proof.
  intros Hfetch Hcreate Hexec Hstrategy. unfold generateState.
  rewrite Hfetch, Hcreate. f_equal.
  assert (Hfilter : List.filter (isEventSupported) (virtualPools ++ subgraphPools)
                    = List.filter
                        (fun pool => bool_decide (SubgraphPoolBase.poolType pool
                                                  ∈ eventSupportedPoolTypes))
                        (virtualPools ++ subgraphPools)).
  { apply filter_ext. intros pool.
    destruct (bool_decide_reflect
                (SubgraphPoolBase.poolType pool ∈ eventSupportedPoolTypes)) as [H|H].
    - by apply isEventSupported_true.
    - apply not_true_is_false. by rewrite isEventSupported_true. }
  rewrite Hfilter.
  rewrite (getOnChainState_parity onChainPools dictionary tryAggregate calls exec decode).
  - cbn [mbind completion_mbind completion_bind]. do 2 f_equal.
    rewrite filter_filter_implied; [done|].
    intros pool Hp. apply eventSupported_supported.
    by apply bool_decide_eq_true in Hp.
  - done.
  - intros pool [_ Hp]%list_filter_elem_of _. apply bool_decide_eq_true in Hp.
    by destruct (Hstrategy pool Hp).
  - intros pool [_ Hp]%list_filter_elem_of _. apply bool_decide_eq_true in Hp.
    by destruct (Hstrategy pool Hp).
Qed.

(** ** The pools with most liquidity for a token *)

Lemma foldl_connectors tokenAddress (tokens : list SubgraphToken.t) :
  ∀ acc : list ConnectorToken.t,
  foldl (fun acc token =>
           if decide (Str.toLowerCase (SubgraphToken.address token)
                      ≠ Str.toLowerCase tokenAddress)
           then acc ++ [ConnectorToken.mk (SubgraphToken.decimals token)
                          (Str.toLowerCase (SubgraphToken.address token))]
           else acc)
        acc tokens
  = acc ++ map (fun token => ConnectorToken.mk (SubgraphToken.decimals token)
                               (Str.toLowerCase (SubgraphToken.address token)))
             (List.filter
                (fun token => bool_decide (Str.toLowerCase (SubgraphToken.address token)
                                           ≠ Str.toLowerCase tokenAddress))
                tokens).
Proof.
  induction tokens as [|token rest IH]; intros acc.
  - simpl. by rewrite app_nil_r.
  - cbn [foldl List.filter].
    destruct (decide (Str.toLowerCase (SubgraphToken.address token)
                      ≠ Str.toLowerCase tokenAddress)) as [H|H].
    + rewrite (bool_decide_eq_true_2 _ H). cbn [map]. by rewrite IH, <- app_assoc.
    + rewrite (bool_decide_eq_false_2 _ H). apply IH.
Qed.

Lemma connectorTokensOf_filter tokenAddress pool :
  connectorTokensOf tokenAddress pool
  = map (fun token => ConnectorToken.mk (SubgraphToken.decimals token)
                        (Str.toLowerCase (SubgraphToken.address token)))
        (List.filter
           (fun token => bool_decide (Str.toLowerCase (SubgraphToken.address token)
                                      ≠ Str.toLowerCase tokenAddress))
           (SubgraphPoolBase.tokens pool)).
Proof. unfold connectorTokensOf. by rewrite foldl_connectors. Qed.

Lemma length_sliceTo {A} (count : Z) (l : list A) :
  0 ≤ count → (length (sliceTo count l) ≤ Z.to_nat count)%nat.
Proof.
  intros H. unfold sliceTo. rewrite decide_True by done.
  rewrite length_take. lia.
Qed.

Lemma sliceTo_elem_of {A} (count : Z) (l : list A) x :
  x ∈ sliceTo count l → x ∈ l.
Proof.
  unfold sliceTo. case_decide; intros Hx; by eapply subseteq_take.
Qed.

(** X12.  Given a pool list (held already, or loaded by [updatePoolState]),
    [getTopPoolsForToken] returns at most [count] entries for a [count] that is
    not negative, in the order of the list; each is for a pool of the list that
    holds the token, carries the exchange key and the lower-cased pool address,
    and its connector tokens are the pool's tokens other than the requested
    one, lower-cased and in order, so none of them is the requested token.  When
    no list is held and loading fails, the call fails and still holds none. *)
Theorem getTopPoolsForToken_entries {F : Type} (dexKey : string)
    (liquidityOf : SubgraphPoolBase.t -> F)
    (updatePoolState : completion (list SubgraphPoolBase.t))
    (allPools : option (list SubgraphPoolBase.t)) (tokenAddress : string) (count : Z) :
  let r := getTopPoolsForToken dexKey liquidityOf updatePoolState allPools
             tokenAddress count in
  (∀ l, allPools = Some l ∨ (allPools = None ∧ updatePoolState = Normal l) →
     ∃ rs, r = (Some l, Normal rs)
           ∧ (0 ≤ count → (length rs ≤ Z.to_nat count)%nat)
           ∧ Forall
               (fun e =>
                  PoolLiquidity.exchange e = dexKey
                  ∧ Forall (fun c => ConnectorToken.address c
                                     ≠ Str.toLowerCase tokenAddress)
                      (PoolLiquidity.connectorTokens e)
                  ∧ ∃ pool,
                      pool ∈ l ∧ hasToken tokenAddress pool = true
                      ∧ PoolLiquidity.address e
                        = Str.toLowerCase (SubgraphPoolBase.address pool)
                      ∧ PoolLiquidity.liquidityUSD e = liquidityOf pool
                      ∧ PoolLiquidity.connectorTokens e
                        = map (fun token =>
                                 ConnectorToken.mk (SubgraphToken.decimals token)
                                   (Str.toLowerCase (SubgraphToken.address token)))
                            (List.filter
                               (fun token =>
                                  bool_decide
                                    (Str.toLowerCase (SubgraphToken.address token)
                                     ≠ Str.toLowerCase tokenAddress))
                               (SubgraphPoolBase.tokens pool)))
               rs)
  ∧ (allPools = None → updatePoolState = Abrupt → r = (None, Abrupt)).
Proof.
  intros r. subst r. split.
  - intros l Hl. unfold getTopPoolsForToken.
    assert (match allPools with Some l0 => Normal l0 | None => updatePoolState end
            = Normal l) as ->.
    { by destruct Hl as [->|[-> ->]]. }
    eexists. split; [reflexivity|]. split.
    + intros Hc. rewrite length_map. by apply length_sliceTo.
    + apply Forall_fmap, Forall_forall. intros pool Hp.
      apply sliceTo_elem_of, list_filter_elem_of in Hp as [Hp Hhas].
      split; [done|]. split.
      * simpl. rewrite connectorTokensOf_filter.
        apply Forall_fmap, Forall_forall. intros token Ht. simpl.
        apply list_filter_elem_of in Ht as [_ Ht]. by apply bool_decide_eq_true in Ht.
      * exists pool. simpl. by rewrite connectorTokensOf_filter.
  - intros -> Hup. unfold getTopPoolsForToken. by rewrite Hup.
Qed.

(** ** More on the quoting interface *)

Lemma list_filter_sublist {A} (f : A -> bool) (l : list A) :
  List.filter f l `sublist_of` l.
Proof.
  induction l as [|x l IH]; [constructor|]. simpl.
  destruct (f x); [by apply sublist_skip | by apply sublist_cons].
Qed.

Lemma list_filter_nil {A} (f : A -> bool) (l : list A) :
  (∀ x, x ∈ l → f x = false) → List.filter f l = [].
Proof.
  induction l as [|x l IH]; intros H; [done|]. simpl.
  rewrite (H x) by (by left). apply IH. intros y Hy. apply H. by right.
Qed.

Lemma length_list_filter {A} (f : A -> bool) (l : list A) :
  (length (List.filter f l) ≤ length l)%nat.
Proof. apply sublist_length, list_filter_sublist. Qed.

Lemma length_omap_le {A B} (f : A -> option B) (l : list A) :
  (length (omap f l) ≤ length l)%nat.
Proof.
  induction l as [|x l IH]; [done|].
  change (omap f (x :: l))
    with (match f x with Some y => y :: omap f l | None => omap f l end).
  destruct (f x); cbn [length]; lia.
Qed.

Section QuoteMore.
Context {PoolPairData : Type}.
Variable dexKey : string.
Variable wrapETH : Token.t -> Token.t.
Variable allPools : list SubgraphPoolBase.t.
Variable virtualBoostedPools : BoostedPools.
Variable pools : string -> BasePool PoolPairData.
Variable getState : Z -> option PoolStateMap.
Variable eventDisabledPools : list string.

Local Abbreviation quoteWith getOnChainState :=
  (getPricesVolume dexKey wrapETH allPools virtualBoostedPools pools getState
     getOnChainState eventDisabledPools).
Local Abbreviation allowed := (allowedPools dexKey wrapETH allPools virtualBoostedPools).
Local Abbreviation price := (pricePool dexKey virtualBoostedPools pools).
Local Abbreviation identifiers := (getPoolIdentifiers dexKey wrapETH allPools).

(** X13.  [getPools] returns at most ten pools, in the order of the pool
    list and each holding both tokens (addresses compared without regard to
    case); it does not depend on which token is the source; and when at most
    ten pools hold both tokens it returns all of them. *)
Theorem getPools_candidates (from to : Token.t) :
  (length (getPools allPools from to) ≤ 10)%nat
  ∧ getPools allPools from to `sublist_of` allPools
  ∧ Forall (fun p => hasToken (Token.address from) p = true
                     ∧ hasToken (Token.address to) p = true)
      (getPools allPools from to)
  ∧ getPools allPools from to = getPools allPools to from
  ∧ ((length (List.filter (fun p => hasToken (Token.address from) p
                                    && hasToken (Token.address to) p) allPools)
      ≤ 10)%nat →
     ∀ p, p ∈ allPools → hasToken (Token.address from) p = true →
          hasToken (Token.address to) p = true → p ∈ getPools allPools from to).
Proof.
  unfold getPools. split; [rewrite length_take; apply Nat.le_min_l|].
  split; [|split; [|split]].
  - etrans; [apply sublist_take | apply list_filter_sublist].
  - apply Forall_forall. intros p Hp.
    apply subseteq_take, list_filter_elem_of in Hp as [_ Hp].
    by apply andb_true_iff in Hp.
  - f_equal. apply filter_ext. intros p. apply andb_comm.
  - intros Hlen p Hp Hf Ht. rewrite take_ge by done.
    apply list_filter_elem_of. split; [done|]. by rewrite Hf, Ht.
Qed.

Lemma allowed_sublist from to limitPools :
  allowed from to limitPools `sublist_of` getPools allPools (wrapETH from) (wrapETH to).
Proof.
  unfold allowedPools. destruct limitPools; [apply list_filter_sublist | done].
Qed.

Lemma getPricesPool_Some _from _to pool states amounts unitVolume side r :
  getPricesPool pools virtualBoostedPools _from _to pool states amounts unitVolume side
  = Normal (Some r) →
  isSupportedPool (SubgraphPoolBase.poolType pool) = true
  ∧ ∃ rest, PricesPool.prices r = 0 :: rest.
Proof.
  unfold getPricesPool. intros H.
  destruct (isSupportedPool _); [|done]. split; [done|]. simpl in H.
  destruct (parsePoolPairData _ _ _ _ _ _) as [pd|]; [|done]. simpl in H.
  destruct (checkBalance _ _ _ _ _) as [[]|]; try done. simpl in H.
  destruct (onSell _ _ _) as [ps|]; [|done]. simpl in H.
  injection H as <-. by eexists.
Qed.

(** The quote of the SELL side over a non-empty candidate list, in one
    expression. *)
Lemma getPricesVolume_SELL getOnChainState from to amounts bn limitPools cache :
  allowed from to limitPools ≠ [] →
  let eventPoolStates := dropDisabled eventDisabledPools (getState bn) in
  let cached := cachedAt bn cache in
  let missing := missingPools (allowed from to limitPools) eventPoolStates cached in
  let prices nonEvent :=
    omap (price (wrapETH from) (wrapETH to) amounts
            (getBigIntPow (Token.decimals (wrapETH from))) SELL
            eventPoolStates nonEvent (nonEvent ∪ default ∅ (getState bn)))
      (allowed from to limitPools) in
  quoteWith getOnChainState from to amounts SELL bn limitPools cache
  = match missing with
    | [] => (mkPoolStateCache (blockNumber cache) cached, Some (prices cached))
    | _ =>
        match getOnChainState missing bn with
        | Abrupt => (mkPoolStateCache (blockNumber cache) cached, None)
        | Normal fetched =>
            (mkPoolStateCache bn (fetched ∪ cached), Some (prices (fetched ∪ cached)))
        end
    end.
Proof.
  intros Hne eventPoolStates cached missing prices. unfold getPricesVolume.
  rewrite decide_False by done.
  rewrite decide_False by (by destruct (allowed from to limitPools)).
  rewrite decide_True by done.
  assert (Hget : getNonEventPoolStateCache bn cache
                 = (mkPoolStateCache (blockNumber cache) cached, cached)).
  { unfold getNonEventPoolStateCache, cached, cachedAt.
    destruct (decide (blockNumber cache = bn)) as [E|E].
    - rewrite decide_False by (by intros ?). by destruct cache.
    - by rewrite decide_True. }
  rewrite Hget. fold eventPoolStates. fold missing.
  destruct missing as [|m ms] eqn:Hm.
  - rewrite decide_False by (simpl; lia). done.
  - rewrite decide_True by (simpl; lia).
    destruct (getOnChainState (m :: ms) bn) as [fetched|]; [|done].
    cbn [mbind completion_mbind completion_bind].
    unfold updateNonEventPoolStateCache. cbn [blockNumber poolState].
    unfold cached, cachedAt.
    destruct (decide (blockNumber cache = bn)) as [E|E].
    + rewrite decide_False by (by intros ?). cbn [blockNumber poolState fst snd].
      by rewrite E.
    + rewrite decide_True by done. cbn [blockNumber poolState].
      by rewrite (right_id_L ∅ (∪)).
Qed.

Lemma pricePool_entry _from _to amounts unitVolume side ev nonEv complete pool e :
  price _from _to amounts unitVolume side ev nonEv complete pool = Some e →
  PoolPrices.exchange e = dexKey
  ∧ PoolPrices.poolIdentifier e = dexKey +:+ "_" +:+ PoolPrices.poolId e
  ∧ PoolPrices.poolId e = SubgraphPoolBase.id pool
  ∧ (∃ rest, PoolPrices.prices e = 0 :: rest)
  ∧ isSupportedPool (SubgraphPoolBase.poolType pool) = true
  ∧ head (PoolPrices.poolAddresses e)
    = Some (Str.toLowerCase (SubgraphPoolBase.address pool)).
Proof.
  unfold pricePool. intros H.
  destruct (ev !! _ ∪ nonEv !! _) as [st|]; [|done].
  destruct (getPricesPool _ _ _ _ _ _ _ _ _) as [[r|]|] eqn:E; try done.
  apply getPricesPool_Some in E as [Hs Hp].
  injection H as <-. simpl. done.
Qed.

(** X14.  Every list [getPricesVolume] returns has at most ten elements, in
    the order of the candidates, and each element is for a candidate pool of
    a supported type: it names the exchange, its pool identifier is the
    exchange key, an underscore and the pool id, its first pool address is the
    lower-cased address of the pool, and its prices start with 0. *)
Theorem getPricesVolume_entries getOnChainState (from to : Token.t) (amounts : list Z)
    (side : SwapSide) (bn : Z) (limitPools : option (list string))
    (cache cache' : PoolStateCache PoolState) (res : list PoolPrices.t) :
  quoteWith getOnChainState from to amounts side bn limitPools cache
  = (cache', Some res) →
  (length res ≤ 10)%nat
  ∧ Forall
      (fun e =>
         PoolPrices.exchange e = dexKey
         ∧ PoolPrices.poolIdentifier e = dexKey +:+ "_" +:+ PoolPrices.poolId e
         ∧ (∃ rest, PoolPrices.prices e = 0 :: rest)
         ∧ ∃ pool, pool ∈ getPools allPools (wrapETH from) (wrapETH to)
                   ∧ isSupportedPool (SubgraphPoolBase.poolType pool) = true
                   ∧ PoolPrices.poolId e = SubgraphPoolBase.id pool
                   ∧ head (PoolPrices.poolAddresses e)
                     = Some (Str.toLowerCase (SubgraphPoolBase.address pool)))
      res.
Proof.
  intros H. apply getPricesVolume_Some in H as (_ & _ & _ & ->). split.
  - etrans; [apply length_omap_le|].
    etrans; [apply sublist_length, allowed_sublist|].
    apply (getPools_candidates (wrapETH from) (wrapETH to)).
  - apply Forall_forall. intros e (pool & Hpool & Hprice)%list_elem_of_omap.
    apply pricePool_entry in Hprice as (He & Hi & Hid & Hp & Hs & Ha).
    repeat split; try done. exists pool. repeat split; try done.
    by apply (sublist_subseteq _ _ (allowed_sublist from to limitPools)).
Qed.

(** X15.  [getPricesVolume] returns [null] exactly when the side is BUY, or
    no candidate is left, or states are missing and the read from the chain
    throws; a strategy that throws or rejects only drops its pool from the
    list. *)
Theorem getPricesVolume_null getOnChainState (from to : Token.t) (amounts : list Z)
    (side : SwapSide) (bn : Z) (limitPools : option (list string))
    (cache : PoolStateCache PoolState) :
  let missing := missingPools (allowed from to limitPools)
                   (dropDisabled eventDisabledPools (getState bn))
                   (cachedAt bn cache) in
  (quoteWith getOnChainState from to amounts side bn limitPools cache).2 = None
  ↔ side = BUY
    ∨ allowed from to limitPools = []
    ∨ (missing ≠ [] ∧ getOnChainState missing bn = Abrupt).
Proof.
  intros missing. destruct side.
  2: { split; [by left | done]. }
  destruct (allowed from to limitPools) as [|p l] eqn:Ha.
  { unfold getPricesVolume. rewrite Ha. simpl. split; [by right; left | done]. }
  rewrite (getPricesVolume_SELL getOnChainState from to amounts bn limitPools cache)
    by (by rewrite Ha).
  rewrite Ha. fold missing.
  destruct missing as [|m ms] eqn:Hm.
  - simpl. split; [done|]. intros [?|[?|[? _]]]; done.
  - destruct (getOnChainState (m :: ms) bn) as [fetched|]; simpl.
    + split; [done|]. intros [?|[?|[_ ?]]]; done.
    + split; [|done]. intros _. right. right. done.
Qed.

(** X16.  A quote that returned a list can be asked again on the cache it
    left: provided the read from the chain returned a state for every pool it
    was asked for, the second quote needs no read from the chain (it is the
    same whatever the reader would do), returns the same list and leaves the
    cache as it is. *)
Theorem getPricesVolume_again getOnChainState getOnChainState'
    (from to : Token.t) (amounts : list Z) (side : SwapSide) (bn : Z)
    (limitPools : option (list string))
    (cache cache' : PoolStateCache PoolState) (res : list PoolPrices.t) :
  let missing := missingPools (allowed from to limitPools)
                   (dropDisabled eventDisabledPools (getState bn))
                   (cachedAt bn cache) in
  (∀ fetched, getOnChainState missing bn = Normal fetched →
     ∀ pool, pool ∈ missing →
       is_Some (fetched !! Str.toLowerCase (SubgraphPoolBase.address pool))) →
  quoteWith getOnChainState from to amounts side bn limitPools cache
  = (cache', Some res) →
  quoteWith getOnChainState' from to amounts side bn limitPools cache'
  = (cache', Some res).
Proof.
  intros missing Hcover H.
  pose proof (getPricesVolume_Some _ _ _ _ _ _ _ _ _ _ _ _ _ _ _ _ _ H)
    as (-> & Hne & _ & _).
  rewrite (getPricesVolume_SELL getOnChainState) in H by done.
  rewrite (getPricesVolume_SELL getOnChainState') by done.
  fold missing in H.
  destruct missing as [|m ms] eqn:Hm.
  - injection H as <- <-.
    assert (cachedAt bn (mkPoolStateCache (blockNumber cache) (cachedAt bn cache))
            = cachedAt bn cache) as Hc.
    { unfold cachedAt. simpl. by case_decide. }
    rewrite Hc. fold missing. rewrite Hm. done.
  - destruct (getOnChainState (m :: ms) bn) as [fetched|] eqn:Hf; [|done].
    injection H as <- <-.
    assert (cachedAt bn (mkPoolStateCache bn (fetched ∪ cachedAt bn cache))
            = fetched ∪ cachedAt bn cache) as Hc.
    { unfold cachedAt at 1. simpl. by rewrite decide_True. }
    rewrite Hc.
    assert (missingPools (allowed from to limitPools)
              (dropDisabled eventDisabledPools (getState bn))
              (fetched ∪ cachedAt bn cache) = []) as ->; [|done].
    apply list_filter_nil. intros pool Hpool.
    apply negb_false_iff, orb_true_iff.
    destruct (bool_decide_reflect
                (is_Some (dropDisabled eventDisabledPools (getState bn)
                            !! Str.toLowerCase (SubgraphPoolBase.address pool))))
      as [He|He]; [by left|]. right.
    apply bool_decide_eq_true.
    destruct (bool_decide_reflect
                (is_Some (cachedAt bn cache
                            !! Str.toLowerCase (SubgraphPoolBase.address pool))))
      as [[st Hst]|Hn].
    + destruct (fetched !! Str.toLowerCase (SubgraphPoolBase.address pool))
        as [st'|] eqn:Hst'.
      * exists st'. by apply lookup_union_Some_l.
      * exists st. rewrite lookup_union_r by done. done.
    + destruct (Hcover fetched eq_refl pool) as [st Hst].
      * rewrite <- Hm. unfold missing, missingPools.
        apply list_filter_elem_of. split; [done|].
        rewrite (bool_decide_eq_false_2 _ He), (bool_decide_eq_false_2 _ Hn). done.
      * exists st. by apply lookup_union_Some_l.
Qed.

Lemma list_filter_all {A} (f : A -> bool) (l : list A) :
  (∀ x, x ∈ l → f x = true) → List.filter f l = l.
Proof.
  induction l as [|x l IH]; intros H; [done|]. simpl.
  rewrite (H x) by (by left). f_equal. apply IH. intros y Hy. apply H. by right.
Qed.

Lemma poolIdentifiers_reported from to bn pool i :
  pool ∈ getPools allPools (wrapETH from) (wrapETH to) →
  i ∈ poolIdentifiers dexKey pool →
  i ∈ identifiers from to SELL bn.
Proof.
  intros Hp Hi. unfold getPoolIdentifiers. rewrite decide_False by done.
  apply list_elem_of_In, in_concat. exists (poolIdentifiers dexKey pool).
  split; [|by apply list_elem_of_In]. apply in_map. by apply list_elem_of_In.
Qed.

(** X17.  Handing the identifiers [getPoolIdentifiers] reports back as the
    allow-list keeps every candidate, as if no list were given, provided the
    group of each candidate that has one belongs to a descriptor of the
    VirtualBoosted type whose tokens name the linear pools of the group. *)
Theorem allowedPools_reported_identifiers (from to : Token.t) (bn : Z) :
  (∀ pool group,
     pool ∈ getPools allPools (wrapETH from) (wrapETH to) →
     boostedGroup virtualBoostedPools pool = Some group →
     SubgraphPoolBase.poolType pool = "VirtualBoosted"%string
     ∧ map (fun t => Some (SubgraphMainToken.linearPoolAddr t))
           (BoostedPool.mainTokens group)
       = map SubgraphToken.linearPoolAddr (SubgraphPoolBase.tokens pool)) →
  allowed from to (Some (identifiers from to SELL bn)) = allowed from to None.
Proof.
  intros Hgroups. unfold allowedPools. apply list_filter_all. intros pool Hp.
  apply poolIdentifiers_pass.
  - intros i Hi. by apply (poolIdentifiers_reported from to bn pool).
  - intros group Hg. by apply Hgroups.
Qed.

(** X18.  Every pool [getPricesVolume] quotes was reported by
    [getPoolIdentifiers] for the same pair: the exchange key, an underscore
    and the first pool address of each element of the price list is one of the
    identifiers. *)
Theorem getPricesVolume_reported getOnChainState (from to : Token.t)
    (amounts : list Z) (side : SwapSide) (bn bn' : Z)
    (limitPools : option (list string))
    (cache cache' : PoolStateCache PoolState) (res : list PoolPrices.t) :
  quoteWith getOnChainState from to amounts side bn limitPools cache
  = (cache', Some res) →
  Forall (fun e => ∃ a, head (PoolPrices.poolAddresses e) = Some a
                        ∧ dexKey +:+ "_" +:+ a ∈ identifiers from to SELL bn')
    res.
Proof.
  intros H. apply getPricesVolume_entries in H as [_ H].
  eapply Forall_impl; [exact H|]. intros e (_ & _ & _ & pool & Hp & _ & _ & Ha).
  exists (Str.toLowerCase (SubgraphPoolBase.address pool)). split; [done|].
  apply (poolIdentifiers_reported from to bn' pool); [done|].
  unfold poolIdentifiers. case_decide; apply list_elem_of_here.
Qed.

End QuoteMore.

(** ** What a log does to a snapshot *)

Lemma poolState_eq (p q : PoolState) :
  tokens p = tokens q → swapFee p = swapFee q → amp p = amp q → p = q.
Proof. destruct p, q. simpl. by intros -> -> ->. Qed.

Lemma creditMoves_Some moves : ∀ pool pool',
  creditMoves moves pool = Some pool' →
  swapFee pool' = swapFee pool ∧ amp pool' = amp pool
  ∧ ∀ t, tokens pool' !! t = credit (movesOn t moves) <$> tokens pool !! t.
Proof.
  induction moves as [|[t0 d] rest IH]; intros pool pool' H.
  - injection H as <-. repeat split; try done. intros t. simpl.
    destruct (tokens pool !! t); simpl; [by rewrite credit_zero | done].
  - simpl in H. destruct (tokens pool !! t0) as [ts0|] eqn:H0; [|done]. simpl in H.
    destruct (IH _ _ H) as (Hf & Ha & Ht). split; [done|]. split; [done|].
    intros t. rewrite Ht. simpl. rewrite (lookup_credited _ _ _ _ t H0).
    destruct (tokens pool !! t); simpl; [by rewrite credit_credit | done].
Qed.

Lemma creditMoves_is_Some moves : ∀ pool,
  is_Some (creditMoves moves pool) ↔ ∀ m, m ∈ moves → is_Some (tokens pool !! m.1).
Proof.
  induction moves as [|[t0 d] rest IH]; intros pool.
  - simpl. split; [|done]. intros _ m Hm. by apply elem_of_nil in Hm.
  - cbn [creditMoves]. destruct (tokens pool !! t0) as [ts0|] eqn:H0;
      cbn [mbind option_bind].
    + rewrite IH. split.
      * intros H m [->|Hm]%elem_of_cons; [simpl; by rewrite H0|].
        specialize (H m Hm). simpl in H.
        rewrite (lookup_credited _ _ _ _ _ H0), fmap_is_Some in H. done.
      * intros H m Hm. simpl.
        rewrite (lookup_credited _ _ _ _ _ H0), fmap_is_Some. apply H. by right.
    + split; [by intros [? ?]|]. intros H.
      specialize (H (t0, d) (list_elem_of_here _ _)). simpl in H.
      rewrite H0 in H. by destruct H.
Qed.

Lemma handleSwap_moves {Log : Type} (event : LogDescription) (log : Log) pool :
  returned (handleSwap event log pool)
  = match swapMoves event with
    | Normal mv => creditMoves mv pool
    | Abrupt => None
    end.
Proof.
  unfold handleSwap, swapMoves, mut_bind, lift.
  destruct (tokenIn (args event)) as [tin|]; [|done].
  destruct (amountIn (args event)) as [ain|]; [|done].
  destruct (tokenOut (args event)) as [tout|]; [|done].
  destruct (amountOut (args event)) as [aout|]; [|done].
  cbn [fmap option_fmap option_map defined mbind completion_mbind completion_bind
       creditMoves].
  destruct (tokens pool !! Str.toLowerCase tin) as [ti|] eqn:Hi.
  2: { by rewrite modifyBalance_absent. }
  rewrite (modifyBalance_add _ _ ain _ _ (fun _ => eq_refl) Hi).
  cbn [mbind option_bind].
  set (pool1 := setTokens _ pool).
  destruct (tokens pool1 !! Str.toLowerCase tout) as [to|] eqn:Ho.
  2: { by rewrite modifyBalance_absent. }
  rewrite (modifyBalance_add _ _ (- aout) _ _ (fun b => eq_sym (Z.add_opp_r b aout)) Ho).
  done.
Qed.

Lemma forEachToken_moves ts : ∀ i ds fs pool,
  returned (forEachToken i ts ds fs pool)
  = match listedMoves i ts ds fs with
    | Normal mv => creditMoves mv pool
    | Abrupt => None
    end.
Proof.
  induction ts as [|t ts IH]; intros i ds fs pool; [done|].
  cbn [forEachToken listedMoves]. unfold mut_bind at 1, lift.
  destruct (ds !! i) as [d|]; [|done].
  unfold mut_bind at 1.
  destruct (fs !! i) as [f|]; [|done].
  unfold mut_bind at 1.
  cbn [defined mbind completion_mbind completion_bind].
  destruct (tokens pool !! t) as [ts0|] eqn:H0.
  - rewrite (modifyBalance_add _ _ (d - f) _ _ (fun _ => eq_refl) H0).
    rewrite IH. destruct (listedMoves (S i) ts ds fs) as [mv|]; [|done].
    simpl. by rewrite H0.
  - rewrite modifyBalance_absent by done.
    destruct (listedMoves (S i) ts ds fs) as [mv|]; [|done].
    simpl. by rewrite H0.
Qed.

Lemma handlePoolBalanceChanged_moves {Log : Type} (event : LogDescription)
    (log : Log) pool :
  returned (handlePoolBalanceChanged event log pool)
  = match balanceChangedMoves event with
    | Normal mv => creditMoves mv pool
    | Abrupt => None
    end.
Proof.
  unfold handlePoolBalanceChanged, balanceChangedMoves, mut_bind, lift.
  destruct (tokensArg (args event)) as [ts|]; [|done].
  destruct (deltas (args event)) as [ds|]; [|done].
  destruct (protocolFeeAmounts (args event)) as [fs|]; [|done].
  apply forEachToken_moves.
Qed.

Section EffectFacts.
Context {Log : Type}.
Variable vaultDecoder : Log -> completion LogDescription.
Implicit Types (log : Log) (state : PoolStateMap).

(** [processLog] does to a snapshot what the log amounts to. *)
Lemma processLog_effect state log :
  processLog vaultDecoder state log = runEffect (logEffect vaultDecoder log) state.
Proof.
  unfold logEffect.
  destruct (vaultDecoder log) as [event|] eqn:Hd.
  2: { by apply processLog_decode_fails. }
  unfold eventMoves.
  destruct (decide (name event = "PoolBalanceChanged"%string)) as [Hn|Hn].
  - destruct (poolId (args event)) as [pid|] eqn:Hp.
    2: { apply (processLog_no_pool_id _ _ _ event); try done.
         exists handlePoolBalanceChanged. apply handlers_lookup. by right. }
    simpl. destruct (state !! poolAddressOf pid) as [pool|] eqn:Hs.
    2: { by apply (processLog_untracked _ _ _ event pid). }
    rewrite (processLog_handled _ state log event handlePoolBalanceChanged pid pool);
      try done; [|apply handlers_lookup; by right].
    pose proof (handlePoolBalanceChanged_moves event log pool) as Hm.
    destruct (handlePoolBalanceChanged event log pool) as [pool' [[]|]];
      simpl in Hm; destruct (balanceChangedMoves event) as [mv|]; try done;
      by rewrite <- Hm.
  - destruct (decide (name event = "Swap"%string)) as [Hn'|Hn'].
    + destruct (poolId (args event)) as [pid|] eqn:Hp.
      2: { apply (processLog_no_pool_id _ _ _ event); try done.
           exists handleSwap. apply handlers_lookup. by left. }
      simpl. destruct (state !! poolAddressOf pid) as [pool|] eqn:Hs.
      2: { by apply (processLog_untracked _ _ _ event pid). }
      rewrite (processLog_handled _ state log event handleSwap pid pool);
        try done; [|apply handlers_lookup; by left].
      pose proof (handleSwap_moves event log pool) as Hm.
      destruct (handleSwap event log pool) as [pool' [[]|]];
        simpl in Hm; destruct (swapMoves event) as [mv|]; try done;
        by rewrite <- Hm.
    + apply (processLog_unrecognized _ _ _ event Hd).
      by apply handlers_unrecognized.
Qed.

End EffectFacts.

Lemma movesOn_app t m1 m2 : movesOn t (m1 ++ m2) = movesOn t m1 + movesOn t m2.
Proof. induction m1 as [|[t' d] m1 IH]; simpl; [done|]. rewrite IH. lia. Qed.

Lemma creditMoves_app m1 : ∀ m2 pool,
  creditMoves (m1 ++ m2) pool = creditMoves m1 pool ≫= creditMoves m2.
Proof.
  induction m1 as [|[t d] m1 IH]; intros m2 pool; [done|].
  cbn [app creditMoves]. destruct (tokens pool !! t); cbn [mbind option_bind]; [|done].
  apply IH.
Qed.

Lemma creditMoves_ext m1 m2 pool :
  (∀ t, movesOn t m1 = movesOn t m2) →
  ((∀ m, m ∈ m1 → is_Some (tokens pool !! m.1))
   ↔ (∀ m, m ∈ m2 → is_Some (tokens pool !! m.1))) →
  creditMoves m1 pool = creditMoves m2 pool.
Proof.
  intros Hsum Hdom. rewrite <- !creditMoves_is_Some in Hdom.
  destruct (creditMoves m1 pool) as [p1|] eqn:E1,
           (creditMoves m2 pool) as [p2|] eqn:E2.
  - destruct (creditMoves_Some _ _ _ E1) as (F1 & A1 & T1).
    destruct (creditMoves_Some _ _ _ E2) as (F2 & A2 & T2).
    f_equal. apply poolState_eq; [|congruence..].
    apply map_eq. intros t. by rewrite T1, T2, Hsum.
  - exfalso. destruct (proj1 Hdom) as [? ?]; [by eexists | done].
  - exfalso. destruct (proj2 Hdom) as [? ?]; [by eexists | done].
  - done.
Qed.

Lemma creditMoves_comm m1 m2 pool :
  creditMoves m1 pool ≫= creditMoves m2 = creditMoves m2 pool ≫= creditMoves m1.
Proof.
  rewrite <- !creditMoves_app. apply creditMoves_ext.
  - intros t. rewrite !movesOn_app. lia.
  - split; intros H m Hm; apply H; apply elem_of_app;
      apply elem_of_app in Hm; tauto.
Qed.

Lemma sameToken_credit d ts : sameToken ts (credit d ts).
Proof. done. Qed.

Lemma samePool_refl p : samePool p p.
Proof.
  repeat split. intros t. destruct (tokens p !! t); by constructor.
Qed.

Lemma sameShape_refl s : sameShape s s.
Proof. intros a. destruct (s !! a); constructor. apply samePool_refl. Qed.

Lemma creditMoves_samePool moves pool pool' :
  creditMoves moves pool = Some pool' → samePool pool pool'.
Proof.
  intros H. destruct (creditMoves_Some _ _ _ H) as (F & A & T).
  split; [done|]. split; [done|]. intros t. rewrite T.
  destruct (tokens pool !! t); constructor. apply sameToken_credit.
Qed.

Lemma runEffect_comm (e1 e2 : LogEffect) (s : PoolStateMap) :
  runEffect e1 s ≫= runEffect e2 = runEffect e2 s ≫= runEffect e1.
Proof.
  assert (Hreject : ∀ o : option PoolStateMap, o ≫= runEffect Reject = None)
    by (by intros []).
  assert (Hignore : ∀ o : option PoolStateMap, o ≫= runEffect Ignore = o)
    by (by intros []).
  destruct e1 as [| |a1 c1], e2 as [| |a2 c2];
    rewrite ?Hreject, ?Hignore; try done.
  destruct (decide (a1 = a2)) as [->|Hne].
  - cbn [runEffect]. destruct (s !! a2) as [p|] eqn:Hs.
    2: { cbn [mbind option_bind runEffect]. by rewrite Hs. }
    destruct c1 as [m1|], c2 as [m2|]; cbn [mbind option_bind runEffect fmap option_fmap option_map].
    + pose proof (creditMoves_comm m1 m2 p) as Hc.
      destruct (creditMoves m1 p) as [p1|], (creditMoves m2 p) as [p2|];
        simpl in *; rewrite ?lookup_insert_eq; simpl.
      * rewrite Hc. destruct (creditMoves m1 p2); simpl; [|done].
        by rewrite !insert_insert_eq.
      * by rewrite Hc.
      * by rewrite <- Hc.
      * done.
    + destruct (creditMoves m1 p); simpl; [by rewrite lookup_insert_eq | done].
    + destruct (creditMoves m2 p); simpl; [by rewrite lookup_insert_eq | done].
    + done.
  - assert (Hstep : ∀ a c b s1,
              runEffect (Credit a c) s = Some s1 → b ≠ a → s1 !! b = s !! b).
    { intros a c b s1 H Hb. cbn [runEffect] in H.
      destruct (s !! a) as [p|]; [|by injection H as <-].
      destruct c as [m|]; [|done].
      destruct (creditMoves m p); [|done]. injection H as <-.
      by rewrite lookup_insert_ne. }
    destruct (runEffect (Credit a1 c1) s) as [s1|] eqn:E1,
             (runEffect (Credit a2 c2) s) as [s2|] eqn:E2;
      cbn [mbind option_bind].
    + pose proof (Hstep _ _ a2 _ E1 (not_eq_sym Hne)) as H12.
      pose proof (Hstep _ _ a1 _ E2 Hne) as H21.
      cbn [runEffect] in *. rewrite H12, H21.
      destruct (s !! a1) as [p1|], (s !! a2) as [p2|];
        repeat match goal with
               | H : Some _ = Some _ |- _ => injection H as <-
               | c : completion _ |- _ => destruct c
               | H : context [creditMoves ?m ?p] |- _ => destruct (creditMoves m p)
               | H : None = Some _ |- _ => discriminate H
               end; cbn [fmap option_fmap option_map] in *;
        repeat match goal with
               | H : Some _ = Some _ |- _ => injection H as <-
               end; try done.
      f_equal. by apply insert_insert_ne.
    + pose proof (Hstep _ _ a2 _ E1 (not_eq_sym Hne)) as H12.
      cbn [runEffect] in *. rewrite H12.
      destruct (s !! a2) as [p2|]; [|done].
      destruct c2 as [m2|]; [|done]. by destruct (creditMoves m2 p2).
    + pose proof (Hstep _ _ a1 _ E2 Hne) as H21.
      cbn [runEffect] in *. rewrite H21.
      destruct (s !! a1) as [p1|]; [|done].
      destruct c1 as [m1|]; [|done]. by destruct (creditMoves m1 p1).
    + done.
Qed.

Lemma eventMoves_Swap pid tin tout ain aout :
  eventMoves (SwapEvent pid tin tout ain aout)
  = Some (Normal [(Str.toLowerCase tin, ain); (Str.toLowerCase tout, - aout)]).
Proof. reflexivity. Qed.

Section LogFacts.
Context {Log : Type}.
Variable vaultDecoder : Log -> completion LogDescription.
Implicit Types (log : Log) (state : PoolStateMap).

(** X19.  A log that applies leaves the snapshot its shape: the same pool
    addresses, each pool with the swap fee and amplification it had and the
    same tokens, and each token with the scaling factor and weight it had.
    Only balances move. *)
Theorem processLog_keeps_shape state log state' :
  processLog vaultDecoder state log = Some state' → sameShape state state'.
Proof.
  rewrite processLog_effect.
  destruct (logEffect vaultDecoder log) as [| |a c]; cbn [runEffect].
  - done.
  - intros [= <-]. apply sameShape_refl.
  - destruct (state !! a) as [p|] eqn:Hs.
    2: { intros [= <-]. apply sameShape_refl. }
    destruct c as [mv|]; [|done].
    destruct (creditMoves mv p) as [p'|] eqn:Hc; [|done].
    intros [= <-] b. destruct (decide (b = a)) as [->|Hb].
    + rewrite lookup_insert_eq, Hs. constructor. by apply (creditMoves_samePool mv).
    + rewrite lookup_insert_ne by done. apply sameShape_refl.
Qed.

(** X20.  Two logs can be applied in either order: both orders fail
    together, and when they succeed they give the same snapshot. *)
Theorem processLog_commute state log1 log2 :
  (s1 ← processLog vaultDecoder state log1; processLog vaultDecoder s1 log2)
  = (s2 ← processLog vaultDecoder state log2; processLog vaultDecoder s2 log1).
Proof.
  rewrite !processLog_effect.
  transitivity (runEffect (logEffect vaultDecoder log1) state
                ≫= runEffect (logEffect vaultDecoder log2)).
  { destruct (runEffect _ state); [apply processLog_effect | done]. }
  rewrite runEffect_comm.
  destruct (runEffect _ state); [symmetry; apply processLog_effect | done].
Qed.

(** X21.  A Swap that applies is undone by the Swap of the same pool with
    the tokens and the amounts exchanged: it applies too, and gives back the
    snapshot the first one was applied to. *)
Theorem processLog_swap_back state log1 log2 pid tin tout ain aout state1 :
  vaultDecoder log1 = Normal (SwapEvent pid tin tout ain aout) →
  vaultDecoder log2 = Normal (SwapEvent pid tout tin aout ain) →
  processLog vaultDecoder state log1 = Some state1 →
  processLog vaultDecoder state1 log2 = Some state.
Proof.
  intros H1 H2. rewrite !processLog_effect. unfold logEffect. rewrite H1, H2.
  rewrite !eventMoves_Swap. cbn [SwapEvent args poolId runEffect].
  set (a := poolAddressOf pid).
  destruct (state !! a) as [p|] eqn:Hs.
  2: { intros [= <-]. by rewrite Hs. }
  set (mv1 := [(Str.toLowerCase tin, ain); (Str.toLowerCase tout, - aout)]).
  set (mv2 := [(Str.toLowerCase tout, aout); (Str.toLowerCase tin, - ain)]).
  destruct (creditMoves mv1 p) as [p1|] eqn:Hc; [|done].
  intros [= <-]. rewrite lookup_insert_eq.
  assert (Hback : creditMoves mv2 p1 = Some p).
  { pose proof (creditMoves_app mv1 mv2 p) as Happ. rewrite Hc in Happ.
    cbn [mbind option_bind] in Happ. rewrite <- Happ.
    rewrite (creditMoves_ext (mv1 ++ mv2) [] p); [done| |].
    - intros t. subst mv1 mv2. simpl.
      repeat case_decide; lia.
    - split; [intros _ m Hm; by apply elem_of_nil in Hm|].
      intros _ m Hm.
      assert (Hp : is_Some (creditMoves mv1 p)) by by eexists.
      rewrite creditMoves_is_Some in Hp.
      apply elem_of_app in Hm as [Hm|Hm]; [by apply Hp|].
      subst mv1 mv2.
      apply elem_of_cons in Hm as [->|Hm].
      + apply (Hp (Str.toLowerCase tout, - aout)). right. left.
      + apply elem_of_cons in Hm as [->|Hm]; [|by apply elem_of_nil in Hm].
        apply (Hp (Str.toLowerCase tin, ain)). left. }
  rewrite Hback. cbn [fmap option_fmap option_map]. f_equal.
  rewrite insert_insert_eq. by apply insert_id.
Qed.

End LogFacts.

(** ** The objects of the snapshot [processLog] returns *)

Section StoreFacts.
Context {Log : Type}.
Variable vaultDecoder : Log -> completion LogDescription.

(** The [try] block returns the snapshot object it was given. *)
Lemma applyLog_same_refs (σ σ' : Heap.store) (_state s : Heap.PoolStateMapRef)
    (log : Log) :
  Heap.applyLog vaultDecoder σ _state log = (σ', Normal s) → s = _state.
Proof.
  unfold Heap.applyLog.
  destruct (vaultDecoder log) as [event|]; [|done].
  destruct (handlers !! name event) as [handler|]; [|by intros [= _ <-]].
  destruct (poolId (args event)) as [pid|]; [|done].
  cbv zeta.
  destruct (_state !! Str.toLowerCase (Str.slice0 42 pid)) as [l|] eqn:Hl;
    [|by intros [= _ <-]].
  destruct (σ !! l) as [pool|]; [|done].
  destruct (handler event log pool) as [pool' [[]|]]; [|done].
  intros [= _ <-]. by apply insert_id.
Qed.

(** X22.  The snapshot [processLog] returns shares no pool object with the
    one it was called on: each of its references was allocated during the
    call, two addresses never share an object, and the caller's snapshot has
    the value it had. *)
Theorem processLog_fresh_snapshot (σ σ' : Heap.store)
    (state s : Heap.PoolStateMapRef) (log : Log) :
  Heap.wf σ state →
  Heap.processLog vaultDecoder σ state log = (σ', Some s) →
  Heap.denote σ' state = Heap.denote σ state
  ∧ (∀ k l, s !! k = Some l → (length σ ≤ l < length σ')%nat)
  ∧ (∀ k l, s !! k = Some l → ∀ k', state !! k' ≠ Some l)
  ∧ (∀ k1 k2 l, s !! k1 = Some l → s !! k2 = Some l → k1 = k2).
Proof.
  intros Hwf H.
  destruct (HeapFacts.clone_spec σ state Hwf) as (ext & _state & E & Hden & Hfresh & Hinj).
  destruct (HeapFacts.applyLog_refines vaultDecoder (length σ) (σ ++ ext) _state log
              Hfresh Hinj) as (σ2 & c & E' & Hlen & Hframe & Hc).
  unfold Heap.processLog in H. rewrite E, E' in H.
  destruct c as [s'|]; [|done]. injection H as <- <-.
  apply applyLog_same_refs in E'. subst s'.
  assert (Hrange : ∀ k l, _state !! k = Some l → (length σ ≤ l < length σ2)%nat).
  { intros k l Hl. rewrite Hlen. by apply (Hfresh k). }
  split; [|split; [done|split; [|done]]].
  - apply HeapFacts.denote_frame; [done|].
    intros l Hl. rewrite Hframe by done. by apply lookup_app_l.
  - intros k l Hl k' Hl'. pose proof (Hwf k' l Hl'). pose proof (Hrange k l Hl). lia.
Qed.

End StoreFacts.

(** ** The further scenario *)

Module ExampleFacts.
Import Scenario Examples.

Lemma mixedParam_computed : param mixedData SELL = Normal mixedParam.
Proof. vm_compute. reflexivity. Qed.

(** The parameters for ether to B, 100 through P1 and 50 through the virtual
    pool: four assets, the null address first, and every index within them. *)
Lemma swap_params_scenario :
  BalancerParam.limits mixedParam = replicate 4 MAX_INT
  ∧ (∃ rest, BalancerParam.assets mixedParam = NULL :: tB :: rest)
  ∧ Forall (indexesInto (BalancerParam.assets mixedParam))
      (BalancerParam.swaps mixedParam).
Proof.
  destruct (getBalancerParam_shape ETHER NULL MAX_INT MAX_UINT augustus virtualPools
              swapDataOf ETHER tB "150" "0" mixedData SELL mixedParam
              mixedParam_computed) as (_ & _ & _ & Hl & Ha & Hi).
  split; [exact Hl|]. split; [exact Ha|]. exact Hi.
Defined.

(** Two swaps through P1 and P2: two direct swaps over two assets. *)
Lemma direct_params_scenario :
  param directData BUY
  = Normal (BalancerParam.mk SwapExactOut
              [ BalancerSwap.mk P1id 0 1 "100" "0x";
                BalancerSwap.mk P2id 0 1 "50" "0x" ]
              [ NULL; tB ] (Funds.mk augustus augustus false false)
              [ MAX_INT; MAX_INT ] MAX_UINT).
Proof.
  apply (getBalancerParam_direct ETHER NULL MAX_INT MAX_UINT augustus virtualPools
           swapDataOf ETHER tB "150" "0" directData BUY).
  repeat constructor.
Defined.

(** The three hops of the path through the virtual pool are in the
    parameters of the mixed swap. *)
Lemma hops_scenario :
  ∃ before hops after,
    BalancerParam.swaps mixedParam = before ++ hops ++ after
    ∧ Forall2 (sameHop ETHER NULL [Some ETHER; Some bbA; Some bbB; Some tB]
                 (BalancerParam.assets mixedParam))
        [ BalancerSwap.mk L1 0 1 "50" "0x";
          BalancerSwap.mk P3 1 2 "0" "0x";
          BalancerSwap.mk L2 2 3 "0" "0x" ]
        hops.
Proof.
  exact (getBalancerParam_hops ETHER NULL MAX_INT MAX_UINT augustus virtualPools
           swapDataOf ETHER tB "150" "0" mixedData SELL mixedParam
           [OptimizedSwap.mk P1id "100"] [] (OptimizedSwap.mk virtualId "50")
           (SwapData.mk
              [ BalancerSwap.mk L1 0 1 "50" "0x";
                BalancerSwap.mk P3 1 2 "0" "0x";
                BalancerSwap.mk L2 2 3 "0" "0x" ]
              [ Some ETHER; Some bbA; Some bbB; Some tB ])
           eq_refl eq_refl eq_refl mixedParam_computed).
Defined.

(** The parameters of the swap from ether do not hold the placeholder. *)
Lemma no_ether_scenario :
  Forall (fun a => Str.toLowerCase a ≠ Str.toLowerCase ETHER)
    (BalancerParam.assets mixedParam).
Proof.
  apply (getBalancerParam_no_ether ETHER NULL MAX_INT MAX_UINT augustus virtualPools
           swapDataOf ETHER tB "150" "0" mixedData SELL mixedParam).
  - intros H. vm_compute in H. discriminate H.
  - exact mixedParam_computed.
Defined.

(** A pool of an unsupported type is not read, also on a dead executor. *)
Lemma nothing_to_read_scenario :
  readChain deadMulticall [oddPool] 100 = Normal ∅.
Proof.
  apply (getOnChainState_nothing_to_read strategy virtualPools deadMulticall
           [oddPool] 100).
  intros pool Hp. apply elem_of_cons in Hp as [->|Hp]; [reflexivity|].
  by apply elem_of_nil in Hp.
Defined.

(** The two pools of the subgraph read from the chain. *)
Lemma on_chain_scenario :
  readChain multicall allPools 100
  = Normal (decodeReads (descriptor P2id P2 "Stable") [42]
            ∪ (decodeReads (descriptor P1id P1 "Weighted") [42] ∪ ∅)).
Proof.
  apply (getOnChainState_parity strategy virtualPools multicall readsOf answer
           decodeReads allPools 100).
  - reflexivity.
  - reflexivity.
  - reflexivity.
Defined.

(** The executor that rejects batches out of bounds serves as well. *)
Lemma batches_scenario :
  readChain multicall threePools 100 = readChain boundedMulticall threePools 100.
Proof.
  apply (getOnChainState_batches strategy virtualPools multicall boundedMulticall
           threePools 100).
  intros cs Hcs. unfold multicall, boundedMulticall.
  destruct (decide (0 < length cs ≤ 500)%nat) as [_|Hn]; [reflexivity|].
  destruct (Hn Hcs).
Defined.

(** The first snapshot: the virtual pool is recorded and not read, the two
    pools of the subgraph are read. *)
Lemma generateState_scenario :
  generateState strategy multicall (Normal allPools) createPools
    (EventPoolFields.mk [] ∅) 100
  = (EventPoolFields.mk threePools virtualPools,
     Normal (100,
             decodeReads (descriptor P2id P2 "Stable") [42]
             ∪ (decodeReads (descriptor P1id P1 "Weighted") [42] ∪ ∅))).
Proof.
  apply (generateState_snapshot strategy multicall (Normal allPools) createPools
           readsOf answer decodeReads (EventPoolFields.mk [] ∅) 100
           allPools [virtualDescriptor] virtualPools).
  - reflexivity.
  - reflexivity.
  - reflexivity.
  - intros pool _. split; reflexivity.
Defined.

Lemma quoteSnapshot_computed :
  quoteSnapshot = (fst quoteSnapshot, Some (default [] (snd quoteSnapshot))).
Proof. vm_compute. reflexivity. Qed.

Lemma quoteNoSnapshot_computed :
  quoteNoSnapshot = (fst quoteNoSnapshot, Some (default [] (snd quoteNoSnapshot))).
Proof. vm_compute. reflexivity. Qed.

(** The quote over the snapshot has two entries, for P1 and P2. *)
Lemma quote_entries_scenario :
  length (default [] (snd quoteSnapshot)) = 2%nat
  ∧ Forall (fun e => PoolPrices.exchange e = "BalancerV2"%string
                     ∧ ∃ rest, PoolPrices.prices e = 0 :: rest)
      (default [] (snd quoteSnapshot)).
Proof.
  destruct (getPricesVolume_entries "BalancerV2" (fun t => t) allPools ∅
              (fun _ => productPool) (fun _ => Some snapshot) [] getOnChainState
              tokenA tokenB [1; 100; 500] SELL 100 None initialCache
              (fst quoteSnapshot) (default [] (snd quoteSnapshot))
              quoteSnapshot_computed) as [_ H].
  split; [vm_compute; reflexivity|].
  eapply Forall_impl; [exact H|]. intros e (He & _ & Hp & _). by split.
Defined.

(** The quote without a snapshot read both pools from the chain; asked again
    on the cache it left, with a chain that cannot be read, it is the same. *)
Lemma quote_again_scenario :
  getPricesVolume "BalancerV2" (fun t => t) allPools ∅ (fun _ => productPool)
    (fun _ => None) (fun _ _ => Abrupt) [] tokenA tokenB [1; 100; 500] SELL 100 None
    (fst quoteNoSnapshot)
  = (fst quoteNoSnapshot, Some (default [] (snd quoteNoSnapshot))).
Proof.
  apply (getPricesVolume_again "BalancerV2" (fun t => t) allPools ∅
           (fun _ => productPool) (fun _ => None) [] getOnChainState
           (fun _ _ => Abrupt) tokenA tokenB [1; 100; 500] SELL 100 None
           initialCache (fst quoteNoSnapshot) (default [] (snd quoteNoSnapshot))).
  - intros fetched Hf pool Hp. vm_compute in Hf. injection Hf as <-.
    vm_compute in Hp.
    apply elem_of_cons in Hp as [->|Hp]; [vm_compute; eauto|].
    apply elem_of_cons in Hp as [->|Hp]; [vm_compute; eauto|].
    by apply elem_of_nil in Hp.
  - exact quoteNoSnapshot_computed.
Defined.

(** With the virtual pool among the candidates, the reported identifiers
    keep all three. *)
Lemma reported_identifiers_scenario :
  allowedPools "BalancerV2" (fun t => t) threePools virtualPools tokenA tokenB
    (Some (getPoolIdentifiers "BalancerV2" (fun t => t) threePools tokenA tokenB
             SELL 100))
  = allowedPools "BalancerV2" (fun t => t) threePools virtualPools tokenA tokenB None.
Proof.
  apply (allowedPools_reported_identifiers "BalancerV2" (fun t => t) threePools
           virtualPools tokenA tokenB 100).
  intros pool group Hp Hg. vm_compute in Hp.
  apply elem_of_cons in Hp as [->|Hp].
  { vm_compute in Hg. injection Hg as <-. split; reflexivity. }
  apply elem_of_cons in Hp as [->|Hp]; [vm_compute in Hg; discriminate Hg|].
  apply elem_of_cons in Hp as [->|Hp]; [vm_compute in Hg; discriminate Hg|].
  by apply elem_of_nil in Hp.
Defined.

(** Both pools of the quote over the snapshot are among the identifiers
    reported at another block. *)
Lemma quote_reported_scenario :
  Forall (fun e => ∃ a, head (PoolPrices.poolAddresses e) = Some a
                        ∧ "BalancerV2" +:+ "_" +:+ a
                          ∈ getPoolIdentifiers "BalancerV2" (fun t => t) allPools
                              tokenA tokenB SELL 7)
    (default [] (snd quoteSnapshot)).
Proof.
  exact (getPricesVolume_reported "BalancerV2" (fun t => t) allPools ∅
           (fun _ => productPool) (fun _ => Some snapshot) [] getOnChainState
           tokenA tokenB [1; 100; 500] SELL 100 7 None initialCache
           (fst quoteSnapshot) (default [] (snd quoteSnapshot))
           quoteSnapshot_computed).
Defined.

Lemma swapThere_computed : processLog decoder snapshot swapThere = Some afterSwap.
Proof. vm_compute. reflexivity. Qed.

(** The snapshot after the swap has the shape of the one before. *)
Lemma shape_scenario : sameShape snapshot afterSwap.
Proof.
  exact (processLog_keeps_shape decoder snapshot swapThere afterSwap
           swapThere_computed).
Defined.

(** 10 of A for 20 of B through P1 and back. *)
Lemma swap_back_scenario : processLog decoder afterSwap swapBack = Some snapshot.
Proof.
  exact (processLog_swap_back decoder snapshot swapThere swapBack P1id tA tB 10 20
           afterSwap eq_refl eq_refl swapThere_computed).
Defined.

Lemma storeSwap_computed :
  storeSwap = (fst storeSwap, Some (default ∅ (snd storeSwap))).
Proof. vm_compute. reflexivity. Qed.

(** The swap on the store of two pools: the snapshot returned refers to the
    cells 2 and 3, and the two pools of the caller are as they were. *)
Lemma fresh_snapshot_scenario :
  Heap.denote (fst storeSwap) refs = Heap.denote store0 refs
  ∧ ∀ k l, default ∅ (snd storeSwap) !! k = Some l → (2 ≤ l < 4)%nat.
Proof.
  destruct (processLog_fresh_snapshot decoder store0 (fst storeSwap) refs
              (default ∅ (snd storeSwap)) swapThere ScenarioFacts.refs_wf storeSwap_computed)
    as (Hd & Hr & _ & _).
  split; [exact Hd|exact Hr].
Defined.

End ExampleFacts.
